(** * canvas-editor: the layout and render pass of [Draw.ts]

    A shallow embedding of [src/editor/core/draw/Draw.ts] and the
    properties of its row layout ([_computeRowList]) and of [render].

    - JavaScript numbers are IEEE 754 binary64 values, modelled by the
      Standard Library's [spec_float] with [prec = 53], [emax = 1024]
      (no axioms: every operation is a function that computes).
    - Element objects live in a store indexed by location; the element
      sequence is an array of references into it, so that the in-place
      writes of the layout pass and the copies made by [deepClone] can
      be told apart.
    - The canvas, its 2D context and the collaborators that only paint
      (underline, highlight, cursor, ...) are a record of platform
      functions and a trace of calls. *)

From Stdlib Require Import ZArith String List Bool Lia.
From Stdlib Require Import Floats.SpecFloat.
From stdpp Require Import base option list.

Local Open Scope string_scope.
Local Open Scope list_scope.

(** ** JavaScript numbers *)

Module JS.

Definition number : Type := spec_float.

Definition prec : Z := 53.
Definition emax : Z := 1024.

Definition NaN : number := S754_nan.

(** The double nearest to an integer literal. *)
Definition of_Z (z : Z) : number := binary_normalize prec emax z 0 false.

Definition add (x y : number) : number := SFadd prec emax x y.
Definition sub (x y : number) : number := SFsub prec emax x y.
Definition mul (x y : number) : number := SFmul prec emax x y.
Definition div (x y : number) : number := SFdiv prec emax x y.

(** [x < y], [x > y], [x <= y]: false as soon as one side is NaN. *)
Definition lt (x y : number) : bool := SFltb x y.
Definition gt (x y : number) : bool := SFltb y x.
Definition le (x y : number) : bool := SFleb x y.

Definition isNaN (x : number) : bool :=
  match x with S754_nan => true | _ => false end.

Definition isZero (x : number) : bool :=
  match x with S754_zero _ => true | _ => false end.

(** ToBoolean on a number: 0, -0 and NaN are falsy. *)
Definition truthy (x : number) : bool := negb (isZero x || isNaN x).

(** [x || d] where [x] is an optional number. *)
Definition num_or (x : option number) (d : number) : number :=
  match x with
  | Some v => if truthy v then v else d
  | None => d
  end.

(** [x!] read in arithmetic: an absent field is [undefined], which every
    arithmetic operator and comparison converts to NaN. *)
Definition num (x : option number) : number := default NaN x.

(** [s || d] where [s] is an optional string: the empty string is falsy. *)
Definition str_or (s : option string) (d : string) : string :=
  match s with
  | Some v => if String.eqb v "" then d else v
  | None => d
  end.

(** ToBoolean on an optional flag. *)
Definition flag (b : option bool) : bool := default false b.

End JS.

(** ** Data model *)

Inductive ElementType := TEXT | IMAGE.
Inductive RowFlex := LEFT | CENTER | RIGHT.

Definition RowFlex_eqb (a b : RowFlex) : bool :=
  match a, b with
  | LEFT, LEFT | CENTER, CENTER | RIGHT, RIGHT => true
  | _, _ => false
  end.

(** [IElement]: the fields that [Draw.ts] reads or writes. *)
Module IElement.
Record t := mk {
  type : option ElementType;
  value : string;
  font : option string;
  size : option JS.number;
  width : option JS.number;
  height : option JS.number;
  bold : option bool;
  italic : option bool;
  underline : option bool;
  strikeout : option bool;
  highlight : option string;
  rowFlex : option RowFlex;
  rowMargin : option JS.number
}.

Definition set_width (w : option JS.number) (e : t) : t :=
  mk (type e) (value e) (font e) (size e) w (height e) (bold e) (italic e)
     (underline e) (strikeout e) (highlight e) (rowFlex e) (rowMargin e).

Definition set_height (h : option JS.number) (e : t) : t :=
  mk (type e) (value e) (font e) (size e) (width e) h (bold e) (italic e)
     (underline e) (strikeout e) (highlight e) (rowFlex e) (rowMargin e).

(** [element.type === ElementType.IMAGE] *)
Definition isImage (e : t) : bool :=
  match type e with Some IMAGE => true | _ => false end.
End IElement.

Module IElementMetrics.
Record t := mk {
  width : JS.number;
  height : JS.number;
  boundingBoxAscent : JS.number;
  boundingBoxDescent : JS.number
}.
End IElementMetrics.

(** The result of [ctx.measureText]. *)
Module TextMetrics.
Record t := mk {
  width : JS.number;
  actualBoundingBoxAscent : JS.number;
  actualBoundingBoxDescent : JS.number
}.
End TextMetrics.

(** [IRowElement]: the spread copy [{...element, metrics, style}]. *)
Module IRowElement.
Record t := mk {
  element : IElement.t;
  metrics : IElementMetrics.t;
  style : string
}.
End IRowElement.

Module IRow.
Record t := mk {
  width : JS.number;
  height : JS.number;
  ascent : JS.number;
  elementList : list IRowElement.t;
  rowFlex : option RowFlex
}.
End IRow.

Definition point : Type := JS.number * JS.number.

Module ICoordinate.
Record t := mk {
  leftTop : point;
  leftBottom : point;
  rightTop : point;
  rightBottom : point
}.
End ICoordinate.

Module IElementPosition.
Record t := mk {
  index : Z;
  value : string;
  rowNo : nat;
  metrics : IElementMetrics.t;
  ascent : JS.number;
  lineHeight : JS.number;
  isLastLetter : bool;
  coordinate : ICoordinate.t
}.
End IElementPosition.

Module IEditorOption.
Record t := mk {
  margins : JS.number * JS.number * JS.number * JS.number;
  defaultSize : JS.number;
  defaultFont : string;
  defaultRowMargin : JS.number;
  defaultBasicRowMarginHeight : JS.number
}.

(** [margins[0]] .. [margins[3]]: top, right, bottom, left. *)
Definition margin0 (o : t) : JS.number := let '(a, _, _, _) := margins o in a.
Definition margin1 (o : t) : JS.number := let '(_, b, _, _) := margins o in b.
Definition margin2 (o : t) : JS.number := let '(_, _, c, _) := margins o in c.
Definition margin3 (o : t) : JS.number := let '(_, _, _, d) := margins o in d.
End IEditorOption.

(** [IDrawOption]: the payload of [render]; every field is optional. *)
Module IDrawOption.
Record t := mk {
  curIndex : option Z;
  isSubmitHistory : option bool;
  isSetCursor : option bool;
  isComputeRowList : option bool
}.
End IDrawOption.

(** The canvas element: its [width] and [height] attributes and
    [style.height]. *)
Module Canvas.
Record t := mk {
  width : JS.number;
  height : JS.number;
  styleHeight : string
}.
End Canvas.

Module DOMRect.
Record t := mk {
  width : JS.number;
  height : JS.number
}.
End DOMRect.

(** The range kept by [RangeManager] and returned by [getRange]. *)
Module IRange.
Record t := mk {
  startIndex : Z;
  endIndex : Z
}.
End IRange.

(** ** The host platform

    What the browser and the constants of the other modules provide.
    [ZERO] is the constant of [dataset/constant/Common]; [measureText]
    takes the context's current font and the text; [fontAssign cur v] is
    the value of [ctx.font] after the assignment [ctx.font = v] (the
    canvas keeps [cur] when [v] does not parse and stores a serialised
    form otherwise); [resetFont] is the font of a context in its default
    state, to which the host resets the context when the height of the
    canvas is assigned. *)
Record Platform := {
  ZERO : string;
  measureText : string -> string -> TextMetrics.t;
  fontAssign : string -> string -> string;
  numberToString : JS.number -> string;
  Math_ceil : JS.number -> JS.number;
  getBoundingClientRect : Canvas.t -> DOMRect.t;
  resetFont : string
}.

(** ** The object store *)

Abbreviation loc := nat (only parsing).
Abbreviation store := (list IElement.t) (only parsing).

(** A step recorded by [HistoryManager.execute]: the closure built at the
    end of [render], with the variables it captured. *)
Module HistoryStep.
Record t := mk {
  startIndex : Z;
  endIndex : Z;
  oldElementList : list loc;
  curIndex : Z
}.
End HistoryStep.

(** ** The state of a [Draw] instance

    [objs] is the store of element objects; [elementList] holds references
    into it. [positionList] and [cursorPosition] are the fields of
    [Position], [range] the one of [RangeManager] and [undoStack] the one
    of [HistoryManager]. *)
Module Draw.
Record t := mk {
  canvas : Canvas.t;
  ctxFont : string;
  options : IEditorOption.t;
  elementList : list loc;
  objs : store;
  rowList : list IRow.t;
  positionList : list IElementPosition.t;
  cursorPosition : option IElementPosition.t;
  range : IRange.t;
  searchMatchList : option (list (list JS.number));
  undoStack : list HistoryStep.t
}.

Definition set_canvas (c : Canvas.t) (d : t) : t :=
  mk c (ctxFont d) (options d) (elementList d) (objs d) (rowList d)
     (positionList d) (cursorPosition d) (range d) (searchMatchList d)
     (undoStack d).

Definition set_ctxFont (f : string) (d : t) : t :=
  mk (canvas d) f (options d) (elementList d) (objs d) (rowList d)
     (positionList d) (cursorPosition d) (range d) (searchMatchList d)
     (undoStack d).

Definition set_elementList (l : list loc) (d : t) : t :=
  mk (canvas d) (ctxFont d) (options d) l (objs d) (rowList d)
     (positionList d) (cursorPosition d) (range d) (searchMatchList d)
     (undoStack d).

Definition set_objs (s : store) (d : t) : t :=
  mk (canvas d) (ctxFont d) (options d) (elementList d) s (rowList d)
     (positionList d) (cursorPosition d) (range d) (searchMatchList d)
     (undoStack d).

Definition set_rowList (r : list IRow.t) (d : t) : t :=
  mk (canvas d) (ctxFont d) (options d) (elementList d) (objs d) r
     (positionList d) (cursorPosition d) (range d) (searchMatchList d)
     (undoStack d).

Definition set_positionList (p : list IElementPosition.t) (d : t) : t :=
  mk (canvas d) (ctxFont d) (options d) (elementList d) (objs d) (rowList d)
     p (cursorPosition d) (range d) (searchMatchList d) (undoStack d).

Definition set_cursorPosition (p : option IElementPosition.t) (d : t) : t :=
  mk (canvas d) (ctxFont d) (options d) (elementList d) (objs d) (rowList d)
     (positionList d) p (range d) (searchMatchList d) (undoStack d).

Definition set_range (r : IRange.t) (d : t) : t :=
  mk (canvas d) (ctxFont d) (options d) (elementList d) (objs d) (rowList d)
     (positionList d) (cursorPosition d) r (searchMatchList d) (undoStack d).

Definition set_undoStack (u : list HistoryStep.t) (d : t) : t :=
  mk (canvas d) (ctxFont d) (options d) (elementList d) (objs d) (rowList d)
     (positionList d) (cursorPosition d) (range d) (searchMatchList d) u.
End Draw.

(** ** The collaborators that keep state

    [Position], [RangeManager] and [HistoryManager] are other modules of
    the repository; [Draw.ts] only calls them. *)

(** Modelled from the spec: [RangeManager.getRange] and [setRange], which
    are not among the sources: "[getRange() -> {startIndex, endIndex}],
    [setRange(start, end)]", the range last set. *)
Definition getRange (d : Draw.t) : IRange.t := Draw.range d.

Definition setRange (startIndex endIndex : Z) (d : Draw.t) : Draw.t :=
  Draw.set_range (IRange.mk startIndex endIndex) d.

(** Modelled from the spec: [Position.setPositionList],
    [getPositionList] and [setCursorPosition], which are not among the
    sources: the position model exposes "[setPositionList(list)] /
    [getPositionList() -> orderedList]", the list last set, to which
    [render] pushes. *)
Definition setPositionList (l : list IElementPosition.t) (d : Draw.t) : Draw.t :=
  Draw.set_positionList l d.

Definition getPositionList (d : Draw.t) : list IElementPosition.t :=
  Draw.positionList d.

Definition setCursorPosition (p : option IElementPosition.t) (d : Draw.t) : Draw.t :=
  Draw.set_cursorPosition p d.

(** Modelled from the spec: [HistoryManager.execute], which is not among
    the sources: "[execute(undoStep)] appends a reversible step". *)
Definition execute (step : HistoryStep.t) (d : Draw.t) : Draw.t :=
  Draw.set_undoStack (Draw.undoStack d ++ [step]) d.

(** The elements a list of references denotes in a store. *)
Definition deref (s : store) (l : list loc) : option (list IElement.t) :=
  mapM (fun r => s !! r) l.

(** Every reference of the element sequence points into the store. *)
Definition wf (d : Draw.t) : Prop :=
  Forall (fun r => r < length (Draw.objs d)) (Draw.elementList d).

(** ** Row layout: [_getFont] and [_computeRowList] *)

Section Layout.

Variable P : Platform.
Variable opts : IEditorOption.t.

Definition _getFont (el : IElement.t) : string :=
  ((if JS.flag (IElement.italic el) then "italic " else "") ++
   (if JS.flag (IElement.bold el) then "bold " else "") ++
   numberToString P (JS.num_or (IElement.size el) (IEditorOption.defaultSize opts)) ++
   "px " ++
   JS.str_or (IElement.font el) (IEditorOption.defaultFont opts))%string.

(** The loop state of [_computeRowList]: the store (element objects are
    written in place), the context's font and the rows built so far. *)
Record layout := mkLayout {
  l_objs : store;
  l_font : string;
  l_rows : list IRow.t
}.

Variable innerWidth : JS.number.

(** [curRow.width + element.width! > innerWidth] *)
Definition imageOverflows (curRow : IRow.t) (element : IElement.t) : bool :=
  JS.gt (JS.add (IRow.width curRow) (JS.num (IElement.width element))) innerWidth.

(** The two assignments of the overflow branch, in order: the height is
    computed from the width that was just written. *)
Definition shrink (curRow : IRow.t) (element : IElement.t) : IElement.t :=
  let surplusWidth := JS.sub innerWidth (IRow.width curRow) in
  let e1 := IElement.set_width (Some surplusWidth) element in
  IElement.set_height
    (Some (JS.div (JS.mul (JS.num (IElement.height e1)) surplusWidth)
                  (JS.num (IElement.width e1)))) e1.

Definition fitImage (curRow : IRow.t) (element : IElement.t) : IElement.t :=
  if imageOverflows curRow element then shrink curRow element else element.

(** The metrics of an image, from the element as it was on entry
    ([metrics.height]) and as it is after the overflow branch. *)
Definition imageMetrics (element element' : IElement.t) : IElementMetrics.t :=
  IElementMetrics.mk
    (JS.num (IElement.width element'))
    (JS.num (IElement.height element))
    (JS.of_Z 0)
    (JS.num (IElement.height element')).

Definition textMetrics (font : string) (element : IElement.t) : IElementMetrics.t :=
  let fontMetrics := measureText P font (IElement.value element) in
  IElementMetrics.mk
    (TextMetrics.width fontMetrics)
    (JS.num_or (IElement.size element) (IEditorOption.defaultSize opts))
    (if String.eqb (IElement.value element) (ZERO P)
     then IEditorOption.defaultSize opts
     else TextMetrics.actualBoundingBoxAscent fontMetrics)
    (TextMetrics.actualBoundingBoxDescent fontMetrics).

Definition rowMarginOf (element : IElement.t) : JS.number :=
  JS.mul (IEditorOption.defaultBasicRowMarginHeight opts)
         (JS.num_or (IElement.rowMargin element) (IEditorOption.defaultRowMargin opts)).

(** [curRow.width + metrics.width > innerWidth ||
     (i !== 0 && element.value === ZERO)] *)
Definition breaksRow (i : nat) (curRow : IRow.t) (rowElement : IRowElement.t) : bool :=
  JS.gt (JS.add (IRow.width curRow)
                (IElementMetrics.width (IRowElement.metrics rowElement)))
        innerWidth
  || (negb (Nat.eqb i 0)
      && String.eqb (IElement.value (IRowElement.element rowElement)) (ZERO P)).

Definition ascentOf (rowElement : IRowElement.t) : JS.number :=
  JS.add (IElementMetrics.boundingBoxAscent (IRowElement.metrics rowElement))
         (rowMarginOf (IRowElement.element rowElement)).

Definition descentOf (rowElement : IRowElement.t) : JS.number :=
  JS.add (IElementMetrics.boundingBoxDescent (IRowElement.metrics rowElement))
         (rowMarginOf (IRowElement.element rowElement)).

Definition heightOf (rowElement : IRowElement.t) : JS.number :=
  JS.add (ascentOf rowElement) (descentOf rowElement).

(** The row pushed when the element does not go on the current one. *)
Definition newRow (rowElement : IRowElement.t) : IRow.t :=
  IRow.mk
    (IElementMetrics.width (IRowElement.metrics rowElement))
    (heightOf rowElement)
    (ascentOf rowElement)
    [rowElement]
    (IElement.rowFlex (IRowElement.element rowElement)).

(** The current row after the element was added to it. *)
Definition growRow (curRow : IRow.t) (rowElement : IRowElement.t) : IRow.t :=
  let element := IRowElement.element rowElement in
  let taller := JS.lt (IRow.height curRow) (heightOf rowElement) in
  IRow.mk
    (JS.add (IRow.width curRow) (IElementMetrics.width (IRowElement.metrics rowElement)))
    (if taller then heightOf rowElement else IRow.height curRow)
    (if taller
     then (if IElement.isImage element
           then JS.num (IElement.height element)
           else ascentOf rowElement)
     else IRow.ascent curRow)
    (IRow.elementList curRow ++ [rowElement])
    (IRow.rowFlex curRow).

(** The row element built for [element] and the store and font it
    leaves: an image is fitted in place, a text sets [ctx.font]. *)
Definition buildRowElement (curRow : IRow.t) (r : loc) (element : IElement.t)
    (st : layout) : IRowElement.t * store * string :=
  if IElement.isImage element then
    let element' := fitImage curRow element in
    let objs' := if imageOverflows curRow element
                 then <[r := element']> (l_objs st) else l_objs st in
    (IRowElement.mk element' (imageMetrics element element') (l_font st),
     objs', l_font st)
  else
    let font' := fontAssign P (l_font st) (_getFont element) in
    (IRowElement.mk element (textMetrics font' element) font', l_objs st, font').

(** One iteration of the loop, for [i] and [elementList[i] = r]. *)
Definition layoutStep (i : nat) (r : loc) (st : layout) : option layout :=
  curRow ← last (l_rows st);
  element ← l_objs st !! r;
  let '(rowElement, objs', font') := buildRowElement curRow r element st in
  if breaksRow i curRow rowElement then
    Some (mkLayout objs' font' (l_rows st ++ [newRow rowElement]))
  else
    Some (mkLayout objs' font'
            (<[pred (length (l_rows st)) := growRow curRow rowElement]> (l_rows st))).

(** The loop from index [i] on. *)
Fixpoint layoutFrom (i : nat) (refs : list loc) (st : layout) : option layout :=
  match refs with
  | [] => Some st
  | r :: refs' => st' ← layoutStep i r st; layoutFrom (S i) refs' st'
  end.

End Layout.

Section ComputeRowList.

Variable P : Platform.

(** [rightTopPoint[0] - leftTopPoint[0]] *)
Definition innerWidthOf (d : Draw.t) : JS.number :=
  let width := DOMRect.width (getBoundingClientRect P (Draw.canvas d)) in
  JS.sub (JS.sub width (IEditorOption.margin1 (Draw.options d)))
         (IEditorOption.margin3 (Draw.options d)).

(** The row pushed before the loop when the sequence is not empty:
    [rowFlex: this.elementList?.[1]?.rowFlex]. *)
Definition firstRow (d : Draw.t) : IRow.t :=
  IRow.mk (JS.of_Z 0) (JS.of_Z 0) (JS.of_Z 0) []
    (r ← Draw.elementList d !! 1; e ← Draw.objs d !! r; IElement.rowFlex e).

Definition initialRows (d : Draw.t) : list IRow.t :=
  match Draw.elementList d with
  | [] => []
  | _ :: _ => [firstRow d]
  end.

(** [_computeRowList]: [ctx.save()] and [ctx.restore()] bracket the loop,
    so the context's font is the one of entry again. *)
Definition _computeRowList (d : Draw.t) : option Draw.t :=
  st ← layoutFrom P (Draw.options d) (innerWidthOf d) 0 (Draw.elementList d)
         (mkLayout (Draw.objs d) (Draw.ctxFont d) (initialRows d));
  Some (Draw.set_rowList (l_rows st) (Draw.set_objs (l_objs st) d)).

End ComputeRowList.

(** ** Painting: the calls [render] makes on its collaborators *)

Inductive DrawCall :=
  | RecoveryCursor
  | ClearRect (x y w h : JS.number)
  | BackgroundRender (canvasRect : DOMRect.t)
  | MarginRender (canvasRect : DOMRect.t)
  | UnderlineRender (x y width : JS.number)
  | StrikeoutRender (x y width : JS.number)
  | HighlightRender (color : string) (x y width height : JS.number)
  | TextComplete
  | TextRecord (element : IRowElement.t) (x y : JS.number)
  | ImageRender (element : IRowElement.t) (x y : JS.number)
  | RangeRender (x y width height : JS.number)
  | SearchRender
  | DrawCursor.

(** The state of the two nested paint loops. *)
Record paint := mkPaint {
  p_x : JS.number;
  p_y : JS.number;
  p_index : Z;
  p_positionList : list IElementPosition.t;
  p_calls : list DrawCall
}.

Definition when {A} (b : bool) (l : list A) : list A := if b then l else [].

(** [startIndex !== endIndex && startIndex < index && index <= endIndex] *)
Definition inSelection (range : IRange.t) (index : Z) : bool :=
  negb (Z.eqb (IRange.startIndex range) (IRange.endIndex range))
  && Z.ltb (IRange.startIndex range) index
  && Z.leb index (IRange.endIndex range).

(** ToBoolean on an optional string. *)
Definition strTruthy (s : option string) : bool :=
  match s with Some v => negb (String.eqb v "") | None => false end.

Section Render.

Variable P : Platform.

(** [positionItem] for the element [j] of the row [i]. *)
Definition positionItem (i : nat) (curRow : IRow.t) (j : nat)
    (element : IRowElement.t) (offsetY : JS.number) (ps : paint) : IElementPosition.t :=
  let x := p_x ps in
  let y := p_y ps in
  let metrics := IRowElement.metrics element in
  IElementPosition.mk
    (p_index ps)
    (IElement.value (IRowElement.element element))
    i
    metrics
    offsetY
    (IRow.height curRow)
    (Z.eqb (Z.of_nat j) (Z.of_nat (length (IRow.elementList curRow)) - 1)%Z)
    (ICoordinate.mk
       (x, y)
       (x, JS.add y (IRow.height curRow))
       (JS.add x (IElementMetrics.width metrics), y)
       (JS.add x (IElementMetrics.width metrics), JS.add y (IRow.height curRow))).

(** The body of the inner loop. *)
Definition paintElement (range : IRange.t) (i : nat) (curRow : IRow.t) (j : nat)
    (element : IRowElement.t) (ps : paint) : paint :=
  let x := p_x ps in
  let y := p_y ps in
  let el := IRowElement.element element in
  let metrics := IRowElement.metrics element in
  let width := IElementMetrics.width metrics in
  let offsetY :=
    if IElement.isImage el
    then JS.sub (IRow.ascent curRow) (JS.num (IElement.height el))
    else IRow.ascent curRow in
  mkPaint
    (JS.add x width)
    y
    (p_index ps + 1)%Z
    (p_positionList ps ++ [positionItem i curRow j element offsetY ps])
    (p_calls ps
     ++ when (JS.flag (IElement.underline el))
          [UnderlineRender x (JS.add y (IRow.height curRow)) width]
     ++ when (JS.flag (IElement.strikeout el))
          [StrikeoutRender x (JS.add y (JS.div (IRow.height curRow) (JS.of_Z 2))) width]
     ++ when (strTruthy (IElement.highlight el))
          [HighlightRender (default "" (IElement.highlight el)) x y width (IRow.height curRow)]
     ++ (if IElement.isImage el
         then [TextComplete; ImageRender element x (JS.add y offsetY)]
         else [TextRecord element x (JS.add y offsetY)])
     ++ when (inSelection range (p_index ps))
          [RangeRender x y width (IRow.height curRow)]).

Fixpoint paintElements (range : IRange.t) (i : nat) (curRow : IRow.t) (j : nat)
    (els : list IRowElement.t) (ps : paint) : paint :=
  match els with
  | [] => ps
  | element :: els' =>
      paintElements range i curRow (S j) els' (paintElement range i curRow j element ps)
  end.

(** The row-flex offset applied to [x] before a row is painted. *)
Definition rowOffset (canvas : Canvas.t) (opts : IEditorOption.t)
    (curRow : IRow.t) (x : JS.number) : JS.number :=
  match IRow.rowFlex curRow with
  | None | Some LEFT => x
  | Some flex =>
      let canvasInnerWidth :=
        JS.sub (JS.sub (Canvas.width canvas) (IEditorOption.margin1 opts))
               (IEditorOption.margin3 opts) in
      if RowFlex_eqb flex CENTER
      then JS.add x (JS.div (JS.sub canvasInnerWidth (IRow.width curRow)) (JS.of_Z 2))
      else JS.add x (JS.sub canvasInnerWidth (IRow.width curRow))
  end.

(** The body of the outer loop. *)
Definition paintRow (canvas : Canvas.t) (opts : IEditorOption.t) (range : IRange.t)
    (i : nat) (curRow : IRow.t) (ps : paint) : paint :=
  let ps1 := mkPaint (rowOffset canvas opts curRow (p_x ps)) (p_y ps) (p_index ps)
                     (p_positionList ps) (p_calls ps) in
  let ps2 := paintElements range i curRow 0 (IRow.elementList curRow) ps1 in
  mkPaint (IEditorOption.margin3 opts)
          (JS.add (p_y ps2) (IRow.height curRow))
          (p_index ps2)
          (p_positionList ps2)
          (p_calls ps2 ++ [TextComplete]).

Fixpoint paintRows (canvas : Canvas.t) (opts : IEditorOption.t) (range : IRange.t)
    (i : nat) (rows : list IRow.t) (ps : paint) : paint :=
  match rows with
  | [] => ps
  | curRow :: rows' =>
      paintRows canvas opts range (S i) rows' (paintRow canvas opts range i curRow ps)
  end.

(** [this.rowList.reduce((pre, cur) => cur.height + pre, 0)] *)
Definition rowHeightSum (rows : list IRow.t) : JS.number :=
  fold_left (fun pre cur => JS.add (IRow.height cur) pre) rows (JS.of_Z 0).

(** [rowHeight > this.canvas.height - margins[0] - margins[2]] *)
Definition canvasTooLow (opts : IEditorOption.t) (rows : list IRow.t)
    (canvas : Canvas.t) : bool :=
  JS.gt (rowHeightSum rows)
        (JS.sub (JS.sub (Canvas.height canvas) (IEditorOption.margin0 opts))
                (IEditorOption.margin2 opts)).

(** The canvas after [this.canvas.height = height] and
    [this.canvas.style.height = `${height}px`]. *)
Definition grownCanvas (opts : IEditorOption.t) (rows : list IRow.t)
    (canvas : Canvas.t) : Canvas.t :=
  let height := Math_ceil P (JS.add (JS.add (rowHeightSum rows) (IEditorOption.margin0 opts))
                                    (IEditorOption.margin2 opts)) in
  Canvas.mk (Canvas.width canvas) height (numberToString P height ++ "px")%string.

(** Modelled from the spec: [deepClone] of [utils], which is not among
    the sources. "deep-copied, so later mutation of the live sequence
    cannot corrupt the snapshot": every element object is copied into a
    newly allocated object, and the result is a new array of the new
    references. *)
Definition deepClone (s : store) (l : list loc) : option (store * list loc) :=
  vals ← deref s l;
  Some (s ++ vals, seq (length s) (length vals)).

(** [positionList[curIndex!] || null] *)
Definition positionAt (positionList : list IElementPosition.t) (curIndex : Z)
    : option IElementPosition.t :=
  if Z.ltb curIndex 0 then None else positionList !! Z.to_nat curIndex.

(** The layout part of [render], run when [isComputeRowList] holds: the
    layout pass, then the canvas is made higher if the rows do not fit
    (which resets the context). *)
Definition renderLayout (d : Draw.t) : option Draw.t :=
  d1 ← _computeRowList P d;
  if canvasTooLow (Draw.options d1) (Draw.rowList d1) (Draw.canvas d1)
  then Some (Draw.set_ctxFont (resetFont P)
               (Draw.set_canvas
                  (grownCanvas (Draw.options d1) (Draw.rowList d1) (Draw.canvas d1)) d1))
  else Some d1.

(** The history part of [render]: the sequence is cloned, the range
    read, and the closure over both and [curIndex] handed to the history
    manager. *)
Definition submitHistory (curIndex : Z) (d : Draw.t) : option Draw.t :=
  '(objs', oldElementList) ← deepClone (Draw.objs d) (Draw.elementList d);
  let d' := Draw.set_objs objs' d in
  let step := HistoryStep.mk (IRange.startIndex (getRange d'))
                             (IRange.endIndex (getRange d'))
                             oldElementList curIndex in
  Some (execute step d').

(** The paint part of [render]: the calls that clear the surface and
    paint background and margins, then the loop over the rows from the
    left top corner of the page. The range does not change while the
    rows are painted, so [getRange] is read once. *)
Definition paintAll (d1 : Draw.t) : paint :=
  let opts := Draw.options d1 in
  let canvas := Draw.canvas d1 in
  let canvasRect := getBoundingClientRect P canvas in
  let ps0 :=
    mkPaint (IEditorOption.margin3 opts) (IEditorOption.margin0 opts) 0 []
      [RecoveryCursor;
       ClearRect (JS.of_Z 0) (JS.of_Z 0) (Canvas.width canvas) (Canvas.height canvas);
       BackgroundRender canvasRect;
       MarginRender canvasRect] in
  paintRows canvas opts (getRange d1) 0 (Draw.rowList d1) ps0.

(** [render(payload)]: the state it leaves and the calls it made. *)
Definition render (payload : option IDrawOption.t) (d : Draw.t)
    : option (Draw.t * list DrawCall) :=
  let curIndex : option Z := payload ≫= IDrawOption.curIndex in
  let isSubmitHistory := default true (payload ≫= IDrawOption.isSubmitHistory) in
  let isSetCursor := default true (payload ≫= IDrawOption.isSetCursor) in
  let isComputeRowList := default true (payload ≫= IDrawOption.isComputeRowList) in
  d1 ← (if isComputeRowList then renderLayout d else Some d);
  let ps := paintAll d1 in
  let d2 := setPositionList (p_positionList ps) d1 in
  let positionList := getPositionList d2 in
  let calls1 :=
    p_calls ps ++ when (bool_decide (is_Some (Draw.searchMatchList d2))) [SearchRender] in
  let curIndex' := default (Z.of_nat (length positionList) - 1)%Z curIndex in
  let d3 := if isSetCursor
            then setCursorPosition (positionAt positionList curIndex') d2
            else d2 in
  let calls2 := calls1 ++ when isSetCursor [DrawCursor] in
  d4 ← (if isSubmitHistory then submitHistory curIndex' d3 else Some d3);
  Some (d4, calls2).

(** The closure pushed by [render], invoked by undo and redo. *)
Definition invokeStep (step : HistoryStep.t) (d : Draw.t)
    : option (Draw.t * list DrawCall) :=
  let d1 := setRange (HistoryStep.startIndex step) (HistoryStep.endIndex step) d in
  '(objs', elementList') ← deepClone (Draw.objs d1) (HistoryStep.oldElementList step);
  render (Some (IDrawOption.mk (Some (HistoryStep.curIndex step)) (Some false) None None))
         (Draw.set_elementList elementList' (Draw.set_objs objs' d1)).

End Render.

(** ** Auxiliary definitions for the statements *)

Section StepResult.

Variable P : Platform.
Variable opts : IEditorOption.t.
Variable innerWidth : JS.number.

(** What one iteration leaves, written out on the rows [rs ++ [cur]]. *)
Definition stepResult (i : nat) (r : loc) (e : IElement.t)
    (rs : list IRow.t) (cur : IRow.t) (st : layout) : layout :=
  let '(re, objs', font') := buildRowElement P opts innerWidth cur r e st in
  mkLayout objs' font'
    (if breaksRow P innerWidth i cur re then rs ++ [cur; newRow opts re] else rs ++ [growRow opts cur re]).

End StepResult.

(** The number of elements the rows hold: the sum of
    [row.elementList.length]. *)
Definition placed (rows : list IRow.t) : nat :=
  list_sum (map (fun r => length (IRow.elementList r)) rows).

(** The row elements of all the rows, in order. *)
Definition rowElements (rows : list IRow.t) : list IRowElement.t :=
  concat (map IRow.elementList rows).

(** Two elements agree on every field but [width] and [height]. *)
Definition sameButSize (e e' : IElement.t) : Prop :=
  IElement.set_height None (IElement.set_width None e)
  = IElement.set_height None (IElement.set_width None e').

(** The row element [re] is the copy made of the object [r] refers to:
    equal to what the object was before the layout pass, up to the
    [width] and [height] the pass may have written. *)
Definition copyOf (objs : store) (r : loc) (re : IRowElement.t) : Prop :=
  exists e, objs !! r = Some e /\ sameButSize e (IRowElement.element re).

(** A row is forced by a line-break marker when the element that opened
    it is [ZERO]; it is a single oversize element when its only element is
    wider than the available width. *)
Definition forcedByLineBreak (P : Platform) (r : IRow.t) : bool :=
  match IRow.elementList r with
  | e :: _ => String.eqb (IElement.value (IRowElement.element e)) (ZERO P)
  | [] => false
  end.

Definition singleOversize (availableWidth : JS.number) (r : IRow.t) : bool :=
  match IRow.elementList r with
  | [e] => JS.gt (IElementMetrics.width (IRowElement.metrics e)) availableWidth
  | _ => false
  end.

(** Width containment as the specification words it, for the rows the
    layout pass leaves on [d]. *)
Definition widthContainment (P : Platform) (d : Draw.t) : Prop :=
  forall d', _computeRowList P d = Some d' ->
    Forall (fun r => JS.le (IRow.width r) (innerWidthOf P d) = true
                     \/ forcedByLineBreak P r = true
                     \/ singleOversize (innerWidthOf P d) r = true)
           (Draw.rowList d').

(** The invariant of the rows under construction: a row is the leading
    row still empty, or holds the one element that opened it, or was
    grown by an element that passed the width test. *)
Definition rowFits (availableWidth : JS.number) (r : IRow.t) : Prop :=
  (IRow.elementList r = [] /\ IRow.width r = JS.of_Z 0)
  \/ (exists e, IRow.elementList r = [e]
                /\ IRow.width r = IElementMetrics.width (IRowElement.metrics e))
  \/ (IRow.elementList r <> [] /\ JS.gt (IRow.width r) availableWidth = false).

(** [this.elementList?.[1]?.rowFlex]: the row-flex of the second element
    of the whole sequence. *)
Definition secondFlex (d : Draw.t) : option RowFlex :=
  r ← Draw.elementList d !! 1; e ← Draw.objs d !! r; IElement.rowFlex e.

(** The row's row-flex is the one of the row's own first member. *)
Definition flexOfOwnFirst (r : IRow.t) : Prop :=
  exists e tl, IRow.elementList r = e :: tl
               /\ IRow.rowFlex r = IElement.rowFlex (IRowElement.element e).

(** Row-flex as the specification words it: every row takes it from
    [elementList[1]]. *)
Definition flexFromSecond (P : Platform) (d : Draw.t) : Prop :=
  forall d', _computeRowList P d = Some d' ->
    Forall (fun r => IRow.rowFlex r = secondFlex d) (Draw.rowList d').

(** The layout pass leaves the height of every element as it was: what
    the no-op reading of [height * width / width] amounts to. *)
Definition layoutKeepsHeights (P : Platform) (d : Draw.t) : Prop :=
  forall d' r e e',
    _computeRowList P d = Some d' ->
    Draw.objs d !! r = Some e -> Draw.objs d' !! r = Some e' ->
    IElement.height e' = IElement.height e.

(** Some row the layout pass leaves has the height NaN. *)
Definition someRowHeightNaN (P : Platform) (d : Draw.t) : Prop :=
  forall d', _computeRowList P d = Some d' ->
    Exists (fun r => JS.isNaN (IRow.height r) = true) (Draw.rowList d').

(** ** Statements about [render] *)

Definition isRangeRender (c : DrawCall) : bool :=
  match c with RangeRender _ _ _ _ => true | _ => false end.

(** The call [range.render(x, y, metrics.width, curRow.height)] for the
    element of a position entry. *)
Definition selectionRect (p : IElementPosition.t) : DrawCall :=
  let '(x, y) := ICoordinate.leftTop (IElementPosition.coordinate p) in
  RangeRender x y (IElementMetrics.width (IElementPosition.metrics p))
              (IElementPosition.lineHeight p).

(** The selection rectangles a render painted, in order. *)
Definition selectionPainted (calls : list DrawCall) : list DrawCall :=
  List.filter isRangeRender calls.

(** Selection painting as the specification words it: the rectangles
    painted are those of the entries whose index is in
    [[startIndex, endIndex)]. *)
Definition selectionHalfOpen (P : Platform) (d : Draw.t) : Prop :=
  forall d' calls,
    render P None d = Some (d', calls) ->
    selectionPainted calls
    = map selectionRect
        (List.filter
           (fun p => Z.leb (IRange.startIndex (Draw.range d)) (IElementPosition.index p)
                     && Z.ltb (IElementPosition.index p) (IRange.endIndex (Draw.range d)))
           (Draw.positionList d')).

(** The invariant of the paint loops: the entries are numbered as they
    are stored, and the selection rectangles painted are those of the
    entries the test selects. *)
Definition painted (range : IRange.t) (ps : paint) : Prop :=
  p_index ps = Z.of_nat (length (p_positionList ps))
  /\ (forall i p, p_positionList ps !! i = Some p -> IElementPosition.index p = Z.of_nat i)
  /\ selectionPainted (p_calls ps)
     = map selectionRect
         (List.filter (fun p => inSelection range (IElementPosition.index p))
                      (p_positionList ps)).

(** History capture as the specification words it: the step pushed holds
    the elements as they were before the render began. *)
Definition snapshotIsPreRender (P : Platform) (d : Draw.t) : Prop :=
  forall d' calls step,
    render P None d = Some (d', calls) ->
    last (Draw.undoStack d') = Some step ->
    deref (Draw.objs d') (HistoryStep.oldElementList step)
    = deref (Draw.objs d) (Draw.elementList d).

(** ** Sample inputs

    Hosts whose glyphs are all of one width ([host]: 10), 8 above and 2
    below the base line (the line-break marker is 0 wide), whose canvas
    is shown at its own size, and sample elements. *)
Module Sample.

Definition zeroWidthSpace : string :=
String (Ascii.ascii_of_nat 226)
  (String (Ascii.ascii_of_nat 128) (String (Ascii.ascii_of_nat 139) EmptyString)).

Definition hostOf (glyph : JS.number) : Platform := {|
  ZERO := zeroWidthSpace;
  measureText := fun _ text =>
    TextMetrics.mk
      (if String.eqb text zeroWidthSpace then JS.of_Z 0
       else JS.mul glyph (JS.of_Z (Z.of_nat (String.length text))))
      (JS.of_Z 8) (JS.of_Z 2);
  fontAssign := fun _ v => v;
  numberToString := fun _ => "16";
  Math_ceil := fun x => x;
  getBoundingClientRect := fun c => DOMRect.mk (Canvas.width c) (Canvas.height c);
  resetFont := "10px sans-serif"
|}.

Definition host : Platform := hostOf (JS.of_Z 10).

Definition text (v : string) : IElement.t :=
IElement.mk None v None None None None None None None None None None None.

Definition textFlex (v : string) (f : RowFlex) : IElement.t :=
IElement.mk None v None None None None None None None None None (Some f) None.

Definition image (w h : JS.number) : IElement.t :=
IElement.mk (Some IMAGE) "" None None (Some w) (Some h)
            None None None None None None None.

Definition noMargins : IEditorOption.t :=
IEditorOption.mk (JS.of_Z 0, JS.of_Z 0, JS.of_Z 0, JS.of_Z 0)
                 (JS.of_Z 16) "Yahei" (JS.of_Z 1) (JS.of_Z 0).

Definition margins10 : IEditorOption.t :=
IEditorOption.mk (JS.of_Z 10, JS.of_Z 10, JS.of_Z 10, JS.of_Z 10)
                 (JS.of_Z 16) "Yahei" (JS.of_Z 1) (JS.of_Z 0).

(** A [Draw] whose canvas is [w] wide, over the elements [els], each an
    object of its own, with the range [{a, b}]. *)
Definition draw (o : IEditorOption.t) (w : Z) (els : list IElement.t) (a b : Z) : Draw.t :=
Draw.mk (Canvas.mk (JS.of_Z w) (JS.of_Z 100) "") "10px sans-serif" o
        (seq 0 (length els)) els [] [] None (IRange.mk a b) None [].

(** The widths and the texts of the rows. *)
Definition summary (rows : list IRow.t) : list (JS.number * list string) :=
map (fun r => (IRow.width r,
               map (fun e => IElement.value (IRowElement.element e))
                   (IRow.elementList r))) rows.

Definition abc : Draw.t := draw noMargins 25 [text "A"; text "B"; text "C"] 0 0.

(** A canvas laid out with no width (a hidden one), margins of 10. *)
Definition hidden : Draw.t := draw margins10 0 [text "A"] 0 0.

(** The loop state on entry for the single glyph "A" on a page 25 wide. *)
Definition emptyRow : IRow.t := IRow.mk (JS.of_Z 0) (JS.of_Z 0) (JS.of_Z 0) [] None.
Definition start : layout := mkLayout [text "A"] "10px sans-serif" [emptyRow].

(** Three glyphs aligned left, centre and right, on a page 15 wide: one
    glyph a row. *)
Definition flexes : Draw.t :=
draw noMargins 15
  [textFlex "A" LEFT; textFlex "B" CENTER; textFlex "C" RIGHT] 0 0.

(** Six glyphs (60 wide) and an image of 100 by 30 on a page 100 wide:
    40 remain for the image. *)
Definition overflow : Draw.t :=
draw noMargins 100
  [text "012345"; image (JS.of_Z 100) (JS.of_Z 30)] 0 0.

(** Ten glyphs (100 wide) and an image of 50 by 30 on a page 100 wide:
    nothing remains for the image. *)
Definition full : Draw.t :=
draw noMargins 100
  [text "0123456789"; image (JS.of_Z 50) (JS.of_Z 30)] 0 0.

(** One glyph 9.9 wide and an image of 100 by 3 on a page 100 wide: 90.1
    remain for the image. *)
Definition tenths : Platform := hostOf (JS.div (JS.of_Z 99) (JS.of_Z 10)).
Definition fraction : Draw.t :=
draw noMargins 100
  [text "x"; image (JS.of_Z 100) (JS.of_Z 3)] 0 0.

(** The same [Draw] with the canvas 200 wide. *)
Definition widen (d : Draw.t) : Draw.t :=
Draw.set_canvas (Canvas.mk (JS.of_Z 200) (JS.of_Z 100) "") d.

(** Loop states that reach the image on a current row 100 wide and on
    one 60 wide. *)
Definition fullRow : IRow.t :=
IRow.mk (JS.of_Z 100) (JS.of_Z 10) (JS.of_Z 8) [] None.
Definition fullState : layout :=
mkLayout [text "0123456789"; image (JS.of_Z 50) (JS.of_Z 30)]
         "16px Yahei" [fullRow].
Definition overflowRow : IRow.t :=
IRow.mk (JS.of_Z 60) (JS.of_Z 10) (JS.of_Z 8) [] None.
Definition overflowState : layout :=
mkLayout [text "012345"; image (JS.of_Z 100) (JS.of_Z 30)]
         "16px Yahei" [overflowRow].

(** An image whose [width] is absent, 30 high, on a page 100 wide. *)
Definition unsized : Draw.t :=
  draw noMargins 100
    [IElement.mk (Some IMAGE) "" None None None (Some (JS.of_Z 30))
                 None None None None None None None] 0 0.

(** A row as wide as 2^53 and an image 1 wide. *)
Definition hugeRow : IRow.t :=
  IRow.mk (JS.of_Z 9007199254740992) (JS.of_Z 10) (JS.of_Z 8) [] None.
Definition thin : IElement.t := image (JS.of_Z 1) (JS.of_Z 30).

(** Five glyphs on one row, with the range [{1, 3}]. *)
Definition five : Draw.t :=
draw noMargins 100
  [text "a"; text "b"; text "c"; text "d"; text "e"]
  1 3.

End Sample.

(** * The rest of [Draw.ts]: accessors and auxiliary definitions *)

(** [getRowCount()] *)
Definition getRowCount (d : Draw.t) : nat := length (Draw.rowList d).

(** [getSearchMathch()] and [setSearchMatch(payload)] *)
Definition getSearchMathch (d : Draw.t) : option (list (list JS.number)) :=
  Draw.searchMatchList d.

Definition setSearchMatch (payload : option (list (list JS.number))) (d : Draw.t) : Draw.t :=
  Draw.mk (Draw.canvas d) (Draw.ctxFont d) (Draw.options d) (Draw.elementList d)
          (Draw.objs d) (Draw.rowList d) (Draw.positionList d) (Draw.cursorPosition d)
          (Draw.range d) payload (Draw.undoStack d).

(** [offsetY] of the inner paint loop. *)
Definition offsetYOf (curRow : IRow.t) (element : IRowElement.t) : JS.number :=
  if IElement.isImage (IRowElement.element element)
  then JS.sub (IRow.ascent curRow) (JS.num (IElement.height (IRowElement.element element)))
  else IRow.ascent curRow.

(** The position entry the inner loop pushes for an element. *)
Definition entryOf (i : nat) (curRow : IRow.t) (j : nat) (element : IRowElement.t)
    (ps : paint) : IElementPosition.t :=
  positionItem i curRow j element (offsetYOf curRow element) ps.

(** Payloads of [render] used below. *)
Definition repaintOnly : option IDrawOption.t :=
  Some (IDrawOption.mk None (Some false) None (Some false)).

Definition payloadWith (curIndex : option Z) (isSubmitHistory isSetCursor isComputeRowList : bool)
    : option IDrawOption.t :=
  Some (IDrawOption.mk curIndex (Some isSubmitHistory) (Some isSetCursor)
                       (Some isComputeRowList)).

(** The calls of the paint loops: every call but the search highlight and
    the cursor. *)
Definition isPaintCall (c : DrawCall) : bool :=
  match c with SearchRender | DrawCursor => false | _ => true end.

(** The callback that [_setDefaultRange] defers with [setTimeout]: it
    reads the length of the sequence when it runs and sets the collapsed
    range at the last index. ([setRangeStyle] belongs to [RangeManager]
    and reports the style of the range to the listener; it is not part of
    the state of [Draw].) *)
Definition defaultRangeTask (d : Draw.t) : Draw.t :=
  let curIndex := (Z.of_nat (length (Draw.elementList d)) - 1)%Z in
  setRange curIndex curIndex d.

(** [_setDefaultRange]: the task it schedules, none for an empty
    sequence. *)
Definition _setDefaultRange (d : Draw.t) : option (Draw.t -> Draw.t) :=
  match Draw.elementList d with
  | [] => None
  | _ :: _ => Some defaultRangeTask
  end.

(** The position entry [p] is the one of the row element [re]: it
    carries its value and its metrics. *)
Definition entryFor (re : IRowElement.t) (p : IElementPosition.t) : Prop :=
  IElementPosition.value p = IElement.value (IRowElement.element re)
  /\ IElementPosition.metrics p = IRowElement.metrics re.

(** The position entry [p] is the one of the object [r] refers to. *)
Definition positionOf (objs : store) (r : loc) (p : IElementPosition.t) : Prop :=
  exists e, objs !! r = Some e /\ IElementPosition.value p = IElement.value e.

(** The sum [curRow.width += metrics.width] makes, from [start], of the
    widths of row elements, left to right. *)
Definition sumWidths (start : JS.number) (els : list IRowElement.t) : JS.number :=
  fold_left (fun acc re => JS.add acc (IElementMetrics.width (IRowElement.metrics re)))
            els start.

(** The width of a row is the sum of the widths of its elements: from 0
    for the row pushed before the loop, from the width of the element
    that opened it for a row pushed by the loop. *)
Definition widthOfLeading (r : IRow.t) : Prop :=
  IRow.width r = sumWidths (JS.of_Z 0) (IRow.elementList r).

Definition widthOfOpened (r : IRow.t) : Prop :=
  exists e tl, IRow.elementList r = e :: tl
               /\ IRow.width r = sumWidths (IElementMetrics.width (IRowElement.metrics e)) tl.

(** No element of the row is higher than the row: [row.height < height]
    is false for the height [ascent + descent] of each element. *)
Definition rowCoversElements (opts : IEditorOption.t) (r : IRow.t) : Prop :=
  Forall (fun re => JS.lt (IRow.height r) (heightOf opts re) = false) (IRow.elementList r).

(** No element the sequence refers to is an image. *)
Definition textOnly (d : Draw.t) : Prop :=
  Forall (fun r => exists e, Draw.objs d !! r = Some e /\ IElement.isImage e = false)
         (Draw.elementList d).

(** A recorded step is unaliased: the objects it refers to exist and the
    live sequence refers to none of them. *)
Definition stepUnaliased (d : Draw.t) (step : HistoryStep.t) : Prop :=
  Forall (fun r => r < length (Draw.objs d) /\ ~ In r (Draw.elementList d))
         (HistoryStep.oldElementList step).

Definition historyUnaliased (d : Draw.t) : Prop :=
  Forall (stepUnaliased d) (Draw.undoStack d).

(** An element as it is after it was restored and laid out again: what it
    was, up to the [width] and [height] of an image. *)
Definition restored (v v' : IElement.t) : Prop :=
  sameButSize v v' /\ (IElement.isImage v = false -> v' = v).

Module Sample2.
(** The state a first render of [Sample.overflow] leaves, its history
    step and the elements of the step. *)
Definition rendered : option (Draw.t * list DrawCall) :=
  render Sample.host None Sample.overflow.
Definition after : Draw.t :=
  match rendered with Some (d, _) => d | None => Sample.overflow end.
Definition step : HistoryStep.t :=
  match last (Draw.undoStack after) with
  | Some s => s
  | None => HistoryStep.mk 0 0 [] 0
  end.
End Sample2.

(** ** The calls of the paint loops, element by element *)

Definition isDraw (c : DrawCall) : bool :=
  match c with TextRecord _ _ _ | ImageRender _ _ _ => true | _ => false end.

Definition isDecoration (c : DrawCall) : bool :=
  match c with
  | UnderlineRender _ _ _ | StrikeoutRender _ _ _ | HighlightRender _ _ _ _ _ => true
  | _ => false
  end.

(** The call that draws the row element [re] at its position entry [p]:
    at the left edge, [ascent] below the top. *)
Definition drawCallFor (re : IRowElement.t) (p : IElementPosition.t) : DrawCall :=
  let '(x, y) := ICoordinate.leftTop (IElementPosition.coordinate p) in
  if IElement.isImage (IRowElement.element re)
  then ImageRender re x (JS.add y (IElementPosition.ascent p))
  else TextRecord re x (JS.add y (IElementPosition.ascent p)).

(** The decorations of the row element [re] at its position entry [p]:
    the underline along the bottom of the line, the strikeout half way
    down, the highlight over the box. *)
Definition decorationsFor (re : IRowElement.t) (p : IElementPosition.t) : list DrawCall :=
  let '(x, y) := ICoordinate.leftTop (IElementPosition.coordinate p) in
  let el := IRowElement.element re in
  let width := IElementMetrics.width (IElementPosition.metrics p) in
  let lineHeight := IElementPosition.lineHeight p in
  when (JS.flag (IElement.underline el)) [UnderlineRender x (JS.add y lineHeight) width]
  ++ when (JS.flag (IElement.strikeout el))
       [StrikeoutRender x (JS.add y (JS.div lineHeight (JS.of_Z 2))) width]
  ++ when (strTruthy (IElement.highlight el))
       [HighlightRender (default "" (IElement.highlight el)) x y width lineHeight].

(** Whether a run of recorded text is pending after a call. *)
Definition pendingAfter (pending : bool) (c : DrawCall) : bool :=
  match c with
  | TextRecord _ _ _ => true
  | TextComplete => false
  | _ => pending
  end.

Definition pendingText (calls : list DrawCall) : bool :=
  fold_left pendingAfter calls false.

(** No image is drawn while recorded text is pending, from the state
    [pending] on. *)
Fixpoint flushedFrom (pending : bool) (calls : list DrawCall) : bool :=
  match calls with
  | [] => true
  | c :: rest =>
      match c with ImageRender _ _ _ => negb pending | _ => true end
      && flushedFrom (pendingAfter pending c) rest
  end.

(** ** Where the entries of the position list lie *)

(** The top of the row [i]: what [y += curRow.height] makes of the top
    margin over the rows before it. *)
Definition rowTop (opts : IEditorOption.t) (rows : list IRow.t) (i : nat) : JS.number :=
  fold_left (fun y r => JS.add y (IRow.height r)) (take i rows)
            (IEditorOption.margin0 opts).

(** The left edge of a row: the left margin, moved by the offset of the
    row's [rowFlex]. *)
Definition rowLeft (canvas : Canvas.t) (opts : IEditorOption.t) (curRow : IRow.t)
    : JS.number :=
  rowOffset canvas opts curRow (IEditorOption.margin3 opts).

(** The left edge of the element [k] of a row: what [x += metrics.width]
    makes of the left edge of the row over the elements before it. *)
Definition columnLeft (canvas : Canvas.t) (opts : IEditorOption.t) (curRow : IRow.t)
    (k : nat) : JS.number :=
  sumWidths (rowLeft canvas opts curRow) (take k (IRow.elementList curRow)).

(** The box with the left top corner [(x, y)], [w] wide and [h] high. *)
Definition boxAt (x y w h : JS.number) : ICoordinate.t :=
  ICoordinate.mk (x, y) (x, JS.add y h) (JS.add x w, y) (JS.add x w, JS.add y h).

(** The position entry [p] is the one of the element [k] of the row [i],
    [curRow], whose top is [top]. *)
Definition entryAt (canvas : Canvas.t) (opts : IEditorOption.t) (top : JS.number)
    (i : nat) (curRow : IRow.t) (k : nat) (p : IElementPosition.t) : Prop :=
  exists re,
    IRow.elementList curRow !! k = Some re
    /\ IElementPosition.rowNo p = i
    /\ IElementPosition.metrics p = IRowElement.metrics re
    /\ IElementPosition.lineHeight p = IRow.height curRow
    /\ IElementPosition.isLastLetter p = Nat.eqb (S k) (length (IRow.elementList curRow))
    /\ IElementPosition.coordinate p
       = boxAt (columnLeft canvas opts curRow k) top
               (IElementMetrics.width (IRowElement.metrics re)) (IRow.height curRow).

(** The row was opened by its first element and has its [rowFlex]. *)
Definition flexOfOpened (r : IRow.t) : Prop :=
  exists e tl, IRow.elementList r = e :: tl
               /\ IRow.rowFlex r = IElement.rowFlex (IRowElement.element e).

(** ** The painter style

    [painterStyle] and [canvas.style.cursor] are read and written by
    [getPainterStyle] and [setPainterStyle] only; they are kept in a
    record of their own. An [IElementStyle] object is the list of its own
    keys with their values, so that [Object.keys(...).length] is the
    length of the list. *)

Section PainterStyle.

Variable V : Type.

Record painter := mkPainter {
  painterStyle : option (list (string * V));
  styleCursor : string
}.

(** [this.painterStyle && Object.keys(this.painterStyle).length
     ? this.painterStyle : null] *)
Definition getPainterStyle (s : painter) : option (list (string * V)) :=
  match painterStyle s with
  | Some o => if Nat.eqb (length o) 0 then None else Some o
  | None => None
  end.

Definition setPainterStyle (payload : option (list (string * V))) (s : painter) : painter :=
  let s1 := mkPainter payload (styleCursor s) in
  match getPainterStyle s1 with
  | Some _ => mkPainter payload "copy"
  | None => s1
  end.

(** A payload that is an object with at least one key. *)
Definition hasKeys (payload : option (list (string * V))) : bool :=
  match payload with Some (_ :: _) => true | _ => false end.

End PainterStyle.

Arguments mkPainter {V}.
Arguments painterStyle {V}.
Arguments styleCursor {V}.
Arguments getPainterStyle {V}.
Arguments setPainterStyle {V}.
Arguments hasKeys {V}.

Module Sample3.
(** An underlined, a struck out, a highlighted and a plain glyph. *)
Definition decorated : Draw.t :=
Sample.draw Sample.noMargins 100
  [IElement.mk None "a" None None None None None None (Some true) None None None None;
   IElement.mk None "b" None None None None None None None (Some true) None None None;
   IElement.mk None "c" None None None None None None None None (Some "#ff0") None None;
   Sample.text "d"] 0 0.
End Sample3.

(** ** Whether a layout pass shrinks an image *)

(** The iteration for [r] takes the branch that writes to the element:
    [element.type === ElementType.IMAGE] and
    [curRow.width + element.width! > innerWidth]. *)
Definition stepShrinks (innerWidth : JS.number) (r : loc) (st : layout) : bool :=
  match last (l_rows st), l_objs st !! r with
  | Some curRow, Some element =>
      IElement.isImage element && imageOverflows innerWidth curRow element
  | _, _ => false
  end.

(** Some iteration of the loop from index [i] on takes that branch. *)
Fixpoint shrinksFrom (P : Platform) (opts : IEditorOption.t) (innerWidth : JS.number)
    (i : nat) (refs : list loc) (st : layout) : bool :=
  match refs with
  | [] => false
  | r :: refs' =>
      stepShrinks innerWidth r st
      || match layoutStep P opts innerWidth i r st with
         | Some st' => shrinksFrom P opts innerWidth (S i) refs' st'
         | None => false
         end
  end.

(** The layout pass on [d] shrinks some image. *)
Definition layoutShrinks (P : Platform) (d : Draw.t) : bool :=
  shrinksFrom P (Draw.options d) (innerWidthOf P d) 0 (Draw.elementList d)
              (mkLayout (Draw.objs d) (Draw.ctxFont d) (initialRows d)).

(** The loop state [_computeRowList] starts from on [d]. *)
Definition layoutStart (d : Draw.t) : layout :=
  mkLayout (Draw.objs d) (Draw.ctxFont d) (initialRows d).

Module Sample4.
(** An image of 150 by 30 alone on a page 100 wide. *)
Definition lone : Draw.t :=
Sample.draw Sample.noMargins 100 [Sample.image (JS.of_Z 150) (JS.of_Z 30)] 0 0.
End Sample4.
(** * Properties *)

(** ** The layout loop *)

Lemma insert_last {A} (rs : list A) (x y : A) :
  <[pred (length (rs ++ [x])) := y]> (rs ++ [x]) = rs ++ [y].
Proof.
  induction rs as [|a rs IH]; [reflexivity|].
  simpl in *. destruct (rs ++ [x]) eqn:E.
  - destruct rs; discriminate.
  - simpl in *. f_equal. exact IH.
Qed.

Lemma nonempty_snoc {A} (l : list A) :
  l <> [] -> exists rs x, l = rs ++ [x].
Proof.
  induction l as [|a l IH]; [congruence|]. intros _.
  destruct l as [|b l].
  - exists [], a. reflexivity.
  - destruct IH as (rs & x & E); [congruence|].
    exists (a :: rs), x. rewrite E. reflexivity.
Qed.

Section LayoutFacts.

Variable P : Platform.
Variable opts : IEditorOption.t.
Variable innerWidth : JS.number.

Lemma layoutStep_eq i r st rs cur e :
  l_rows st = rs ++ [cur] ->
  l_objs st !! r = Some e ->
  layoutStep P opts innerWidth i r st = Some (stepResult P opts innerWidth i r e rs cur st).
Proof.
  intros Hrows Hobj. unfold layoutStep, stepResult.
  rewrite Hrows, last_snoc. simpl. rewrite Hobj. simpl.
  destruct (buildRowElement P opts innerWidth cur r e st) as [[re objs'] font'].
  destruct (breaksRow P innerWidth i cur re).
  - rewrite <- app_assoc. reflexivity.
  - rewrite insert_last. reflexivity.
Qed.

Lemma buildRowElement_length cur r e st :
  length (snd (fst (buildRowElement P opts innerWidth cur r e st))) = length (l_objs st).
Proof.
  unfold buildRowElement.
  destruct (IElement.isImage e); simpl; [|reflexivity].
  destruct (imageOverflows innerWidth cur e); [apply length_insert|reflexivity].
Qed.

Lemma stepResult_length i r e rs cur st :
  length (l_objs (stepResult P opts innerWidth i r e rs cur st)) = length (l_objs st).
Proof.
  unfold stepResult.
  pose proof (buildRowElement_length cur r e st) as H.
  destruct (buildRowElement P opts innerWidth cur r e st) as [[re objs'] font']. exact H.
Qed.

Lemma stepResult_rows_nonempty i r e rs cur st :
  l_rows (stepResult P opts innerWidth i r e rs cur st) <> [].
Proof.
  unfold stepResult.
  destruct (buildRowElement P opts innerWidth cur r e st) as [[re objs'] font']. simpl.
  destruct (breaksRow P innerWidth i cur re); intros H; apply app_eq_nil in H; destruct H; discriminate.
Qed.

(** The loop rule: the loop ends, keeps the size of the store and
    establishes every invariant, of the references gone through and the
    loop state, that its iterations preserve. *)
Lemma layoutFrom_rule (Q : list loc -> layout -> Prop) (refs : list loc) :
  forall (done : list loc) (i : nat) (st : layout),
    Forall (fun r => r < length (l_objs st)) refs ->
    (l_rows st <> [] \/ refs = []) ->
    Q done st ->
    (forall done1 k r st1 rs cur e,
        Q done1 st1 -> l_rows st1 = rs ++ [cur] -> l_objs st1 !! r = Some e ->
        Q (done1 ++ [r]) (stepResult P opts innerWidth k r e rs cur st1)) ->
    exists st', layoutFrom P opts innerWidth i refs st = Some st'
                /\ Q (done ++ refs) st'
                /\ length (l_objs st') = length (l_objs st).
Proof.
  induction refs as [|r refs IH]; intros done i st Hwf Hne HQ Hstep.
  - exists st. simpl. rewrite app_nil_r. auto.
  - destruct Hne as [Hne|Hne]; [|discriminate].
    destruct (nonempty_snoc _ Hne) as (rs & cur & Hrows).
    inversion Hwf as [|? ? Hr Hwf']; subst.
    destruct (lookup_lt_is_Some_2 _ _ Hr) as [e He].
    simpl. rewrite (layoutStep_eq i r st rs cur e Hrows He). simpl.
    destruct (IH (done ++ [r]) (S i) (stepResult P opts innerWidth i r e rs cur st))
      as (st' & Hrun & HQ' & Hlen).
    + rewrite stepResult_length. exact Hwf'.
    + left. apply stepResult_rows_nonempty.
    + eapply Hstep; eauto.
    + exact Hstep.
    + exists st'. split; [exact Hrun|]. split.
      * rewrite <- app_assoc in HQ'. exact HQ'.
      * rewrite Hlen. apply stepResult_length.
Qed.

End LayoutFacts.

Lemma wf_initial d :
  Draw.elementList d <> [] -> initialRows d <> [].
Proof. unfold initialRows. destruct (Draw.elementList d); congruence. Qed.

(** ** Comparisons of doubles *)

Lemma SFcompare_antisym (x y : spec_float) :
  SFcompare y x = option_map CompOpp (SFcompare x y).
Proof.
  destruct x as [sx|sx| |sx mx ex], y as [sy|sy| |sy my ey]; simpl;
    try reflexivity;
    try (destruct sx; reflexivity); try (destruct sy; reflexivity);
    try (destruct sx, sy; reflexivity).
  destruct sx, sy; simpl; try reflexivity;
    rewrite (Z.compare_antisym ex ey);
    destruct (ex ?= ey)%Z; simpl; try reflexivity;
    change (Pos.compare_cont Eq my mx) with (Pos.compare my mx);
    change (Pos.compare_cont Eq mx my) with (Pos.compare mx my);
    rewrite (Pos.compare_antisym mx my); destruct (mx ?= my)%positive; reflexivity.
Qed.

Lemma SFcompare_defined (x y : spec_float) :
  JS.isNaN x = false -> JS.isNaN y = false -> exists c, SFcompare x y = Some c.
Proof.
  destruct x, y; simpl; intros; try discriminate; eexists; reflexivity.
Qed.

(** Between two numbers, "not greater" is "less or equal". *)
Lemma not_gt_le (x y : JS.number) :
  JS.isNaN x = false -> JS.isNaN y = false -> JS.gt x y = false -> JS.le x y = true.
Proof.
  intros Hx Hy. unfold JS.gt, JS.le, SFltb, SFleb.
  rewrite (SFcompare_antisym x y).
  destruct (SFcompare_defined x y Hx Hy) as [c ->].
  destruct c; simpl; congruence.
Qed.

Lemma le_or_gt (x y : JS.number) :
  JS.isNaN x = false -> JS.isNaN y = false -> JS.le x y = true \/ JS.gt x y = true.
Proof.
  intros Hx Hy. destruct (JS.gt x y) eqn:E; [right; reflexivity|left].
  apply not_gt_le; assumption.
Qed.

(** ** Width containment *)

Lemma rowFits_step P opts iw i r e rs cur st :
  Forall (rowFits iw) (rs ++ [cur]) ->
  Forall (rowFits iw) (l_rows (stepResult P opts iw i r e rs cur st)).
Proof.
  intros H. apply Forall_app in H. destruct H as [Hrs Hcur].
  unfold stepResult.
  destruct (buildRowElement P opts iw cur r e st) as [[re objs'] font']. simpl.
  destruct (breaksRow P iw i cur re) eqn:Hb; apply Forall_app; split; try exact Hrs.
  - inversion Hcur; subst. constructor; [assumption|]. constructor; [|constructor].
    right; left. exists re. split; reflexivity.
  - constructor; [|constructor]. right; right. split.
    + simpl. intros E. apply app_eq_nil in E. destruct E; discriminate.
    + unfold breaksRow in Hb. apply orb_false_iff in Hb. destruct Hb as [Hb _].
      exact Hb.
Qed.

Lemma computeRowList_rowFits (P : Platform) (d : Draw.t) :
  wf d ->
  exists d', _computeRowList P d = Some d'
             /\ Forall (rowFits (innerWidthOf P d)) (Draw.rowList d').
Proof.
  intros Hwf. unfold _computeRowList.
  destruct (layoutFrom_rule P (Draw.options d) (innerWidthOf P d)
              (fun _ st => Forall (rowFits (innerWidthOf P d)) (l_rows st))
              (Draw.elementList d) [] 0
              (mkLayout (Draw.objs d) (Draw.ctxFont d) (initialRows d)))
    as (st' & Hrun & HQ & _).
  - exact Hwf.
  - simpl. destruct (Draw.elementList d) eqn:E; [right; reflexivity|left].
    apply wf_initial. rewrite E. discriminate.
  - simpl. unfold initialRows. destruct (Draw.elementList d); constructor; [|constructor].
    left. split; reflexivity.
  - intros done1 k r st1 rs cur e HQ Hrows _. apply rowFits_step. rewrite <- Hrows. exact HQ.
  - rewrite Hrun. simpl. eexists. split; [reflexivity|]. exact HQ.
Qed.

(** C5, as the specification words it, fails on a canvas narrower than
    its margins: the available width is -20, the single glyph of width 10
    opens a second row, and the leading row stays without elements, 0
    wide, which is more than -20. It also fails when a width is not a
    number: an image whose [width] is absent makes its row NaN wide, and
    NaN is not less than or equal to 100. *)
Lemma width_containment_fails_when_negative :
  innerWidthOf Sample.host Sample.hidden = JS.of_Z (-20)
  /\ (Sample.summary <$> (Draw.rowList <$> _computeRowList Sample.host Sample.hidden))
     = Some [(JS.of_Z 0, []); (JS.of_Z 10, ["A"])]
  /\ ~ widthContainment Sample.host Sample.hidden
  /\ (Sample.summary <$> (Draw.rowList <$> _computeRowList Sample.host Sample.unsized))
     = Some [(JS.NaN, [""])]
  /\ ~ widthContainment Sample.host Sample.unsized.
Proof.
  split; [vm_compute; reflexivity|]. split; [vm_compute; reflexivity|].
  split; [|split; [vm_compute; reflexivity|]].
  - intros H. unfold widthContainment in H.
    destruct (_computeRowList Sample.host Sample.hidden) as [d'|] eqn:E;
      [|vm_compute in E; discriminate].
    specialize (H d' eq_refl).
    vm_compute in E. inversion E; subst; clear E.
    inversion H as [|? ? H0 _]; subst.
    vm_compute in H0. destruct H0 as [H0|[H0|H0]]; discriminate.
  - intros H. unfold widthContainment in H.
    destruct (_computeRowList Sample.host Sample.unsized) as [d'|] eqn:E;
      [|vm_compute in E; discriminate].
    specialize (H d' eq_refl).
    vm_compute in E. inversion E; subst; clear E.
    inversion H as [|? ? H0 _]; subst.
    vm_compute in H0. destruct H0 as [H0|[H0|H0]]; discriminate.
Qed.

(** ** Row break policy *)



(** ** The layout pass as a whole *)

(** The loop rule, for [_computeRowList]. *)
Lemma computeRowList_rule (P : Platform) (d : Draw.t) (Q : list loc -> layout -> Prop) :
  wf d ->
  Q [] (mkLayout (Draw.objs d) (Draw.ctxFont d) (initialRows d)) ->
  (forall done1 k r st1 rs cur e,
      Q done1 st1 -> l_rows st1 = rs ++ [cur] -> l_objs st1 !! r = Some e ->
      Q (done1 ++ [r])
        (stepResult P (Draw.options d) (innerWidthOf P d) k r e rs cur st1)) ->
  exists st',
    _computeRowList P d
    = Some (Draw.set_rowList (l_rows st') (Draw.set_objs (l_objs st') d))
    /\ Q (Draw.elementList d) st'
    /\ length (l_objs st') = length (Draw.objs d).
Proof.
  intros Hwf H0 Hstep. unfold _computeRowList.
  destruct (layoutFrom_rule P (Draw.options d) (innerWidthOf P d) Q
              (Draw.elementList d) [] 0
              (mkLayout (Draw.objs d) (Draw.ctxFont d) (initialRows d)))
    as (st' & Hrun & HQ & Hlen); try assumption.
  - simpl. destruct (Draw.elementList d) eqn:E; [right; reflexivity|left].
    apply wf_initial. rewrite E. discriminate.
  - exists st'. rewrite Hrun. simpl. auto.
Qed.

(** ** Row-flex *)

Lemma flex_step P opts iw f i r e rs cur st :
  (exists r0 rest, rs ++ [cur] = r0 :: rest
                   /\ IRow.rowFlex r0 = f /\ Forall flexOfOwnFirst rest) ->
  exists r0 rest, l_rows (stepResult P opts iw i r e rs cur st) = r0 :: rest
                  /\ IRow.rowFlex r0 = f /\ Forall flexOfOwnFirst rest.
Proof.
  intros (r0 & rest & Hrows & Hf & Hrest).
  assert (Hnew : forall re, flexOfOwnFirst (newRow opts re))
    by (intros re; exists re, []; split; reflexivity).
  unfold stepResult.
  destruct (buildRowElement P opts iw cur r e st) as [[re objs'] font']. simpl.
  destruct rs as [|a rs]; simpl in Hrows; inversion Hrows; subst; clear Hrows.
  - destruct (breaksRow P iw i r0 re); simpl.
    + exists r0, [newRow opts re]. repeat split; auto.
    + exists (growRow opts r0 re), []. repeat split; auto.
  - apply Forall_app in Hrest. destruct Hrest as [Hrs Hcur].
    inversion Hcur as [|? ? Hc _]; subst.
    destruct (breaksRow P iw i cur re); simpl.
    + exists r0, (rs ++ [cur; newRow opts re]). repeat split; auto.
      apply Forall_app. split; [exact Hrs|]. repeat constructor; auto.
    + exists r0, (rs ++ [growRow opts cur re]). repeat split; auto.
      apply Forall_app. split; [exact Hrs|]. constructor; [|constructor].
      destruct Hc as (e0 & tl & He & Hfl). exists e0, (tl ++ [re]). simpl.
      rewrite He. split; [reflexivity|exact Hfl].
Qed.

(** C8, as the code has it. The layout pass returns, and when the
    sequence is not empty, the first row has the row-flex of
    [elementList[1]], read when the row is created and whatever the row
    comes to hold, while every later row has the row-flex of its own first
    member, the element that opened it. *)
Theorem rowFlex_first_row_from_second_element (P : Platform) (d : Draw.t) :
  wf d ->
  Draw.elementList d <> [] ->
  exists d' r0 rest,
    _computeRowList P d = Some d'
    /\ Draw.rowList d' = r0 :: rest
    /\ IRow.rowFlex r0 = secondFlex d
    /\ Forall flexOfOwnFirst rest.
Proof.
  intros Hwf Hne.
  destruct (computeRowList_rule P d
              (fun _ st => exists r0 rest, l_rows st = r0 :: rest
                                           /\ IRow.rowFlex r0 = secondFlex d
                                           /\ Forall flexOfOwnFirst rest))
    as (st' & Hrun & (r0 & rest & Hrows & Hf & Hrest) & _).
  - exact Hwf.
  - simpl. unfold initialRows. destruct (Draw.elementList d) eqn:E; [congruence|].
    exists (firstRow d), []. repeat split; auto.
  - intros done1 k r st1 rs cur e HQ Hrows _. apply flex_step. rewrite <- Hrows. exact HQ.
  - eexists _, r0, rest. split; [exact Hrun|]. simpl. auto.
Qed.

Lemma rowFlex_first_row_from_second_element_witness :
  wf Sample.flexes /\ Draw.elementList Sample.flexes <> [] /\
  exists d' r0 rest,
    _computeRowList Sample.host Sample.flexes = Some d'
    /\ Draw.rowList d' = r0 :: rest
    /\ IRow.rowFlex r0 = secondFlex Sample.flexes
    /\ Forall flexOfOwnFirst rest.
Proof.
  assert (H : wf Sample.flexes) by (unfold wf; simpl; repeat constructor).
  assert (H' : Draw.elementList Sample.flexes <> []) by (simpl; discriminate).
  split; [exact H|]. split; [exact H'|].
  exact (rowFlex_first_row_from_second_element Sample.host Sample.flexes H H').
Defined.

(** C8, as the specification words it, fails: of three glyphs aligned
    left, centre and right and laid out one a row, the third row is
    aligned right, as its own first member is, and not centred as
    [elementList[1]] is. *)
Lemma rowFlex_not_always_from_second_element :
  (map IRow.rowFlex <$> (Draw.rowList <$> _computeRowList Sample.host Sample.flexes))
  = Some [Some CENTER; Some CENTER; Some RIGHT]
  /\ secondFlex Sample.flexes = Some CENTER
  /\ ~ flexFromSecond Sample.host Sample.flexes.
Proof.
  split; [vm_compute; reflexivity|]. split; [reflexivity|].
  intros H. unfold flexFromSecond in H.
  destruct (_computeRowList Sample.host Sample.flexes) as [d'|] eqn:E;
    [|vm_compute in E; discriminate].
  specialize (H d' eq_refl).
  vm_compute in E. inversion E; subst; clear E.
  inversion H as [|? ? _ H1]; subst.
  inversion H1 as [|? ? _ H2]; subst.
  inversion H2 as [|? ? H3 _]; subst.
  vm_compute in H3. discriminate.
Qed.

(** ** Images that overflow the row *)

Lemma sameButSize_refl e : sameButSize e e.
Proof. reflexivity. Qed.

Lemma sameButSize_trans e1 e2 e3 :
  sameButSize e1 e2 -> sameButSize e2 e3 -> sameButSize e1 e3.
Proof. unfold sameButSize. congruence. Qed.

Lemma sameButSize_fitImage iw cur e : sameButSize e (fitImage iw cur e).
Proof. unfold fitImage. destruct (imageOverflows iw cur e); reflexivity. Qed.

Lemma buildRowElement_image P opts iw cur r e st :
  IElement.isImage e = true ->
  buildRowElement P opts iw cur r e st
  = (IRowElement.mk (fitImage iw cur e) (imageMetrics e (fitImage iw cur e)) (l_font st),
     if imageOverflows iw cur e then <[r := fitImage iw cur e]> (l_objs st) else l_objs st,
     l_font st).
Proof. intros H. unfold buildRowElement. rewrite H. reflexivity. Qed.

Lemma buildRowElement_text P opts iw cur r e st :
  IElement.isImage e = false ->
  snd (fst (buildRowElement P opts iw cur r e st)) = l_objs st.
Proof. intros H. unfold buildRowElement. rewrite H. reflexivity. Qed.

(** What an iteration does to the store: the object of the element it
    lays out may change in [width] and [height], if it is an image. *)
Lemma stepResult_objs P opts iw i (r : loc) e rs cur st (l : loc) x :
  l_objs st !! r = Some e ->
  l_objs st !! l = Some x ->
  exists x', l_objs (stepResult P opts iw i r e rs cur st) !! l = Some x'
             /\ sameButSize x x'
             /\ (IElement.isImage x = false -> x' = x).
Proof.
  intros Hr Hl. unfold stepResult.
  destruct (IElement.isImage e) eqn:Himg.
  - rewrite (buildRowElement_image P opts iw cur r e st Himg). simpl.
    destruct (imageOverflows iw cur e); simpl.
    + destruct (decide (r = l)) as [E|Hne].
      * subst l. rewrite Hr in Hl. inversion Hl; subst x.
        exists (fitImage iw cur e). split.
        -- apply list_lookup_insert_eq. eapply lookup_lt_Some; eassumption.
        -- split; [apply sameButSize_fitImage|congruence].
      * exists x. rewrite list_lookup_insert_ne by exact Hne.
        split; [exact Hl|]. split; [apply sameButSize_refl|reflexivity].
    + exists x. split; [exact Hl|]. split; [apply sameButSize_refl|reflexivity].
  - pose proof (buildRowElement_text P opts iw cur r e st Himg) as Ht.
    destruct (buildRowElement P opts iw cur r e st) as [[re objs'] font'].
    simpl in *. subst objs'.
    exists x. split; [exact Hl|]. split; [apply sameButSize_refl|reflexivity].
Qed.

Lemma buildRowElement_sameButSize P opts iw cur r e st :
  sameButSize e (IRowElement.element (fst (fst (buildRowElement P opts iw cur r e st)))).
Proof.
  unfold buildRowElement. destruct (IElement.isImage e); simpl;
    [apply sameButSize_fitImage|apply sameButSize_refl].
Qed.

(** ** Row completeness *)

Lemma rowElements_app rows1 rows2 :
  rowElements (rows1 ++ rows2) = rowElements rows1 ++ rowElements rows2.
Proof. unfold rowElements. rewrite map_app, concat_app. reflexivity. Qed.

Lemma placed_rowElements rows : placed rows = length (rowElements rows).
Proof.
  unfold placed, rowElements. induction rows as [|r rows IH]; [reflexivity|].
  simpl. rewrite length_app, IH. reflexivity.
Qed.

(** An iteration adds its row element, once, after those there are. *)
Lemma rowElements_step P opts iw i r e rs cur st :
  rowElements (l_rows (stepResult P opts iw i r e rs cur st))
  = rowElements (rs ++ [cur]) ++ [fst (fst (buildRowElement P opts iw cur r e st))].
Proof.
  unfold stepResult.
  destruct (buildRowElement P opts iw cur r e st) as [[re objs'] font']. simpl.
  destruct (breaksRow P iw i cur re); rewrite !rowElements_app; unfold rowElements; simpl;
    rewrite ?app_nil_r, <- ?app_assoc; reflexivity.
Qed.

(** C6. For every element sequence whose references are valid, the
    layout pass returns, and the row elements of its rows, read row after
    row, are the copies of the elements of the sequence, one for one and
    in order: every element is on exactly one row, and the lengths of the
    rows add up to the length of the sequence. An empty sequence yields
    an empty row list. *)
Theorem computeRowList_complete (P : Platform) (d : Draw.t) :
  wf d ->
  exists d', _computeRowList P d = Some d'
             /\ Forall2 (copyOf (Draw.objs d)) (Draw.elementList d)
                        (rowElements (Draw.rowList d'))
             /\ placed (Draw.rowList d') = length (Draw.elementList d)
             /\ (Draw.elementList d = [] -> Draw.rowList d' = []).
Proof.
  intros Hwf.
  destruct (computeRowList_rule P d
              (fun done st =>
                 Forall2 (copyOf (Draw.objs d)) done (rowElements (l_rows st))
                 /\ length (l_objs st) = length (Draw.objs d)
                 /\ (forall l x, Draw.objs d !! l = Some x ->
                       exists x', l_objs st !! l = Some x' /\ sameButSize x x')
                 /\ (done = [] -> l_rows st = initialRows d)))
    as (st' & Hrun & (Hall & _ & _ & Hnil) & _).
  - exact Hwf.
  - simpl. split; [|split; [reflexivity|split; [|reflexivity]]].
    + unfold initialRows. destruct (Draw.elementList d); constructor.
    + intros l x Hl. exists x. split; [exact Hl|apply sameButSize_refl].
  - intros done1 k r st1 rs cur e (Hall & Hlen & Hframe & _) Hrows Hr.
    split; [|split; [|split]].
    + rewrite rowElements_step, <- Hrows. apply Forall2_app; [exact Hall|].
      constructor; [|constructor].
      destruct (lookup_lt_is_Some_2 (Draw.objs d) r) as [e0 He0].
      { rewrite <- Hlen. eapply lookup_lt_Some. exact Hr. }
      destruct (Hframe r e0 He0) as (x' & Hx' & Hs).
      rewrite Hr in Hx'. inversion Hx'; subst x'.
      exists e0. split; [exact He0|].
      eapply sameButSize_trans; [exact Hs|apply buildRowElement_sameButSize].
    + rewrite stepResult_length. exact Hlen.
    + intros l x Hl. destruct (Hframe l x Hl) as (x1 & Hl1 & Hs1).
      destruct (stepResult_objs P (Draw.options d) (innerWidthOf P d) k r e rs cur st1
                  l x1 Hr Hl1) as (x2 & Hl2 & Hs2 & _).
      exists x2. split; [exact Hl2|]. eapply sameButSize_trans; eassumption.
    + intros E. apply app_eq_nil in E. destruct E; discriminate.
  - eexists. split; [exact Hrun|]. simpl. split; [exact Hall|]. split.
    + rewrite placed_rowElements. symmetry. eapply Forall2_length. exact Hall.
    + intros E. rewrite (Hnil E). unfold initialRows. rewrite E. reflexivity.
Qed.

Lemma computeRowList_complete_witness :
  wf Sample.abc /\
  exists d', _computeRowList Sample.host Sample.abc = Some d'
             /\ Forall2 (copyOf (Draw.objs Sample.abc)) (Draw.elementList Sample.abc)
                        (rowElements (Draw.rowList d'))
             /\ placed (Draw.rowList d') = length (Draw.elementList Sample.abc)
             /\ (Draw.elementList Sample.abc = [] -> Draw.rowList d' = []).
Proof.
  assert (H : wf Sample.abc) by (unfold wf; simpl; repeat constructor).
  split; [exact H|]. exact (computeRowList_complete Sample.host Sample.abc H).
Defined.

(** ** The layout pass and the store *)

(** An iteration writes to no object but the one it lays out. *)
Lemma stepResult_other P opts iw i (r : loc) e rs cur st (l : loc) :
  l <> r ->
  l_objs (stepResult P opts iw i r e rs cur st) !! l = l_objs st !! l.
Proof.
  intros Hne. unfold stepResult, buildRowElement.
  destruct (IElement.isImage e); simpl; [|reflexivity].
  destruct (imageOverflows iw cur e); simpl; [|reflexivity].
  apply list_lookup_insert_ne. congruence.
Qed.

(** The frame of the layout pass. *)
Lemma computeRowList_frame (P : Platform) (d : Draw.t) :
  wf d ->
  exists d', _computeRowList P d = Some d'
    /\ d' = Draw.set_rowList (Draw.rowList d') (Draw.set_objs (Draw.objs d') d)
    /\ length (Draw.objs d') = length (Draw.objs d)
    /\ (forall l x, Draw.objs d !! l = Some x ->
          exists x', Draw.objs d' !! l = Some x'
                     /\ sameButSize x x'
                     /\ (IElement.isImage x = false -> x' = x))
    /\ (forall l, ~ In l (Draw.elementList d) -> Draw.objs d' !! l = Draw.objs d !! l).
Proof.
  intros Hwf.
  destruct (computeRowList_rule P d
              (fun done st =>
                 (forall l x, Draw.objs d !! l = Some x ->
                    exists x', l_objs st !! l = Some x'
                               /\ sameButSize x x'
                               /\ (IElement.isImage x = false -> x' = x))
                 /\ (forall l, ~ In l done -> l_objs st !! l = Draw.objs d !! l)))
    as (st' & Hrun & (Hframe & Hother) & Hlen).
  - exact Hwf.
  - simpl. split; [|reflexivity]. intros l x Hl. exists x. split; [exact Hl|].
    split; [apply sameButSize_refl|reflexivity].
  - intros done1 k r st1 rs cur e [HQ Hother] Hrows Hr. split.
    + intros l x Hl.
      destruct (HQ l x Hl) as (x1 & Hl1 & Hs1 & Hi1).
      destruct (stepResult_objs P (Draw.options d) (innerWidthOf P d) k r e rs cur st1
                  l x1 Hr Hl1) as (x2 & Hl2 & Hs2 & Hi2).
      exists x2. split; [exact Hl2|]. split.
      * eapply sameButSize_trans; eassumption.
      * intros Hx. rewrite <- (Hi1 Hx). apply Hi2. rewrite (Hi1 Hx). exact Hx.
    + intros l Hl. rewrite stepResult_other.
      * apply Hother. intros Hin. apply Hl. apply in_or_app. left. exact Hin.
      * intros ->. apply Hl. apply in_or_app. right. left. reflexivity.
  - eexists. split; [exact Hrun|]. simpl. split; [reflexivity|].
    split; [exact Hlen|]. split; [exact Hframe|exact Hother].
Qed.

(** C3, as the code has it. When an image makes the current row overflow,
    the iteration writes the remaining row space to the image's [width]
    and then [(height * width) / width], computed in doubles with the new
    width, to its [height]; the other fields stay. An image of 100 by 30
    with 40 remaining ends up 40 by 30. *)
Theorem image_overflow_shrinks_to_surplus :
  (forall P opts iw i (r : loc) st rs cur e,
     l_rows st = rs ++ [cur] ->
     l_objs st !! r = Some e ->
     IElement.isImage e = true ->
     JS.gt (JS.add (IRow.width cur) (JS.num (IElement.width e))) iw = true ->
     exists st' e',
       layoutStep P opts iw i r st = Some st'
       /\ l_objs st' !! r = Some e'
       /\ let surplusWidth := JS.sub iw (IRow.width cur) in
          IElement.width e' = Some surplusWidth
          /\ IElement.height e'
             = Some (JS.div (JS.mul (JS.num (IElement.height e)) surplusWidth) surplusWidth)
          /\ sameButSize e e')
  /\ (d1 ← _computeRowList Sample.host Sample.overflow;
      e ← Draw.objs d1 !! 1; Some (IElement.width e, IElement.height e))
     = Some (Some (JS.of_Z 40), Some (JS.of_Z 30)).
Proof.
  split; [|vm_compute; reflexivity].
  intros P opts iw i r st rs cur e Hrows Hr Himg Hover.
  exists (stepResult P opts iw i r e rs cur st), (shrink iw cur e).
  split; [apply layoutStep_eq; assumption|].
  unfold stepResult. rewrite (buildRowElement_image P opts iw cur r e st Himg).
  unfold fitImage, imageOverflows. rewrite Hover. simpl.
  split; [apply list_lookup_insert_eq; eapply lookup_lt_Some; eassumption|].
  repeat split.
Qed.

Lemma image_overflow_shrinks_to_surplus_witness :
  l_rows Sample.overflowState = [] ++ [Sample.overflowRow]
  /\ l_objs Sample.overflowState !! 1 = Some (Sample.image (JS.of_Z 100) (JS.of_Z 30))
  /\ exists st' e',
       layoutStep Sample.host Sample.noMargins (JS.of_Z 100) 1 1 Sample.overflowState
       = Some st'
       /\ l_objs st' !! 1 = Some e'
       /\ IElement.width e' = Some (JS.of_Z 40)
       /\ IElement.height e' = Some (JS.of_Z 30).
Proof.
  split; [reflexivity|]. split; [reflexivity|].
  destruct (proj1 image_overflow_shrinks_to_surplus Sample.host Sample.noMargins
              (JS.of_Z 100) 1 1 Sample.overflowState [] Sample.overflowRow
              (Sample.image (JS.of_Z 100) (JS.of_Z 30)) eq_refl eq_refl eq_refl eq_refl)
    as (st' & e' & Hrun & Hl & Hw & Hh & _).
  exists st', e'. split; [exact Hrun|]. split; [exact Hl|].
  split; [rewrite Hw|rewrite Hh]; vm_compute; reflexivity.
Defined.

(** C3, as the specification words it, fails: the height is not always
    left as it was. With 90.1 remaining an image 3 high comes out
    2.9999999999999996 high (3 * 90.1 is rounded, and so is the quotient),
    and with nothing remaining an image 30 high comes out NaN high. *)
Lemma image_overflow_changes_height :
  (d1 ← _computeRowList Sample.tenths Sample.fraction;
   e ← Draw.objs d1 !! 1; Some (IElement.width e, IElement.height e))
  = Some (Some (JS.div (JS.of_Z 901) (JS.of_Z 10)),
          Some (S754_finite false 6755399441055743 (-51)))
  /\ JS.of_Z 3 = S754_finite false 6755399441055744 (-51)
  /\ ~ layoutKeepsHeights Sample.tenths Sample.fraction
  /\ (d1 ← _computeRowList Sample.host Sample.full;
      e ← Draw.objs d1 !! 1; Some (IElement.width e, IElement.height e))
     = Some (Some (JS.of_Z 0), Some JS.NaN)
  /\ ~ layoutKeepsHeights Sample.host Sample.full.
Proof.
  split; [vm_compute; reflexivity|]. split; [vm_compute; reflexivity|].
  split; [|split; [vm_compute; reflexivity|]].
  - intros H.
    destruct (_computeRowList Sample.tenths Sample.fraction) as [d'|] eqn:E;
      [|vm_compute in E; discriminate].
    specialize (H d' 1 (Sample.image (JS.of_Z 100) (JS.of_Z 3))).
    vm_compute in E. inversion E; subst; clear E.
    specialize (H _ eq_refl eq_refl eq_refl). vm_compute in H. discriminate.
  - intros H.
    destruct (_computeRowList Sample.host Sample.full) as [d'|] eqn:E;
      [|vm_compute in E; discriminate].
    specialize (H d' 1 (Sample.image (JS.of_Z 50) (JS.of_Z 30))).
    vm_compute in E. inversion E; subst; clear E.
    specialize (H _ eq_refl eq_refl eq_refl). vm_compute in H. discriminate.
Qed.

(** ** An image on a row that is already full *)

Lemma gt_add_self_finite (x w : JS.number) :
  JS.gt (JS.add x w) x = true ->
  (exists s, x = S754_zero s) \/ (exists s m e, x = S754_finite s m e).
Proof.
  destruct x as [s|s| |s m e]; [left; eauto| | |right; eauto].
  - destruct w as [sw|sw| |sw mw ew], s; try destruct sw; simpl; discriminate.
  - discriminate.
Qed.

Lemma sub_self (x : JS.number) :
  (exists s, x = S754_zero s) \/ (exists s m e, x = S754_finite s m e) ->
  JS.sub x x = JS.of_Z 0.
Proof.
  intros [[s ->]|(s & m & e & ->)].
  - destruct s; reflexivity.
  - unfold JS.sub, SFsub. rewrite Z.sub_diag. reflexivity.
Qed.

Lemma add_zero_not_gt (x : JS.number) :
  (exists s, x = S754_zero s) \/ (exists s m e, x = S754_finite s m e) ->
  JS.gt (JS.add x (JS.of_Z 0)) x = false.
Proof.
  intros [[s ->]|(s & m & e & ->)].
  - destruct s; reflexivity.
  - unfold JS.gt, SFltb. simpl.
    destruct s; rewrite Z.compare_refl;
      change (Pos.compare_cont Eq m m) with (Pos.compare m m);
      rewrite Pos.compare_refl; reflexivity.
Qed.

Lemma mul_zero_div_zero (h : JS.number) :
  JS.div (JS.mul h (JS.of_Z 0)) (JS.of_Z 0) = JS.NaN.
Proof. destruct h as [s|s| |s m e]; reflexivity. Qed.

Lemma add_NaN_r (x : JS.number) : JS.add x JS.NaN = JS.NaN.
Proof. destruct x; reflexivity. Qed.

Lemma lt_NaN_r (x : JS.number) : JS.lt x JS.NaN = false.
Proof. destruct x; reflexivity. Qed.

(** C10, as the code has it. When an image is laid out on a row whose
    width is exactly the available width and overflows it, the iteration
    writes 0 to the image's [width] and NaN, the value of
    [height * 0 / 0], to its [height]. The row element it builds is 0
    wide, with the height the image had on entry as [metrics.height] and
    NaN as [metrics.boundingBoxDescent]. The NaN reaches a row's height
    only when the image opens a new row (its value is the line-break
    marker and it is not the first element); when it joins the current
    row, as it otherwise does, the test [curRow.height < NaN] is false
    and the row keeps its height and its ascent. *)
Theorem image_on_full_row_gets_NaN_height :
  (forall P opts i (r : loc) st rs cur e,
     l_rows st = rs ++ [cur] ->
     l_objs st !! r = Some e ->
     IElement.isImage e = true ->
     JS.gt (JS.add (IRow.width cur) (JS.num (IElement.width e))) (IRow.width cur) = true ->
     exists st' e' re row,
       layoutStep P opts (IRow.width cur) i r st = Some st'
       /\ l_objs st' !! r = Some e'
       /\ IElement.width e' = Some (JS.of_Z 0)
       /\ IElement.height e' = Some JS.NaN
       /\ IRowElement.element re = e'
       /\ IElementMetrics.width (IRowElement.metrics re) = JS.of_Z 0
       /\ IElementMetrics.height (IRowElement.metrics re) = JS.num (IElement.height e)
       /\ IElementMetrics.boundingBoxDescent (IRowElement.metrics re) = JS.NaN
       /\ if negb (Nat.eqb i 0) && String.eqb (IElement.value e) (ZERO P)
          then l_rows st' = rs ++ [cur; row]
               /\ IRow.elementList row = [re]
               /\ IRow.height row = JS.NaN
          else l_rows st' = rs ++ [row]
               /\ IRow.elementList row = IRow.elementList cur ++ [re]
               /\ IRow.height row = IRow.height cur
               /\ IRow.ascent row = IRow.ascent cur)
  /\ (d1 ← _computeRowList Sample.host Sample.full;
      e ← Draw.objs d1 !! 1;
      Some (IElement.width e, IElement.height e, map IRow.height (Draw.rowList d1)))
     = Some (Some (JS.of_Z 0), Some JS.NaN, [JS.of_Z 10]).
Proof.
  split; [|vm_compute; reflexivity].
  intros P opts i r st rs cur e Hrows Hr Himg Hover.
  pose proof (gt_add_self_finite _ _ Hover) as Hfin.
  set (e' := shrink (IRow.width cur) cur e).
  set (re := IRowElement.mk e' (imageMetrics e e') (l_font st)).
  assert (Hw : IElement.width e' = Some (JS.of_Z 0)).
  { unfold e', shrink. simpl. rewrite (sub_self _ Hfin). reflexivity. }
  assert (Hh : IElement.height e' = Some JS.NaN).
  { unfold e', shrink. simpl. rewrite (sub_self _ Hfin), mul_zero_div_zero. reflexivity. }
  assert (Hhe : heightOf opts re = JS.NaN).
  { unfold heightOf, descentOf, re. simpl.
    rewrite (sub_self _ Hfin), mul_zero_div_zero. simpl. apply add_NaN_r. }
  assert (Hstep : stepResult P opts (IRow.width cur) i r e rs cur st
                  = mkLayout (<[r := e']> (l_objs st)) (l_font st)
                      (if breaksRow P (IRow.width cur) i cur re
                       then rs ++ [cur; newRow opts re]
                       else rs ++ [growRow opts cur re])).
  { unfold stepResult. rewrite (buildRowElement_image P opts _ cur r e st Himg).
    unfold fitImage, imageOverflows. rewrite Hover. reflexivity. }
  assert (Hb : breaksRow P (IRow.width cur) i cur re
               = negb (Nat.eqb i 0) && String.eqb (IElement.value e) (ZERO P)).
  { unfold breaksRow, re. simpl.
    rewrite (sub_self _ Hfin), (add_zero_not_gt _ Hfin). reflexivity. }
  exists (stepResult P opts (IRow.width cur) i r e rs cur st), e', re,
         (if breaksRow P (IRow.width cur) i cur re
          then newRow opts re else growRow opts cur re).
  split; [apply layoutStep_eq; assumption|].
  rewrite Hstep. simpl.
  split; [apply list_lookup_insert_eq; eapply lookup_lt_Some; eassumption|].
  split; [exact Hw|]. split; [exact Hh|]. split; [reflexivity|].
  split; [simpl; rewrite (sub_self _ Hfin); reflexivity|]. split; [reflexivity|].
  split; [simpl; rewrite (sub_self _ Hfin), mul_zero_div_zero; reflexivity|].
  rewrite <- Hb. destruct (breaksRow P (IRow.width cur) i cur re).
  - split; [reflexivity|]. split; [reflexivity|]. exact Hhe.
  - split; [reflexivity|]. split; [reflexivity|].
    unfold growRow. simpl. rewrite Hhe, lt_NaN_r. split; reflexivity.
Qed.

Lemma image_on_full_row_gets_NaN_height_witness :
  l_rows Sample.fullState = [] ++ [Sample.fullRow]
  /\ l_objs Sample.fullState !! 1 = Some (Sample.image (JS.of_Z 50) (JS.of_Z 30))
  /\ exists st' e' row,
       layoutStep Sample.host Sample.noMargins (JS.of_Z 100) 1 1 Sample.fullState = Some st'
       /\ l_objs st' !! 1 = Some e'
       /\ IElement.height e' = Some JS.NaN
       /\ l_rows st' = [] ++ [row]
       /\ IRow.height row = JS.of_Z 10.
Proof.
  split; [reflexivity|]. split; [reflexivity|].
  destruct (proj1 image_on_full_row_gets_NaN_height Sample.host Sample.noMargins
              1 1 Sample.fullState [] Sample.fullRow
              (Sample.image (JS.of_Z 50) (JS.of_Z 30)) eq_refl eq_refl eq_refl eq_refl)
    as (st' & e' & re & row & Hrun & Hl & _ & Hh & _ & _ & _ & _ & Hrow).
  exists st', e', row. split; [exact Hrun|]. split; [exact Hl|]. split; [exact Hh|].
  simpl in Hrow. destruct Hrow as (Hrows & _ & Hheight & _).
  split; [exact Hrows|exact Hheight].
Defined.

(** C10, as the specification words it, fails in its last part: with ten
    glyphs filling the page and an image of 50 by 30 after them, the
    image's height and its descent are NaN, but the row it joins keeps
    the height 10; no row has the height NaN. (And a positive width
    alone does not take the image into the shrink branch: on a row 2^53
    wide, a width of 1 is lost in the sum.) *)
Lemma NaN_height_does_not_reach_the_row :
  (d1 ← _computeRowList Sample.host Sample.full;
   Some (map IElement.height (Draw.objs d1),
         map (fun r => (IRow.height r,
                        map (fun re => IElementMetrics.boundingBoxDescent
                                         (IRowElement.metrics re))
                            (IRow.elementList r)))
             (Draw.rowList d1)))
  = Some ([None; Some JS.NaN], [(JS.of_Z 10, [JS.of_Z 2; JS.NaN])])
  /\ ~ someRowHeightNaN Sample.host Sample.full
  /\ imageOverflows (IRow.width Sample.hugeRow) Sample.hugeRow Sample.thin = false.
Proof.
  split; [vm_compute; reflexivity|]. split; [|vm_compute; reflexivity].
  intros H. unfold someRowHeightNaN in H.
  destruct (_computeRowList Sample.host Sample.full) as [d'|] eqn:E;
    [|vm_compute in E; discriminate].
  specialize (H d' eq_refl).
  vm_compute in E. inversion E; subst; clear E.
  inversion H as [? ? H0|? ? H0]; subst.
  - vm_compute in H0. discriminate.
  - inversion H0.
Qed.

(** ** The paint loops *)

Lemma selectionPainted_app (c1 c2 : list DrawCall) :
  selectionPainted (c1 ++ c2) = selectionPainted c1 ++ selectionPainted c2.
Proof. apply List.filter_app. Qed.

Lemma selectionPainted_when b c :
  isRangeRender c = false -> selectionPainted (when b [c]) = [].
Proof. intros H. destruct b; simpl; [rewrite H|]; reflexivity. Qed.

Lemma paintElement_painted range i curRow j element ps :
  painted range ps ->
  painted range (paintElement range i curRow j element ps)
  /\ length (p_positionList (paintElement range i curRow j element ps))
     = S (length (p_positionList ps)).
Proof.
  intros (Hidx & Hpos & Hsel). split; [split; [|split]|].
  - simpl. rewrite length_app, Hidx. simpl. lia.
  - simpl. intros k p Hk. apply lookup_app_Some in Hk.
    destruct Hk as [Hk|[Hge Hk]]; [apply Hpos; exact Hk|].
    apply list_lookup_singleton_Some in Hk. destruct Hk as [Hk <-]. simpl.
    rewrite Hidx. f_equal. lia.
  - simpl. rewrite !selectionPainted_app, Hsel, List.filter_app, map_app.
    rewrite !selectionPainted_when by reflexivity. simpl.
    destruct (IElement.isImage (IRowElement.element element)); simpl; f_equal;
      destruct (inSelection range (p_index ps)); reflexivity.
  - simpl. rewrite length_app. simpl. lia.
Qed.

Lemma paintElements_painted range i curRow els :
  forall j ps,
    painted range ps ->
    painted range (paintElements range i curRow j els ps)
    /\ length (p_positionList (paintElements range i curRow j els ps))
       = length (p_positionList ps) + length els.
Proof.
  induction els as [|element els IH]; intros j ps Hps; simpl.
  - split; [exact Hps|lia].
  - destruct (paintElement_painted range i curRow j element ps Hps) as [H1 H2].
    destruct (IH (S j) _ H1) as [H3 H4]. split; [exact H3|]. rewrite H4, H2. lia.
Qed.

Lemma paintRow_painted canvas opts range i curRow ps :
  painted range ps ->
  painted range (paintRow canvas opts range i curRow ps)
  /\ length (p_positionList (paintRow canvas opts range i curRow ps))
     = length (p_positionList ps) + length (IRow.elementList curRow).
Proof.
  intros Hps. unfold paintRow.
  destruct (paintElements_painted range i curRow (IRow.elementList curRow) 0
              (mkPaint (rowOffset canvas opts curRow (p_x ps)) (p_y ps) (p_index ps)
                       (p_positionList ps) (p_calls ps)))
    as [(Hidx & Hpos & Hsel) Hlen]; [exact Hps|].
  split; [|exact Hlen]. split; [exact Hidx|]. split; [exact Hpos|]. simpl.
  rewrite selectionPainted_app, Hsel. simpl. apply app_nil_r.
Qed.

Lemma paintRows_painted canvas opts range rows :
  forall i ps,
    painted range ps ->
    painted range (paintRows canvas opts range i rows ps)
    /\ length (p_positionList (paintRows canvas opts range i rows ps))
       = length (p_positionList ps) + placed rows.
Proof.
  induction rows as [|curRow rows IH]; intros i ps Hps; simpl.
  - split; [exact Hps|]. unfold placed. simpl. lia.
  - destruct (paintRow_painted canvas opts range i curRow ps Hps) as [H1 H2].
    destruct (IH (S i) _ H1) as [H3 H4]. split; [exact H3|].
    rewrite H4, H2. unfold placed. simpl. lia.
Qed.

(** ** [render] as a whole *)

Lemma deref_Some (s : list IElement.t) (l : list loc) :
  Forall (fun r => r < length s) l -> exists vals, deref s l = Some vals.
Proof.
  intros H. apply (mapM_is_Some_2 (fun r : loc => s !! r)).
  eapply Forall_impl; [exact H|]. intros r Hr. apply lookup_lt_is_Some_2. exact Hr.
Qed.

Lemma deref_lookups (s : list IElement.t) (l : list loc) vals :
  deref s l = Some vals <-> Forall2 (fun r v => s !! r = Some v) l vals.
Proof. apply mapM_Some. Qed.

(** The layout part of [render] keeps the references, the range and the
    history, keeps the number of objects, and leaves the objects the
    sequence does not refer to as they are. *)
Lemma renderLayout_fields (P : Platform) (d : Draw.t) (b : bool) :
  wf d ->
  exists d1, (if b then renderLayout P d else Some d) = Some d1
    /\ wf d1
    /\ Draw.elementList d1 = Draw.elementList d
    /\ length (Draw.objs d1) = length (Draw.objs d)
    /\ Draw.range d1 = Draw.range d
    /\ Draw.undoStack d1 = Draw.undoStack d
    /\ (forall l, ~ In l (Draw.elementList d) -> Draw.objs d1 !! l = Draw.objs d !! l)
    /\ (b = false -> d1 = d).
Proof.
  intros Hwf. destruct b.
  - destruct (computeRowList_frame P d Hwf) as (d1 & Hrun & Hd1 & Hl & _ & Hother).
    assert (Hwf1 : wf d1).
    { unfold wf in *. rewrite Hd1. simpl. rewrite Hl. exact Hwf. }
    unfold renderLayout. rewrite Hrun. simpl.
    destruct (canvasTooLow (Draw.options d1) (Draw.rowList d1) (Draw.canvas d1));
      (eexists; split; [reflexivity|]; simpl;
       split; [exact Hwf1|];
       split; [rewrite Hd1; reflexivity|];
       split; [exact Hl|];
       split; [rewrite Hd1; reflexivity|];
       split; [rewrite Hd1; reflexivity|];
       split; [exact Hother|discriminate]).
  - exists d. repeat split; auto.
Qed.

(** The history part: a copy of every element of the sequence is
    allocated after the objects there are, and the step refers to the
    copies. *)
Lemma submitHistory_eq (curIndex : Z) (d : Draw.t) :
  wf d ->
  exists vals,
    deref (Draw.objs d) (Draw.elementList d) = Some vals
    /\ submitHistory curIndex d
       = Some (Draw.set_undoStack
                 (Draw.undoStack d
                  ++ [HistoryStep.mk (IRange.startIndex (Draw.range d))
                                     (IRange.endIndex (Draw.range d))
                                     (seq (length (Draw.objs d)) (length vals))
                                     curIndex])
                 (Draw.set_objs (Draw.objs d ++ vals) d)).
Proof.
  intros Hwf. destruct (deref_Some _ _ Hwf) as [vals Hvals].
  exists vals. split; [exact Hvals|].
  unfold submitHistory, deepClone, execute, getRange. rewrite Hvals. reflexivity.
Qed.

(** What [render] returns, part by part. *)
Lemma render_eq (P : Platform) (payload : option IDrawOption.t) (d : Draw.t) :
  wf d ->
  exists d1 d' calls,
    (if default true (payload ≫= IDrawOption.isComputeRowList)
     then renderLayout P d else Some d) = Some d1
    /\ render P payload d = Some (d', calls)
    /\ Draw.elementList d1 = Draw.elementList d
    /\ length (Draw.objs d1) = length (Draw.objs d)
    /\ (forall l, ~ In l (Draw.elementList d) -> Draw.objs d1 !! l = Draw.objs d !! l)
    /\ Draw.range d1 = Draw.range d
    /\ Draw.elementList d' = Draw.elementList d
    /\ Draw.range d' = Draw.range d
    /\ Draw.rowList d' = Draw.rowList d1
    /\ Draw.positionList d' = p_positionList (paintAll P d1)
    /\ selectionPainted calls = selectionPainted (p_calls (paintAll P d1))
    /\ if default true (payload ≫= IDrawOption.isSubmitHistory)
       then exists vals step,
              deref (Draw.objs d1) (Draw.elementList d) = Some vals
              /\ Draw.objs d' = Draw.objs d1 ++ vals
              /\ Draw.undoStack d' = Draw.undoStack d ++ [step]
              /\ HistoryStep.startIndex step = IRange.startIndex (Draw.range d)
              /\ HistoryStep.endIndex step = IRange.endIndex (Draw.range d)
              /\ HistoryStep.oldElementList step
                 = seq (length (Draw.objs d1)) (length vals)
       else Draw.objs d' = Draw.objs d1 /\ Draw.undoStack d' = Draw.undoStack d.
Proof.
  intros Hwf.
  destruct (renderLayout_fields P d (default true (payload ≫= IDrawOption.isComputeRowList)) Hwf)
    as (d1 & Hrun & Hwf1 & He & Hl & Hr & Hu & Hother & _).
  unfold render, getPositionList, setPositionList, setCursorPosition.
  rewrite Hrun. simpl.
  set (ps := paintAll P d1).
  set (cur := default (Z.of_nat (length (p_positionList ps)) - 1)%Z
                      (payload ≫= IDrawOption.curIndex)).
  set (d3 := if default true (payload ≫= IDrawOption.isSetCursor)
             then Draw.set_cursorPosition (positionAt (p_positionList ps) cur)
                    (Draw.set_positionList (p_positionList ps) d1)
             else Draw.set_positionList (p_positionList ps) d1).
  assert (Hd3 : Draw.elementList d3 = Draw.elementList d1
                /\ Draw.objs d3 = Draw.objs d1
                /\ Draw.range d3 = Draw.range d1
                /\ Draw.undoStack d3 = Draw.undoStack d1
                /\ Draw.rowList d3 = Draw.rowList d1
                /\ Draw.positionList d3 = p_positionList ps).
  { unfold d3. destruct (default true (payload ≫= IDrawOption.isSetCursor));
      repeat split. }
  destruct Hd3 as (H3e & H3o & H3r & H3u & H3w & H3p).
  assert (Hsel : forall b1 b2,
             selectionPainted ((p_calls ps ++ when b1 [SearchRender]) ++ when b2 [DrawCursor])
             = selectionPainted (p_calls ps)).
  { intros b1 b2. rewrite !selectionPainted_app, !selectionPainted_when by reflexivity.
    rewrite !app_nil_r. reflexivity. }
  destruct (default true (payload ≫= IDrawOption.isSubmitHistory)).
  - assert (Hwf3 : wf d3) by (unfold wf; rewrite H3e, H3o; exact Hwf1).
    destruct (submitHistory_eq cur d3 Hwf3) as (vals & Hvals & Hsub).
    rewrite Hsub. simpl.
    eexists d1, _, _. split; [reflexivity|]. split; [reflexivity|]. simpl.
    rewrite H3e, H3r, H3w, H3p, H3o, H3u, Hsel, He, Hr, Hu.
    repeat (split; [reflexivity || assumption|]).
    exists vals. eexists. rewrite <- He, <- H3e, <- H3o. split; [exact Hvals|].
    repeat split; simpl; rewrite ?H3r, ?Hr; reflexivity.
  - simpl. eexists d1, _, _. split; [reflexivity|]. split; [reflexivity|].
    rewrite H3e, H3r, H3w, H3p, H3o, H3u, Hsel, He, Hr, Hu.
    repeat (split; [reflexivity || assumption|]). split; reflexivity.
Qed.

Lemma paintAll_painted (P : Platform) (d1 : Draw.t) :
  painted (Draw.range d1) (paintAll P d1)
  /\ length (p_positionList (paintAll P d1)) = placed (Draw.rowList d1).
Proof.
  unfold paintAll, getRange.
  match goal with
  | |- context [paintRows ?c ?o ?r 0 ?rows ?ps0] =>
      destruct (paintRows_painted c o r rows 0 ps0) as [H1 H2]
  end.
  - split; [reflexivity|]. split; [|reflexivity].
    intros i p Hi. simpl in Hi. rewrite lookup_nil in Hi. discriminate.
  - split; [exact H1|]. rewrite H2. reflexivity.
Qed.

(** ** The position list *)

(** C7. Every render (over valid references) returns, and leaves a
    position list whose entry [i] has the index [i], and which has as many
    entries as the rows that were painted hold elements. *)
Theorem render_position_index_identity (P : Platform)
    (payload : option IDrawOption.t) (d : Draw.t) :
  wf d ->
  exists d' calls,
    render P payload d = Some (d', calls)
    /\ (forall i p, Draw.positionList d' !! i = Some p ->
                    IElementPosition.index p = Z.of_nat i)
    /\ length (Draw.positionList d') = placed (Draw.rowList d').
Proof.
  intros Hwf.
  destruct (render_eq P payload d Hwf)
    as (d1 & d' & calls & _ & Hrun & _ & _ & _ & _ & _ & _ & Hrows & Hpos & _).
  destruct (paintAll_painted P d1) as [(_ & Hidx & _) Hlen].
  exists d', calls. split; [exact Hrun|]. rewrite Hpos, Hrows. auto.
Qed.

Lemma render_position_index_identity_witness :
  wf Sample.five /\
  exists d' calls,
    render Sample.host None Sample.five = Some (d', calls)
    /\ (forall i p, Draw.positionList d' !! i = Some p ->
                    IElementPosition.index p = Z.of_nat i)
    /\ length (Draw.positionList d') = placed (Draw.rowList d').
Proof.
  assert (H : wf Sample.five) by (unfold wf; simpl; repeat constructor).
  split; [exact H|].
  exact (render_position_index_identity Sample.host None Sample.five H).
Defined.

(** ** The selection *)

Lemma inSelection_iff (range : IRange.t) (index : Z) :
  inSelection range index = true
  <-> (IRange.startIndex range <> IRange.endIndex range
       /\ IRange.startIndex range < index <= IRange.endIndex range)%Z.
Proof.
  unfold inSelection. rewrite !andb_true_iff, negb_true_iff.
  rewrite Z.eqb_neq, Z.ltb_lt, Z.leb_le. tauto.
Qed.

(** C1, as the code has it. Every render (over valid references) returns,
    and the selection rectangles it paints are, in order, those of the
    position entries whose index passes the test of the loop; with
    [startIndex < endIndex] these are the indices [i] with
    [startIndex < i <= endIndex]. For the range [{1, 3}] over five
    elements the rectangles painted are those of the entries 2 and 3. *)
Theorem render_selection_after_start_through_end :
  (forall P payload d,
     wf d ->
     exists d' calls,
       render P payload d = Some (d', calls)
       /\ selectionPainted calls
          = map selectionRect
              (List.filter
                 (fun p => inSelection (Draw.range d) (IElementPosition.index p))
                 (Draw.positionList d'))
       /\ forall i,
            (IRange.startIndex (Draw.range d) < IRange.endIndex (Draw.range d))%Z ->
            (inSelection (Draw.range d) i = true
             <-> (IRange.startIndex (Draw.range d) < i <= IRange.endIndex (Draw.range d))%Z))
  /\ exists d' calls p0 p1 p2 p3 p4,
       render Sample.host None Sample.five = Some (d', calls)
       /\ Draw.positionList d' = [p0; p1; p2; p3; p4]
       /\ selectionPainted calls = [selectionRect p2; selectionRect p3].
Proof.
  split.
  - intros P payload d Hwf.
    destruct (render_eq P payload d Hwf)
      as (d1 & d' & calls & _ & Hrun & _ & _ & _ & Hr & _ & _ & _ & Hpos & Hsel & _).
    destruct (paintAll_painted P d1) as [(_ & _ & Hp) _].
    exists d', calls. split; [exact Hrun|]. split.
    + rewrite Hsel, Hpos, Hp, Hr. reflexivity.
    + intros i Hlt. rewrite inSelection_iff. split; [tauto|]. intros H.
      split; [lia|exact H].
  - destruct (render Sample.host None Sample.five) as [[d' calls]|] eqn:E;
      [|vm_compute in E; discriminate].
    vm_compute in E. inversion E; subst; clear E.
    do 7 eexists. split; [reflexivity|]. split; reflexivity.
Qed.

Lemma render_selection_after_start_through_end_witness :
  wf Sample.five /\
  exists d' calls,
    render Sample.host None Sample.five = Some (d', calls)
    /\ selectionPainted calls
       = map selectionRect
           (List.filter
              (fun p => inSelection (Draw.range Sample.five) (IElementPosition.index p))
              (Draw.positionList d')).
Proof.
  assert (H : wf Sample.five) by (unfold wf; simpl; repeat constructor).
  split; [exact H|].
  destruct (proj1 render_selection_after_start_through_end Sample.host None Sample.five H)
    as (d' & calls & Hrun & Hsel & _).
  exists d', calls. split; [exact Hrun|exact Hsel].
Defined.

(** C1, as the specification words it, fails: for the range [{1, 3}]
    over five glyphs 10 wide, the rectangles painted start at x = 20 and
    x = 30, over the entries 2 and 3, and not at x = 10 and x = 20, over
    the entries 1 and 2. *)
Lemma selection_is_not_half_open :
  (d ← render Sample.host None Sample.five; Some (selectionPainted (snd d)))
  = Some [RangeRender (JS.of_Z 20) (JS.of_Z 0) (JS.of_Z 10) (JS.of_Z 10);
          RangeRender (JS.of_Z 30) (JS.of_Z 0) (JS.of_Z 10) (JS.of_Z 10)]
  /\ (d ← render Sample.host None Sample.five;
      Some (map (fun p => (IElementPosition.index p,
                           fst (ICoordinate.leftTop (IElementPosition.coordinate p))))
                (Draw.positionList (fst d))))
     = Some [(0, JS.of_Z 0); (1, JS.of_Z 10); (2, JS.of_Z 20); (3, JS.of_Z 30);
             (4, JS.of_Z 40)]%Z
  /\ ~ selectionHalfOpen Sample.host Sample.five.
Proof.
  split; [vm_compute; reflexivity|]. split; [vm_compute; reflexivity|].
  intros H. unfold selectionHalfOpen in H.
  destruct (render Sample.host None Sample.five) as [[d' calls]|] eqn:E;
    [|vm_compute in E; discriminate].
  specialize (H d' calls eq_refl).
  vm_compute in E. inversion E; subst; clear E.
  vm_compute in H. discriminate.
Qed.

(** ** History capture *)

Lemma deref_app_l (s t : list IElement.t) (l : list loc) vals :
  deref s l = Some vals -> deref (s ++ t) l = Some vals.
Proof.
  rewrite !deref_lookups. intros H.
  eapply Forall2_impl; [exact H|]. intros r v Hr. simpl in *.
  apply lookup_app_l_Some. exact Hr.
Qed.

Lemma deref_seq_app (vals : list IElement.t) :
  forall pre : list IElement.t,
    deref (pre ++ vals) (seq (length pre) (length vals)) = Some vals.
Proof.
  intros pre. apply deref_lookups. revert pre.
  induction vals as [|v vals IH]; intros pre; simpl; [constructor|].
  constructor.
  - apply list_lookup_middle. reflexivity.
  - specialize (IH (pre ++ [v])).
    rewrite length_app, <- app_assoc in IH. simpl in IH.
    rewrite Nat.add_1_r in IH. exact IH.
Qed.

(** C2, as the specification words it, fails: the copy is taken at the
    end of the render. With an image of 100 by 30 that the layout pass
    of this render shrinks to 40 wide, the step holds an image 40 wide,
    and the sequence before the render held one 100 wide. *)
Lemma history_step_is_not_the_state_before_render :
  (d ← render Sample.host None Sample.overflow;
   step ← last (Draw.undoStack (fst d));
   vals ← deref (Draw.objs (fst d)) (HistoryStep.oldElementList step);
   Some (map IElement.width vals))
  = Some [None; Some (JS.of_Z 40)]
  /\ (vals ← deref (Draw.objs Sample.overflow) (Draw.elementList Sample.overflow);
      Some (map IElement.width vals))
     = Some [None; Some (JS.of_Z 100)]
  /\ ~ snapshotIsPreRender Sample.host Sample.overflow.
Proof.
  split; [vm_compute; reflexivity|]. split; [vm_compute; reflexivity|].
  intros H. unfold snapshotIsPreRender in H.
  destruct (render Sample.host None Sample.overflow) as [[d' calls]|] eqn:E;
    [|vm_compute in E; discriminate].
  vm_compute in E. inversion E; subst; clear E.
  specialize (H _ _ _ eq_refl eq_refl). vm_compute in H. discriminate.
Qed.

(** ** Invoking a history step *)

Lemma deref_ext (s s' : list IElement.t) (l : list loc) :
  (forall r, In r l -> s' !! r = s !! r) -> deref s' l = deref s l.
Proof.
  unfold deref. induction l as [|r l IH]; intros H; [reflexivity|].
  simpl. rewrite (H r (or_introl eq_refl)), IH; [reflexivity|].
  intros r' Hr'. apply H. right. exact Hr'.
Qed.

(** Undo and redo keep the step as it is. Invoking a step (whose
    references are valid) returns, restores the range of the step,
    pushes no step, and makes the live sequence a second copy of the
    elements of the step: the step's own elements are not in the live
    sequence afterwards, and are what they were, although the render that
    ends the invocation lays the live sequence out again. *)
Lemma invokeStep_keeps_step (P : Platform) (step : HistoryStep.t) (d : Draw.t) :
  Forall (fun r => r < length (Draw.objs d)) (HistoryStep.oldElementList step) ->
  exists d' calls vals,
    deref (Draw.objs d) (HistoryStep.oldElementList step) = Some vals
    /\ invokeStep P step d = Some (d', calls)
    /\ Draw.range d' = IRange.mk (HistoryStep.startIndex step) (HistoryStep.endIndex step)
    /\ Draw.undoStack d' = Draw.undoStack d
    /\ length (Draw.elementList d') = length (HistoryStep.oldElementList step)
    /\ (forall r, In r (HistoryStep.oldElementList step) -> ~ In r (Draw.elementList d'))
    /\ deref (Draw.objs d') (HistoryStep.oldElementList step) = Some vals.
Proof.
  intros Hold.
  destruct (deref_Some _ _ Hold) as [vals Hvals].
  assert (Hlen : length vals = length (HistoryStep.oldElementList step)).
  { apply deref_lookups in Hvals. symmetry. eapply Forall2_length. exact Hvals. }
  set (d2 := Draw.set_elementList (seq (length (Draw.objs d)) (length vals))
               (Draw.set_objs (Draw.objs d ++ vals)
                  (Draw.set_range
                     (IRange.mk (HistoryStep.startIndex step) (HistoryStep.endIndex step))
                     d))).
  assert (Hwf2 : wf d2).
  { unfold wf, d2. simpl. apply Forall_forall. intros r Hr.
    apply list_elem_of_In, in_seq in Hr. rewrite length_app. lia. }
  destruct (render_eq P
              (Some (IDrawOption.mk (Some (HistoryStep.curIndex step)) (Some false) None None))
              d2 Hwf2)
    as (d1 & d' & calls & _ & Hrun & _ & _ & Hother & _ & He & Hr & _ & _ & _ & Hhist).
  simpl in Hhist. destruct Hhist as [Hobjs Hundo].
  assert (Hfresh : forall r, In r (HistoryStep.oldElementList step) ->
                             ~ In r (Draw.elementList d2)).
  { intros r Hin Hin'. unfold d2 in Hin'. simpl in Hin'. apply in_seq in Hin'.
    rewrite Forall_forall in Hold. specialize (Hold r). 
    assert (r < length (Draw.objs d)) by (apply Hold, list_elem_of_In; exact Hin). lia. }
  exists d', calls, vals.
  split; [exact Hvals|]. split.
  { unfold invokeStep, deepClone, setRange. simpl. rewrite Hvals. simpl. exact Hrun. }
  split; [rewrite Hr; reflexivity|]. split; [rewrite Hundo; reflexivity|].
  split; [rewrite He; unfold d2; simpl; rewrite length_seq; exact Hlen|].
  split; [rewrite He; exact Hfresh|].
  rewrite Hobjs, <- Hvals. apply deref_ext. intros r Hin.
  rewrite (Hother r (Hfresh r Hin)). unfold d2. simpl.
  apply lookup_app_l. rewrite Forall_forall in Hold. apply Hold, list_elem_of_In. exact Hin.
Qed.

(** * Further properties of [Draw.ts] *)

(** ** Rules for the paint loops *)

Lemma paintElement_entry range i curRow j e ps :
  p_positionList (paintElement range i curRow j e ps)
  = p_positionList ps ++ [entryOf i curRow j e ps].
Proof. reflexivity. Qed.

(** The inner loop establishes every invariant, of the elements gone
    through and the paint state, that its iterations preserve. *)
Lemma paintElements_rule (Q : list IRowElement.t -> paint -> Prop)
    range i curRow (els : list IRowElement.t) :
  forall (done : list IRowElement.t) (j : nat) (ps : paint),
    j = length done ->
    Q done ps ->
    (forall done1 e rest ps1,
        done1 ++ e :: rest = done ++ els ->
        Q done1 ps1 ->
        Q (done1 ++ [e]) (paintElement range i curRow (length done1) e ps1)) ->
    Q (done ++ els) (paintElements range i curRow j els ps).
Proof.
  induction els as [|e els IH]; intros done j ps Hj HQ Hstep; simpl.
  - rewrite app_nil_r. exact HQ.
  - replace (done ++ e :: els) with ((done ++ [e]) ++ els)
      by (rewrite <- app_assoc; reflexivity).
    apply IH.
    + rewrite length_app. simpl. lia.
    + subst j. apply (Hstep done e els ps); [reflexivity|exact HQ].
    + intros done1 e1 rest ps1 Heq. apply (Hstep done1 e1 rest).
      rewrite Heq, <- app_assoc. reflexivity.
Qed.

(** The outer loop establishes every invariant, of the rows gone through
    and the paint state, that its iterations preserve. *)
Lemma paintRows_rule (Q : list IRow.t -> paint -> Prop)
    canvas opts range (rows : list IRow.t) :
  forall (done : list IRow.t) (i : nat) (ps : paint),
    i = length done ->
    Q done ps ->
    (forall done1 row rest ps1,
        done1 ++ row :: rest = done ++ rows ->
        Q done1 ps1 ->
        Q (done1 ++ [row]) (paintRow canvas opts range (length done1) row ps1)) ->
    Q (done ++ rows) (paintRows canvas opts range i rows ps).
Proof.
  induction rows as [|row rows IH]; intros done i ps Hi HQ Hstep; simpl.
  - rewrite app_nil_r. exact HQ.
  - replace (done ++ row :: rows) with ((done ++ [row]) ++ rows)
      by (rewrite <- app_assoc; reflexivity).
    apply IH.
    + rewrite length_app. simpl. lia.
    + subst i. apply (Hstep done row rows ps); [reflexivity|exact HQ].
    + intros done1 r1 rest ps1 Heq. apply (Hstep done1 r1 rest).
      rewrite Heq, <- app_assoc. reflexivity.
Qed.

(** ** [render], field by field *)

(** The layout part of [render] is the layout pass, followed or not by
    the growth of the canvas. *)
Lemma renderLayout_shape (P : Platform) (d : Draw.t) :
  wf d ->
  exists d0 d1,
    _computeRowList P d = Some d0
    /\ renderLayout P d = Some d1
    /\ d0 = Draw.set_rowList (Draw.rowList d0) (Draw.set_objs (Draw.objs d0) d)
    /\ (d1 = d0
        \/ (canvasTooLow (Draw.options d0) (Draw.rowList d0) (Draw.canvas d0) = true
            /\ d1 = Draw.set_ctxFont (resetFont P)
                      (Draw.set_canvas
                         (grownCanvas P (Draw.options d0) (Draw.rowList d0) (Draw.canvas d0))
                         d0))).
Proof.
  intros Hwf.
  destruct (computeRowList_frame P d Hwf) as (d0 & Hrun & Hd0 & _).
  unfold renderLayout. rewrite Hrun. simpl.
  destruct (canvasTooLow (Draw.options d0) (Draw.rowList d0) (Draw.canvas d0)) eqn:E;
    eexists d0, _; (split; [reflexivity|]); (split; [reflexivity|]);
    (split; [exact Hd0|]); [right; split; [exact E|reflexivity]|left; reflexivity].
Qed.

(** What [render] leaves in every field, and the calls it makes, from
    the state [d1] its layout part leaves. *)
Lemma render_full (P : Platform) (payload : option IDrawOption.t) (d : Draw.t) :
  wf d ->
  exists d1 d' calls,
    (if default true (payload ≫= IDrawOption.isComputeRowList)
     then renderLayout P d else Some d) = Some d1
    /\ render P payload d = Some (d', calls)
    /\ wf d1
    /\ Draw.canvas d' = Draw.canvas d1
    /\ Draw.ctxFont d' = Draw.ctxFont d1
    /\ Draw.options d' = Draw.options d1
    /\ Draw.elementList d' = Draw.elementList d1
    /\ Draw.rowList d' = Draw.rowList d1
    /\ Draw.range d' = Draw.range d1
    /\ Draw.searchMatchList d' = Draw.searchMatchList d1
    /\ Draw.positionList d' = p_positionList (paintAll P d1)
    /\ Draw.cursorPosition d'
       = (if default true (payload ≫= IDrawOption.isSetCursor)
          then positionAt (p_positionList (paintAll P d1))
                 (default (Z.of_nat (length (p_positionList (paintAll P d1))) - 1)%Z
                          (payload ≫= IDrawOption.curIndex))
          else Draw.cursorPosition d1)
    /\ calls = (p_calls (paintAll P d1)
                ++ when (bool_decide (is_Some (Draw.searchMatchList d1))) [SearchRender])
               ++ when (default true (payload ≫= IDrawOption.isSetCursor)) [DrawCursor]
    /\ if default true (payload ≫= IDrawOption.isSubmitHistory)
       then exists vals,
              deref (Draw.objs d1) (Draw.elementList d1) = Some vals
              /\ Draw.objs d' = Draw.objs d1 ++ vals
              /\ Draw.undoStack d'
                 = Draw.undoStack d1
                   ++ [HistoryStep.mk
                         (IRange.startIndex (Draw.range d1))
                         (IRange.endIndex (Draw.range d1))
                         (seq (length (Draw.objs d1)) (length vals))
                         (default (Z.of_nat (length (p_positionList (paintAll P d1))) - 1)%Z
                                  (payload ≫= IDrawOption.curIndex))]
       else Draw.objs d' = Draw.objs d1 /\ Draw.undoStack d' = Draw.undoStack d1.
Proof.
  intros Hwf.
  destruct (renderLayout_fields P d (default true (payload ≫= IDrawOption.isComputeRowList)) Hwf)
    as (d1 & Hrun & Hwf1 & _).
  exists d1.
  unfold render, getPositionList, setPositionList, setCursorPosition.
  rewrite Hrun. simpl.
  set (ps := paintAll P d1).
  set (cur := default (Z.of_nat (length (p_positionList ps)) - 1)%Z
                      (payload ≫= IDrawOption.curIndex)).
  destruct (default true (payload ≫= IDrawOption.isSubmitHistory)).
  - destruct (default true (payload ≫= IDrawOption.isSetCursor)).
    + match goal with
      | |- context [submitHistory cur ?d3] =>
          destruct (submitHistory_eq cur d3) as (vals & Hvals & Hsub);
          [exact Hwf1|rewrite Hsub]
      end.
      simpl. eexists _, _. split; [reflexivity|]. split; [reflexivity|].
      split; [exact Hwf1|]. simpl. repeat (split; [reflexivity|]).
      exists vals. split; [exact Hvals|]. split; reflexivity.
    + match goal with
      | |- context [submitHistory cur ?d3] =>
          destruct (submitHistory_eq cur d3) as (vals & Hvals & Hsub);
          [exact Hwf1|rewrite Hsub]
      end.
      simpl. eexists _, _. split; [reflexivity|]. split; [reflexivity|].
      split; [exact Hwf1|]. simpl. repeat (split; [reflexivity|]).
      exists vals. split; [exact Hvals|]. split; reflexivity.
  - destruct (default true (payload ≫= IDrawOption.isSetCursor));
      simpl; eexists _, _; (split; [reflexivity|]); (split; [reflexivity|]);
      (split; [exact Hwf1|]); simpl; repeat (split; [reflexivity|]); split; reflexivity.
Qed.

(** What the layout part of [render] keeps. *)
Lemma renderLayout_keeps (P : Platform) (d : Draw.t) (b : bool) :
  wf d ->
  exists d1, (if b then renderLayout P d else Some d) = Some d1
    /\ wf d1
    /\ Draw.options d1 = Draw.options d
    /\ Draw.searchMatchList d1 = Draw.searchMatchList d
    /\ Draw.elementList d1 = Draw.elementList d
    /\ Draw.range d1 = Draw.range d
    /\ Draw.undoStack d1 = Draw.undoStack d
    /\ Draw.cursorPosition d1 = Draw.cursorPosition d
    /\ Draw.positionList d1 = Draw.positionList d
    /\ Canvas.width (Draw.canvas d1) = Canvas.width (Draw.canvas d)
    /\ length (Draw.objs d1) = length (Draw.objs d)
    /\ (forall l, ~ In l (Draw.elementList d) -> Draw.objs d1 !! l = Draw.objs d !! l)
    /\ (b = false -> d1 = d).
Proof.
  intros Hwf.
  destruct (renderLayout_fields P d b Hwf)
    as (d1 & Hrun & Hwf1 & He & Hl & Hr & Hu & Hother & Hb).
  exists d1. split; [exact Hrun|]. split; [exact Hwf1|].
  destruct b.
  - destruct (renderLayout_shape P d Hwf) as (d0 & d1' & _ & Hrun' & Hd0 & Hd1).
    rewrite Hrun in Hrun'. inversion Hrun'; subst d1'.
    assert (H0 : Draw.options d0 = Draw.options d
                 /\ Draw.searchMatchList d0 = Draw.searchMatchList d
                 /\ Draw.cursorPosition d0 = Draw.cursorPosition d
                 /\ Draw.positionList d0 = Draw.positionList d
                 /\ Draw.canvas d0 = Draw.canvas d)
      by (rewrite Hd0; repeat split).
    destruct H0 as (Ho & Hs & Hc & Hp & Hcv).
    destruct Hd1 as [->|[_ ->]]; simpl; rewrite ?Hcv;
      repeat (split; [assumption || reflexivity|]); try discriminate.
  - inversion Hrun; subst d1. repeat split; auto.
Qed.

(** The paint loops make no call but paint calls. *)
Lemma paintElement_calls range i curRow j e ps :
  Forall (fun c => isPaintCall c = true) (p_calls ps) ->
  Forall (fun c => isPaintCall c = true) (p_calls (paintElement range i curRow j e ps)).
Proof.
  intros H. unfold paintElement. simpl.
  repeat (apply Forall_app; split); try exact H;
    repeat match goal with
           | |- context [when ?b _] => destruct b; simpl
           | |- context [if ?b then _ else _] => destruct b; simpl
           end;
    repeat constructor.
Qed.

Lemma paintAll_calls (P : Platform) (d1 : Draw.t) :
  Forall (fun c => isPaintCall c = true) (p_calls (paintAll P d1)).
Proof.
  unfold paintAll.
  match goal with
  | |- context [paintRows ?cv ?o ?r 0 ?rows ?ps0] =>
      apply (paintRows_rule
               (fun _ ps => Forall (fun x => isPaintCall x = true) (p_calls ps))
               cv o r rows [] 0 ps0 eq_refl)
  end.
  - repeat constructor.
  - intros done1 row rest ps1 _ H. unfold paintRow. simpl.
    apply Forall_app. split; [|repeat constructor].
    apply (paintElements_rule
             (fun _ ps => Forall (fun c => isPaintCall c = true) (p_calls ps))
             _ _ _ (IRow.elementList row) [] 0 _ eq_refl); [exact H|].
    intros done2 e rest2 ps2 _ H2. apply paintElement_calls. exact H2.
Qed.

(** ** Repainting *)

(** X1. A render that neither recomputes the layout nor submits history
    is idempotent: run again on the state it left, with the same payload,
    it leaves the same state and makes the same calls; in particular it
    produces identical position entries. *)
Theorem render_repaint_idempotent (P : Platform)
    (payload : option IDrawOption.t) (d d' : Draw.t) (calls : list DrawCall) :
  default true (payload ≫= IDrawOption.isComputeRowList) = false ->
  default true (payload ≫= IDrawOption.isSubmitHistory) = false ->
  render P payload d = Some (d', calls) ->
  render P payload d' = Some (d', calls).
Proof.
  intros Hl Hs. unfold render, getPositionList, setPositionList, setCursorPosition.
  rewrite Hl, Hs. simpl. intros H. inversion H; subst; clear H.
  destruct (default true (payload ≫= IDrawOption.isSetCursor)); reflexivity.
Qed.

Lemma render_repaint_idempotent_witness :
  length (Draw.rowList Sample2.after) = 1
  /\ exists d' calls,
       render Sample.host repaintOnly Sample2.after = Some (d', calls)
       /\ length (Draw.positionList d') = 2
       /\ is_Some (Draw.cursorPosition d')
       /\ render Sample.host repaintOnly d' = Some (d', calls).
Proof.
  split; [vm_compute; reflexivity|].
  destruct (render Sample.host repaintOnly Sample2.after) as [[d' calls]|] eqn:E;
    [|vm_compute in E; discriminate].
  exists d', calls. split; [reflexivity|].
  split; [pose proof E as E'; vm_compute in E'; injection E' as <- _; reflexivity|].
  split; [pose proof E as E'; vm_compute in E'; injection E' as <- _; eexists; reflexivity|].
  exact (render_repaint_idempotent Sample.host repaintOnly Sample2.after d' calls
           eq_refl eq_refl E).
Defined.

(** ** What [render] leaves alone *)

(** X2. Whatever its payload, [render] (over valid references) returns
    and changes neither the array of references, nor the range, nor the
    options, nor the search matches, nor the width of the canvas; it
    removes no object, and writes to no existing object that the sequence
    does not refer to. *)
Theorem render_frame (P : Platform) (payload : option IDrawOption.t) (d : Draw.t) :
  wf d ->
  exists d' calls,
    render P payload d = Some (d', calls)
    /\ Draw.elementList d' = Draw.elementList d
    /\ Draw.range d' = Draw.range d
    /\ Draw.options d' = Draw.options d
    /\ Draw.searchMatchList d' = Draw.searchMatchList d
    /\ Canvas.width (Draw.canvas d') = Canvas.width (Draw.canvas d)
    /\ length (Draw.objs d) <= length (Draw.objs d')
    /\ (forall l, l < length (Draw.objs d) -> ~ In l (Draw.elementList d) ->
                  Draw.objs d' !! l = Draw.objs d !! l).
Proof.
  intros Hwf.
  destruct (render_full P payload d Hwf)
    as (d1 & d' & calls & Hlay & Hrun & _ & Hc & _ & Ho & He & _ & Hr & Hs & _ & _ & _ & Hh).
  destruct (renderLayout_keeps P d
              (default true (payload ≫= IDrawOption.isComputeRowList)) Hwf)
    as (d1' & Hlay' & _ & Ho1 & Hs1 & He1 & Hr1 & _ & _ & _ & Hw1 & Hl1 & Hother & _).
  rewrite Hlay in Hlay'. inversion Hlay'; subst d1'.
  exists d', calls. split; [exact Hrun|].
  rewrite He, Hr, Ho, Hs, Hc, He1, Hr1, Ho1, Hs1, Hw1.
  repeat (split; [reflexivity|]).
  destruct (default true (payload ≫= IDrawOption.isSubmitHistory)).
  - destruct Hh as (vals & _ & Hobjs & _). rewrite Hobjs. split.
    + rewrite length_app. lia.
    + intros l Hl Hin. rewrite lookup_app_l by lia. apply Hother. exact Hin.
  - destruct Hh as [Hobjs _]. rewrite Hobjs. split; [lia|].
    intros l _ Hin. apply Hother. exact Hin.
Qed.

Lemma render_frame_witness :
  wf Sample.overflow /\
  exists d' calls,
    render Sample.host None Sample.overflow = Some (d', calls)
    /\ Draw.elementList d' = Draw.elementList Sample.overflow
    /\ Draw.range d' = Draw.range Sample.overflow
    /\ length (Draw.objs Sample.overflow) <= length (Draw.objs d').
Proof.
  assert (H : wf Sample.overflow) by (unfold wf; simpl; repeat constructor).
  split; [exact H|].
  destruct (render_frame Sample.host None Sample.overflow H)
    as (d' & calls & Hrun & He & Hr & _ & _ & _ & Hl & _).
  exists d', calls. auto.
Defined.

(** X3. The three switches of the payload. With [isSubmitHistory] false
    the render pushes no history step and allocates no object; with
    [isSetCursor] false it leaves the cursor position alone and does not
    draw the cursor; with [isComputeRowList] false it keeps the cached
    rows, the canvas and every existing object as they are. *)
Theorem render_switches (P : Platform) (payload : option IDrawOption.t) (d : Draw.t) :
  wf d ->
  exists d' calls,
    render P payload d = Some (d', calls)
    /\ (default true (payload ≫= IDrawOption.isSubmitHistory) = false ->
        Draw.undoStack d' = Draw.undoStack d
        /\ length (Draw.objs d') = length (Draw.objs d))
    /\ (default true (payload ≫= IDrawOption.isSetCursor) = false ->
        Draw.cursorPosition d' = Draw.cursorPosition d
        /\ ~ In DrawCursor calls)
    /\ (default true (payload ≫= IDrawOption.isComputeRowList) = false ->
        Draw.rowList d' = Draw.rowList d
        /\ Draw.canvas d' = Draw.canvas d
        /\ Draw.ctxFont d' = Draw.ctxFont d
        /\ forall l, l < length (Draw.objs d) -> Draw.objs d' !! l = Draw.objs d !! l).
Proof.
  intros Hwf.
  destruct (render_full P payload d Hwf)
    as (d1 & d' & calls & Hlay & Hrun & _ & Hc & Hf & _ & _ & Hrows & _ & _ & Hpos & Hcur
        & Hcalls & Hh).
  destruct (renderLayout_keeps P d
              (default true (payload ≫= IDrawOption.isComputeRowList)) Hwf)
    as (d1' & Hlay' & _ & _ & _ & _ & _ & Hu1 & Hc1 & _ & _ & Hl1 & _ & Hsame).
  rewrite Hlay in Hlay'. inversion Hlay'; subst d1'.
  exists d', calls. split; [exact Hrun|]. split; [|split].
  - intros Hs. rewrite Hs in Hh. destruct Hh as [-> ->]. split; [exact Hu1|exact Hl1].
  - intros Hs. rewrite Hs in Hcur, Hcalls. split; [rewrite Hcur; exact Hc1|].
    rewrite Hcalls. simpl. rewrite app_nil_r. intros Hin.
    apply in_app_or in Hin. destruct Hin as [Hin|Hin].
    + pose proof (paintAll_calls P d1) as Hp. rewrite Forall_forall in Hp.
      specialize (Hp DrawCursor (proj2 (list_elem_of_In _ _) Hin)). discriminate.
    + destruct (bool_decide (is_Some (Draw.searchMatchList d1))); simpl in Hin;
        [destruct Hin as [H|[]]; discriminate|exact Hin].
  - intros Hs. specialize (Hsame Hs). subst d1.
    split; [exact Hrows|]. split; [exact Hc|]. split; [exact Hf|].
    intros l Hl. destruct (default true (payload ≫= IDrawOption.isSubmitHistory)).
    + destruct Hh as (vals & _ & -> & _). apply lookup_app_l. exact Hl.
    + destruct Hh as [-> _]. reflexivity.
Qed.

Lemma render_switches_witness :
  wf Sample.five /\
  exists d' calls,
    render Sample.host (payloadWith None false false false) Sample.five = Some (d', calls)
    /\ Draw.undoStack d' = Draw.undoStack Sample.five
    /\ Draw.cursorPosition d' = Draw.cursorPosition Sample.five
    /\ Draw.rowList d' = Draw.rowList Sample.five.
Proof.
  assert (H : wf Sample.five) by (unfold wf; simpl; repeat constructor).
  split; [exact H|].
  destruct (render_switches Sample.host (payloadWith None false false false) Sample.five H)
    as (d' & calls & Hrun & Hs & Hc & Hl).
  exists d', calls. split; [exact Hrun|].
  split; [exact (proj1 (Hs eq_refl))|].
  split; [exact (proj1 (Hc eq_refl))|exact (proj1 (Hl eq_refl))].
Defined.

(** ** The cursor *)

Lemma positionAt_spec (l : list IElementPosition.t) (c : Z) :
  positionAt l c
  = if Z.ltb c 0 then None
    else if Z.ltb c (Z.of_nat (length l)) then l !! Z.to_nat c else None.
Proof.
  unfold positionAt. destruct (Z.ltb_spec c 0); [reflexivity|].
  destruct (Z.ltb_spec c (Z.of_nat (length l))); [reflexivity|].
  apply lookup_ge_None. lia.
Qed.

Lemma positionAt_last (l : list IElementPosition.t) :
  positionAt l (Z.of_nat (length l) - 1) = last l.
Proof.
  unfold positionAt. destruct l as [|p l]; [reflexivity|].
  destruct (Z.ltb_spec (Z.of_nat (length (p :: l)) - 1) 0) as [H|H];
    [simpl in H; lia|].
  rewrite last_lookup. f_equal. simpl. lia.
Qed.

(** X4. Where [render] puts the cursor when [isSetCursor] holds. Without
    a target index it is the last position entry, or null when there is
    none. With a target index [c] it is the entry of index [c] when
    [0 <= c < positionList.length], and null otherwise: an index out of
    range is no error. In each case the cursor is then drawn, as the last
    call of the render. *)
Theorem render_cursor_position (P : Platform) (payload : option IDrawOption.t) (d : Draw.t) :
  wf d ->
  default true (payload ≫= IDrawOption.isSetCursor) = true ->
  exists d' calls,
    render P payload d = Some (d', calls)
    /\ last calls = Some DrawCursor
    /\ match payload ≫= IDrawOption.curIndex with
       | None => Draw.cursorPosition d' = last (Draw.positionList d')
       | Some c =>
           if (0 <=? c)%Z && (c <? Z.of_nat (length (Draw.positionList d')))%Z
           then exists p, Draw.cursorPosition d' = Some p
                          /\ Draw.positionList d' !! Z.to_nat c = Some p
                          /\ IElementPosition.index p = c
           else Draw.cursorPosition d' = None
       end.
Proof.
  intros Hwf Hset.
  destruct (render_full P payload d Hwf)
    as (d1 & d' & calls & _ & Hrun & _ & _ & _ & _ & _ & _ & _ & _ & Hpos & Hcur & Hcalls & _).
  rewrite Hset in Hcur, Hcalls.
  exists d', calls. split; [exact Hrun|]. split.
  - rewrite Hcalls. simpl. apply last_snoc.
  - rewrite <- Hpos in Hcur. rewrite Hcur.
    destruct (payload ≫= IDrawOption.curIndex) as [c|]; simpl.
    + rewrite positionAt_spec.
      destruct (Z.leb_spec 0 c) as [H0|H0], (Z.ltb_spec c 0) as [H1|H1]; try lia; simpl;
        [|reflexivity].
      destruct (Z.ltb_spec c (Z.of_nat (length (Draw.positionList d')))) as [H2|H2];
        [|reflexivity].
      destruct (lookup_lt_is_Some_2 (Draw.positionList d') (Z.to_nat c)) as [p Hp]; [lia|].
      exists p. split; [exact Hp|]. split; [exact Hp|].
      destruct (paintAll_painted P d1) as [(_ & Hidx & _) _].
      rewrite Hpos in Hp. rewrite (Hidx _ _ Hp). lia.
    + apply positionAt_last.
Qed.

Lemma render_cursor_position_witness :
  wf Sample.five
  /\ default true (payloadWith (Some 7%Z) false true true ≫= IDrawOption.isSetCursor) = true
  /\ exists d' calls,
       render Sample.host (payloadWith (Some 7%Z) false true true) Sample.five
       = Some (d', calls)
       /\ last calls = Some DrawCursor
       /\ Draw.cursorPosition d' = None.
Proof.
  assert (H : wf Sample.five) by (unfold wf; simpl; repeat constructor).
  split; [exact H|]. split; [reflexivity|].
  destruct (render_cursor_position Sample.host (payloadWith (Some 7%Z) false true true)
              Sample.five H eq_refl) as (d' & calls & Hrun & Hlast & Hcur).
  exists d', calls. split; [exact Hrun|]. split; [exact Hlast|].
  pose proof Hrun as E. vm_compute in E. inversion E; subst d' calls; clear E.
  exact Hcur.
Defined.

(** ** The search highlight *)

(** X5. [render] calls the search highlight once when a list of matches
    is set, an empty list included, and not at all when it is null. The
    call comes after every call of the paint loops, and only the drawing
    of the cursor can follow it. *)
Theorem render_search_highlight (P : Platform) (payload : option IDrawOption.t) (d : Draw.t) :
  wf d ->
  exists d' calls,
    render P payload d = Some (d', calls)
    /\ match getSearchMathch d with
       | Some _ =>
           exists pre post,
             calls = pre ++ SearchRender :: post
             /\ Forall (fun c => isPaintCall c = true) pre
             /\ (post = [] \/ post = [DrawCursor])
       | None => ~ In SearchRender calls
       end.
Proof.
  intros Hwf.
  destruct (render_full P payload d Hwf)
    as (d1 & d' & calls & Hlay & Hrun & _ & _ & _ & _ & _ & _ & _ & _ & _ & _ & Hcalls & _).
  destruct (renderLayout_keeps P d
              (default true (payload ≫= IDrawOption.isComputeRowList)) Hwf)
    as (d1' & Hlay' & _ & _ & Hs1 & _).
  rewrite Hlay in Hlay'. inversion Hlay'; subst d1'.
  exists d', calls. split; [exact Hrun|].
  unfold getSearchMathch. rewrite <- Hs1. rewrite Hcalls.
  pose proof (paintAll_calls P d1) as Hp.
  destruct (Draw.searchMatchList d1) as [ms|]; simpl.
  - exists (p_calls (paintAll P d1)),
           (when (default true (payload ≫= IDrawOption.isSetCursor)) [DrawCursor]).
    split; [rewrite <- app_assoc; reflexivity|]. split; [exact Hp|].
    destruct (default true (payload ≫= IDrawOption.isSetCursor)); simpl; auto.
  - rewrite app_nil_r. intros Hin. apply in_app_or in Hin. destruct Hin as [Hin|Hin].
    + rewrite Forall_forall in Hp.
      specialize (Hp SearchRender (proj2 (list_elem_of_In _ _) Hin)). discriminate.
    + destruct (default true (payload ≫= IDrawOption.isSetCursor)); simpl in Hin;
        [destruct Hin as [H|[]]; discriminate|exact Hin].
Qed.

Lemma render_search_highlight_witness :
  wf (setSearchMatch (Some []) Sample.five) /\
  exists d' calls,
    render Sample.host None (setSearchMatch (Some []) Sample.five) = Some (d', calls)
    /\ exists pre post,
         calls = pre ++ SearchRender :: post
         /\ Forall (fun c => isPaintCall c = true) pre
         /\ (post = [] \/ post = [DrawCursor]).
Proof.
  assert (H : wf (setSearchMatch (Some []) Sample.five))
    by (unfold wf; simpl; repeat constructor).
  split; [exact H|].
  exact (render_search_highlight Sample.host None (setSearchMatch (Some []) Sample.five) H).
Defined.

(** ** Ranges that select nothing *)

Lemma filter_none {A} (f : A -> bool) (l : list A) :
  (forall x, f x = false) -> List.filter f l = [].
Proof.
  intros H. induction l as [|x l IH]; [reflexivity|]. simpl. rewrite H. exact IH.
Qed.

(** X6. [render] paints no selection rectangle when the range is
    collapsed ([startIndex = endIndex]) or reversed
    ([endIndex < startIndex]). *)
Theorem render_no_selection_when_collapsed (P : Platform)
    (payload : option IDrawOption.t) (d : Draw.t) :
  wf d ->
  (IRange.endIndex (getRange d) <= IRange.startIndex (getRange d))%Z ->
  exists d' calls,
    render P payload d = Some (d', calls)
    /\ forall x y w h, ~ In (RangeRender x y w h) calls.
Proof.
  intros Hwf Hle.
  destruct (render_eq P payload d Hwf)
    as (d1 & d' & calls & _ & Hrun & _ & _ & _ & Hr & _ & _ & _ & _ & Hsel & _).
  destruct (paintAll_painted P d1) as [(_ & _ & Hp) _].
  exists d', calls. split; [exact Hrun|].
  assert (Hnone : selectionPainted calls = []).
  { rewrite Hsel, Hp, filter_none; [reflexivity|].
    intros p. rewrite Hr. unfold inSelection. unfold getRange in Hle.
    destruct (Z.eqb_spec (IRange.startIndex (Draw.range d)) (IRange.endIndex (Draw.range d)));
      [reflexivity|]. simpl.
    destruct (Z.ltb_spec (IRange.startIndex (Draw.range d)) (IElementPosition.index p));
      [|reflexivity]. simpl. apply Z.leb_gt. lia. }
  intros x y w h Hin.
  assert (Hin' : In (RangeRender x y w h) (selectionPainted calls)).
  { unfold selectionPainted. apply filter_In. split; [exact Hin|reflexivity]. }
  rewrite Hnone in Hin'. exact Hin'.
Qed.

Lemma render_no_selection_when_collapsed_witness :
  wf Sample.abc
  /\ (IRange.endIndex (getRange Sample.abc) <= IRange.startIndex (getRange Sample.abc))%Z
  /\ exists d' calls,
       render Sample.host None Sample.abc = Some (d', calls)
       /\ forall x y w h, ~ In (RangeRender x y w h) calls.
Proof.
  assert (H : wf Sample.abc) by (unfold wf; simpl; repeat constructor).
  assert (H' : (IRange.endIndex (getRange Sample.abc)
                <= IRange.startIndex (getRange Sample.abc))%Z) by (simpl; lia).
  split; [exact H|]. split; [exact H'|].
  exact (render_no_selection_when_collapsed Sample.host None Sample.abc H H').
Defined.

(** ** From the element sequence to the position list *)

(** The row elements are the copies of the elements, in order. *)
Lemma layout_copies (P : Platform) (d : Draw.t) :
  wf d ->
  exists d', _computeRowList P d = Some d'
             /\ Forall2 (copyOf (Draw.objs d)) (Draw.elementList d)
                        (rowElements (Draw.rowList d')).
Proof.
  intros Hwf.
  destruct (computeRowList_rule P d
              (fun done st =>
                 Forall2 (copyOf (Draw.objs d)) done (rowElements (l_rows st))
                 /\ length (l_objs st) = length (Draw.objs d)
                 /\ (forall l x, Draw.objs d !! l = Some x ->
                       exists x', l_objs st !! l = Some x' /\ sameButSize x x')))
    as (st' & Hrun & (Hall & _) & _).
  - exact Hwf.
  - simpl. split; [|split; [reflexivity|]].
    + unfold initialRows. destruct (Draw.elementList d); constructor.
    + intros l x Hl. exists x. split; [exact Hl|apply sameButSize_refl].
  - intros done1 k r st1 rs cur e (Hall & Hlen & Hframe) Hrows Hr.
    split; [|split].
    + rewrite rowElements_step, <- Hrows. apply Forall2_app; [exact Hall|].
      constructor; [|constructor].
      destruct (lookup_lt_is_Some_2 (Draw.objs d) r) as [e0 He0].
      { rewrite <- Hlen. eapply lookup_lt_Some. exact Hr. }
      destruct (Hframe r e0 He0) as (x' & Hx' & Hs).
      rewrite Hr in Hx'. inversion Hx'; subst x'.
      exists e0. split; [exact He0|].
      eapply sameButSize_trans; [exact Hs|apply buildRowElement_sameButSize].
    + rewrite stepResult_length. exact Hlen.
    + intros l x Hl. destruct (Hframe l x Hl) as (x1 & Hl1 & Hs1).
      destruct (stepResult_objs P (Draw.options d) (innerWidthOf P d) k r e rs cur st1
                  l x1 Hr Hl1) as (x2 & Hl2 & Hs2 & _).
      exists x2. split; [exact Hl2|]. eapply sameButSize_trans; eassumption.
  - eexists. split; [exact Hrun|]. exact Hall.
Qed.

Lemma sameButSize_value e e' :
  sameButSize e e' -> IElement.value e' = IElement.value e.
Proof.
  unfold sameButSize. intros H. apply (f_equal IElement.value) in H. simpl in H.
  symmetry. exact H.
Qed.

(** The paint loops push one entry for each row element, in order. *)
Lemma paintRows_entries canvas opts range (rows : list IRow.t) (ps0 : paint) :
  p_positionList ps0 = [] ->
  Forall2 entryFor (rowElements rows)
          (p_positionList (paintRows canvas opts range 0 rows ps0)).
Proof.
  intros H0.
  apply (paintRows_rule
           (fun done ps => Forall2 entryFor (rowElements done) (p_positionList ps))
           canvas opts range rows [] 0 ps0 eq_refl).
  - rewrite H0. constructor.
  - intros done1 row rest ps1 _ HQ. unfold paintRow. simpl.
    rewrite rowElements_app. unfold rowElements at 2. simpl. rewrite app_nil_r.
    apply (paintElements_rule
             (fun doneE ps => Forall2 entryFor (rowElements done1 ++ doneE)
                                      (p_positionList ps))
             range (length done1) row (IRow.elementList row) [] 0 _ eq_refl).
    + simpl. rewrite app_nil_r. exact HQ.
    + intros doneE e restE ps2 _ HQ2. rewrite paintElement_entry, app_assoc.
      apply Forall2_app; [exact HQ2|]. constructor; [|constructor].
      split; reflexivity.
Qed.

Lemma Forall2_compose {A B C} (R : A -> B -> Prop) (S : B -> C -> Prop)
    (T : A -> C -> Prop) (la : list A) (lb : list B) (lc : list C) :
  (forall a b c, R a b -> S b c -> T a c) ->
  Forall2 R la lb -> Forall2 S lb lc -> Forall2 T la lc.
Proof.
  intros H HR. revert lc. induction HR as [|a b la lb Hab _ IH]; intros lc HS.
  - inversion HS. constructor.
  - inversion HS; subst. constructor; [eapply H; eassumption|apply IH; assumption].
Qed.

(** X7. A render that recomputes the layout gives every element of the
    sequence one position entry: the position list is as long as the
    element sequence, and its entry [i] has the index [i] and the value
    of the element [elementList[i]]. No element is skipped, repeated or
    reordered on the way from the sequence through the rows to the
    position list. *)
Theorem render_positions_follow_elements (P : Platform)
    (payload : option IDrawOption.t) (d : Draw.t) :
  wf d ->
  default true (payload ≫= IDrawOption.isComputeRowList) = true ->
  exists d' calls,
    render P payload d = Some (d', calls)
    /\ Forall2 (positionOf (Draw.objs d)) (Draw.elementList d) (Draw.positionList d')
    /\ length (Draw.positionList d') = length (Draw.elementList d)
    /\ forall i p, Draw.positionList d' !! i = Some p ->
                   IElementPosition.index p = Z.of_nat i.
Proof.
  intros Hwf Hlay.
  destruct (render_full P payload d Hwf)
    as (d1 & d' & calls & Hlay1 & Hrun & _ & _ & _ & _ & _ & _ & _ & _ & Hpos & _).
  rewrite Hlay in Hlay1.
  destruct (renderLayout_shape P d Hwf) as (d0 & d1' & Hrun0 & Hrun1 & _ & Hd1).
  rewrite Hlay1 in Hrun1. inversion Hrun1; subst d1'.
  destruct (layout_copies P d Hwf) as (d0' & Hrun0' & Hcopies).
  rewrite Hrun0 in Hrun0'. inversion Hrun0'; subst d0'.
  assert (Hrows : Draw.rowList d1 = Draw.rowList d0)
    by (destruct Hd1 as [->|[_ ->]]; reflexivity).
  assert (Hall : Forall2 (positionOf (Draw.objs d)) (Draw.elementList d)
                         (Draw.positionList d')).
  { rewrite Hpos. unfold paintAll. rewrite Hrows.
    eapply Forall2_compose; [|exact Hcopies|apply paintRows_entries; reflexivity].
    intros r re p (e & He & Hs) [Hv _]. exists e. split; [exact He|].
    rewrite Hv. apply sameButSize_value. exact Hs. }
  exists d', calls. split; [exact Hrun|]. split; [exact Hall|]. split.
  - symmetry. eapply Forall2_length. exact Hall.
  - destruct (paintAll_painted P d1) as [(_ & Hidx & _) _]. rewrite Hpos. exact Hidx.
Qed.

Lemma render_positions_follow_elements_witness :
  wf Sample.overflow
  /\ default true (None ≫= IDrawOption.isComputeRowList) = true
  /\ exists d' calls,
       render Sample.host None Sample.overflow = Some (d', calls)
       /\ Forall2 (positionOf (Draw.objs Sample.overflow))
                  (Draw.elementList Sample.overflow) (Draw.positionList d')
       /\ length (Draw.positionList d') = length (Draw.elementList Sample.overflow).
Proof.
  assert (H : wf Sample.overflow) by (unfold wf; simpl; repeat constructor).
  split; [exact H|]. split; [reflexivity|].
  destruct (render_positions_follow_elements Sample.host None Sample.overflow H eq_refl)
    as (d' & calls & Hrun & Hall & Hlen & _).
  exists d', calls. auto.
Defined.

(** ** The default range *)

(** X8. [_setDefaultRange] schedules nothing for an empty sequence. The
    task it schedules otherwise leaves a collapsed range at the last
    index of the sequence, which is where a render that follows puts the
    cursor of its own accord: that render paints no selection, and its
    cursor position is the last position entry, whose index is the
    range's. *)
Theorem default_range_matches_cursor (P : Platform) (d : Draw.t) :
  wf d ->
  match _setDefaultRange d with
  | None => Draw.elementList d = []
  | Some task =>
      exists d' calls p,
        render P None (task d) = Some (d', calls)
        /\ IRange.startIndex (getRange d') = IRange.endIndex (getRange d')
        /\ IRange.startIndex (getRange d') = (Z.of_nat (length (Draw.elementList d)) - 1)%Z
        /\ (forall x y w h, ~ In (RangeRender x y w h) calls)
        /\ Draw.cursorPosition d' = Some p
        /\ last (Draw.positionList d') = Some p
        /\ IElementPosition.index p = IRange.startIndex (getRange d')
  end.
Proof.
  intros Hwf. unfold _setDefaultRange.
  destruct (Draw.elementList d) as [|r0 refs] eqn:E; [reflexivity|].
  assert (Hwf2 : wf (defaultRangeTask d)) by exact Hwf.
  destruct (render_full P None (defaultRangeTask d) Hwf2)
    as (d1 & d' & calls & Hlay1 & Hrun & _ & _ & _ & _ & _ & _ & Hr & _ & Hpos & Hcur
        & Hcalls & _).
  simpl in Hlay1, Hcur, Hcalls.
  destruct (renderLayout_keeps P (defaultRangeTask d) true Hwf2)
    as (d1' & Hlay1' & _ & _ & _ & _ & Hr1 & _).
  simpl in Hlay1'. rewrite Hlay1 in Hlay1'. inversion Hlay1'; subst d1'.
  destruct (renderLayout_shape P (defaultRangeTask d) Hwf2)
    as (d0 & d1' & Hrun0 & Hrun1 & _ & Hd1).
  rewrite Hlay1 in Hrun1. inversion Hrun1; subst d1'.
  destruct (layout_copies P (defaultRangeTask d) Hwf2) as (d0' & Hrun0' & Hcopies).
  rewrite Hrun0 in Hrun0'. inversion Hrun0'; subst d0'.
  assert (Hrows : Draw.rowList d1 = Draw.rowList d0)
    by (destruct Hd1 as [->|[_ ->]]; reflexivity).
  destruct (paintAll_painted P d1) as [(_ & Hidx & Hsel) Hlen].
  assert (Hn : length (p_positionList (paintAll P d1)) = length (Draw.elementList d)).
  { rewrite Hlen, Hrows, placed_rowElements.
    symmetry. apply (Forall2_length _ _ _ Hcopies). }
  rewrite positionAt_last in Hcur.
  assert (Hlast : exists p, last (p_positionList (paintAll P d1)) = Some p).
  { destruct (p_positionList (paintAll P d1)) as [|p l] eqn:El.
    - rewrite E in Hn. simpl in Hn. discriminate.
    - rewrite last_lookup. apply lookup_lt_is_Some_2. simpl. lia. }
  destruct Hlast as [p Hp].
  exists d', calls, p. split; [exact Hrun|].
  unfold getRange. rewrite Hr, Hr1. unfold defaultRangeTask, setRange. simpl.
  rewrite E. split; [reflexivity|]. split; [reflexivity|]. split; [|split; [|split]].
  - intros x y w h Hin.
    assert (Hin' : In (RangeRender x y w h) (selectionPainted calls)).
    { unfold selectionPainted. apply filter_In. split; [exact Hin|reflexivity]. }
    rewrite Hcalls in Hin'. unfold selectionPainted in Hin'.
    rewrite !List.filter_app in Hin'. simpl in Hin'.
    destruct (bool_decide (is_Some (Draw.searchMatchList d1))); simpl in Hin';
      rewrite ?app_nil_r in Hin'.
    + change (In (RangeRender x y w h) (selectionPainted (p_calls (paintAll P d1)))) in Hin'.
      rewrite Hsel, filter_none in Hin'; [exact Hin'|].
      intros q. unfold inSelection. rewrite Hr1. simpl. rewrite Z.eqb_refl. reflexivity.
    + change (In (RangeRender x y w h) (selectionPainted (p_calls (paintAll P d1)))) in Hin'.
      rewrite Hsel, filter_none in Hin'; [exact Hin'|].
      intros q. unfold inSelection. rewrite Hr1. simpl. rewrite Z.eqb_refl. reflexivity.
  - rewrite Hcur. exact Hp.
  - rewrite Hpos. exact Hp.
  - rewrite last_lookup in Hp. rewrite (Hidx _ _ Hp), Hn, E. simpl. lia.
Qed.

Lemma default_range_matches_cursor_witness :
  wf Sample.abc /\
  exists task d' calls p,
    _setDefaultRange Sample.abc = Some task
    /\ render Sample.host None (task Sample.abc) = Some (d', calls)
    /\ Draw.cursorPosition d' = Some p
    /\ IElementPosition.index p = 2%Z.
Proof.
  assert (H : wf Sample.abc) by (unfold wf; simpl; repeat constructor).
  split; [exact H|].
  pose proof (default_range_matches_cursor Sample.host Sample.abc H) as T.
  simpl in T. destruct T as (d' & calls & p & Hrun & _ & Hs & _ & Hc & _ & Hi).
  exists defaultRangeTask, d', calls, p. split; [reflexivity|].
  split; [exact Hrun|]. split; [exact Hc|]. rewrite Hi, Hs. reflexivity.
Defined.

(** ** More on the layout loop *)

Section LayoutIndexed.

Variable P : Platform.
Variable opts : IEditorOption.t.
Variable innerWidth : JS.number.

(** The loop rule with the index of the iteration: the element [r] is
    laid out at the index that is the number of elements before it. *)
Lemma layoutFrom_rule_indexed (Q : list loc -> layout -> Prop) (refs : list loc) :
  forall (done : list loc) (i : nat) (st : layout),
    i = length done ->
    Forall (fun r => r < length (l_objs st)) refs ->
    (l_rows st <> [] \/ refs = []) ->
    Q done st ->
    (forall done1 r rest st1 rs cur e,
        done1 ++ r :: rest = done ++ refs ->
        Q done1 st1 -> l_rows st1 = rs ++ [cur] -> l_objs st1 !! r = Some e ->
        Q (done1 ++ [r]) (stepResult P opts innerWidth (length done1) r e rs cur st1)) ->
    exists st', layoutFrom P opts innerWidth i refs st = Some st'
                /\ Q (done ++ refs) st'.
Proof.
  induction refs as [|r refs IH]; intros done i st Hi Hwf Hne HQ Hstep.
  - exists st. simpl. rewrite app_nil_r. auto.
  - destruct Hne as [Hne|Hne]; [|discriminate].
    destruct (nonempty_snoc _ Hne) as (rs & cur & Hrows).
    inversion Hwf as [|? ? Hr Hwf']; subst.
    destruct (lookup_lt_is_Some_2 _ _ Hr) as [e He].
    simpl. rewrite (layoutStep_eq P opts innerWidth (length done) r st rs cur e Hrows He).
    simpl.
    destruct (IH (done ++ [r]) (S (length done))
                 (stepResult P opts innerWidth (length done) r e rs cur st))
      as (st' & Hrun & HQ').
    + rewrite length_app. simpl. lia.
    + rewrite stepResult_length. exact Hwf'.
    + left. apply stepResult_rows_nonempty.
    + apply (Hstep done r refs); auto.
    + intros done1 r1 rest st1 rs1 cur1 e1 Heq. apply (Hstep done1 r1 rest).
      rewrite Heq, <- app_assoc. reflexivity.
    + exists st'. split; [exact Hrun|]. rewrite <- app_assoc in HQ'. exact HQ'.
Qed.

End LayoutIndexed.

Lemma computeRowList_rule_indexed (P : Platform) (d : Draw.t)
    (Q : list loc -> layout -> Prop) :
  wf d ->
  Q [] (mkLayout (Draw.objs d) (Draw.ctxFont d) (initialRows d)) ->
  (forall done1 r rest st1 rs cur e,
      done1 ++ r :: rest = Draw.elementList d ->
      Q done1 st1 -> l_rows st1 = rs ++ [cur] -> l_objs st1 !! r = Some e ->
      Q (done1 ++ [r])
        (stepResult P (Draw.options d) (innerWidthOf P d) (length done1) r e rs cur st1)) ->
  exists st',
    _computeRowList P d
    = Some (Draw.set_rowList (l_rows st') (Draw.set_objs (l_objs st') d))
    /\ Q (Draw.elementList d) st'.
Proof.
  intros Hwf H0 Hstep. unfold _computeRowList.
  destruct (layoutFrom_rule_indexed P (Draw.options d) (innerWidthOf P d) Q
              (Draw.elementList d) [] 0
              (mkLayout (Draw.objs d) (Draw.ctxFont d) (initialRows d)))
    as (st' & Hrun & HQ); try assumption; try reflexivity.
  - simpl. destruct (Draw.elementList d) eqn:E; [right; reflexivity|left].
    apply wf_initial. rewrite E. discriminate.
  - exists st'. rewrite Hrun. simpl. auto.
Qed.

(** ** The number of rows *)

(** X9. After a layout pass [getRowCount()] is 0 for an empty sequence
    and between 1 and the number of elements plus 1 otherwise. Every row
    but the first holds at least one element; the first row is left
    without elements only when the first element, alone on the empty row,
    already exceeds the available width, and that element then opens the
    second row. *)
Theorem row_count_bounds (P : Platform) (d : Draw.t) :
  wf d ->
  exists d', _computeRowList P d = Some d'
    /\ match Draw.rowList d' with
       | [] => Draw.elementList d = [] /\ getRowCount d' = 0
       | r0 :: rest =>
           Draw.elementList d <> []
           /\ 1 <= getRowCount d' <= length (Draw.elementList d) + 1
           /\ Forall (fun r => IRow.elementList r <> []) rest
           /\ (IRow.elementList r0 = [] ->
               exists r1 rest' re tl,
                 rest = r1 :: rest'
                 /\ IRow.elementList r1 = re :: tl
                 /\ JS.gt (JS.add (JS.of_Z 0) (IElementMetrics.width (IRowElement.metrics re)))
                          (innerWidthOf P d) = true)
       end.
Proof.
  intros Hwf.
  destruct (computeRowList_rule_indexed P d
              (fun done st =>
                 match l_rows st with
                 | [] => done = [] /\ Draw.elementList d = []
                 | r0 :: rest =>
                     Draw.elementList d <> []
                     /\ length rest <= length done
                     /\ Forall (fun r => IRow.elementList r <> []) rest
                     /\ (done = [] -> rest = [] /\ r0 = firstRow d)
                     /\ (IRow.elementList r0 = [] -> done <> [] ->
                         exists r1 rest' re tl,
                           rest = r1 :: rest'
                           /\ IRow.elementList r1 = re :: tl
                           /\ JS.gt (JS.add (JS.of_Z 0)
                                       (IElementMetrics.width (IRowElement.metrics re)))
                                    (innerWidthOf P d) = true)
                 end))
    as (st' & Hrun & HQ).
  - exact Hwf.
  - simpl. unfold initialRows. destruct (Draw.elementList d) eqn:E; [auto|].
    split; [discriminate|]. split; [simpl; lia|]. split; [constructor|].
    split; [auto|]. intros _ H. congruence.
  - intros done1 r rest st1 rs cur e Heq HQ Hrows Hr.
    rewrite Hrows in HQ.
    assert (Hnew : forall re, IRow.elementList (newRow (Draw.options d) re) <> [])
      by (intros re; simpl; discriminate).
    assert (Hgrow : forall c re, IRow.elementList (growRow (Draw.options d) c re) <> [])
      by (intros c re; simpl; intros H; apply app_eq_nil in H; destruct H; discriminate).
    unfold stepResult.
    destruct (buildRowElement P (Draw.options d) (innerWidthOf P d) cur r e st1)
      as [[re objs'] font']. simpl.
    destruct rs as [|a rs]; simpl in HQ.
    + destruct HQ as (Hne & Hlen & Hall & Hstart & Hempty).
      destruct (breaksRow P (innerWidthOf P d) (length done1) cur re) eqn:Hb; simpl.
      * split; [exact Hne|]. split; [rewrite length_app; simpl; lia|].
        split; [repeat constructor; apply Hnew|].
        split; [intros H; apply app_eq_nil in H; destruct H; discriminate|].
        intros Hcur _. exists (newRow (Draw.options d) re), [], re, [].
        split; [reflexivity|]. split; [reflexivity|].
        destruct done1 as [|x done1].
        -- destruct (Hstart eq_refl) as [_ ->]. unfold breaksRow in Hb. simpl in Hb.
           rewrite orb_false_r in Hb. exact Hb.
        -- exfalso. assert (Hd : x :: done1 <> []) by discriminate.
           destruct (Hempty Hcur Hd) as (r1 & rest' & _ & _ & Hr1 & _). discriminate.
      * split; [exact Hne|]. split; [simpl; lia|]. split; [constructor|].
        split; [intros H; apply app_eq_nil in H; destruct H; discriminate|].
        intros H. exfalso. exact (Hgrow cur re H).
    + destruct HQ as (Hne & Hlen & Hall & Hstart & Hempty).
      assert (Hd : done1 <> []).
      { intros ->. destruct (Hstart eq_refl) as [H _].
        destruct rs; discriminate. }
      apply Forall_app in Hall. destruct Hall as [Hrs Hcur].
      destruct (breaksRow P (innerWidthOf P d) (length done1) cur re); simpl.
      * split; [exact Hne|].
        split; [rewrite !length_app in *; simpl in *; lia|].
        split; [apply Forall_app; split; [exact Hrs|];
                inversion Hcur; subst; repeat constructor; auto|].
        split; [intros H; apply app_eq_nil in H; destruct H; discriminate|].
        intros Ha _. destruct (Hempty Ha Hd) as (r1 & rest' & re1 & tl & Heq1 & He1 & Hgt).
        destruct rs as [|b rs]; simpl in Heq1; inversion Heq1; subst.
        -- exists r1, [newRow (Draw.options d) re], re1, tl. auto.
        -- exists r1, (rs ++ [cur; newRow (Draw.options d) re]), re1, tl. auto.
      * split; [exact Hne|].
        split; [rewrite !length_app in *; simpl in *; lia|].
        split; [apply Forall_app; split; [exact Hrs|]; repeat constructor; apply Hgrow|].
        split; [intros H; apply app_eq_nil in H; destruct H; discriminate|].
        intros Ha _. destruct (Hempty Ha Hd) as (r1 & rest' & re1 & tl & Heq1 & He1 & Hgt).
        destruct rs as [|b rs]; simpl in Heq1; inversion Heq1; subst.
        -- exists (growRow (Draw.options d) r1 re), [], re1, (tl ++ [re]).
           split; [reflexivity|]. split; [simpl; rewrite He1; reflexivity|exact Hgt].
        -- exists r1, (rs ++ [growRow (Draw.options d) cur re]), re1, tl. auto.
  - eexists. split; [exact Hrun|]. simpl. unfold getRowCount. simpl.
    destruct (l_rows st') as [|r0 rest].
    + destruct HQ as [_ HQ]. auto.
    + destruct HQ as (Hne & Hlen & Hall & _ & Hempty).
      split; [exact Hne|]. split; [simpl; lia|]. split; [exact Hall|].
      intros H0. apply Hempty; assumption.
Qed.

Lemma row_count_bounds_witness :
  wf Sample.hidden /\
  exists d', _computeRowList Sample.host Sample.hidden = Some d'
             /\ getRowCount d' = 2.
Proof.
  assert (H : wf Sample.hidden) by (unfold wf; simpl; repeat constructor).
  split; [exact H|].
  destruct (row_count_bounds Sample.host Sample.hidden H) as (d' & Hrun & _).
  exists d'. split; [exact Hrun|].
  pose proof Hrun as E. vm_compute in E. inversion E; subst d'. reflexivity.
Defined.

(** ** The width and the height of a row *)

Lemma sumWidths_snoc start els re :
  sumWidths start (els ++ [re])
  = JS.add (sumWidths start els) (IElementMetrics.width (IRowElement.metrics re)).
Proof. unfold sumWidths. rewrite fold_left_app. reflexivity. Qed.

(** X10. After a layout pass the width of every row is the sum of the
    measured widths of its elements, added left to right in doubles:
    starting from 0 for the first row (which is 0 wide when empty), and
    from the width of its first element for every later row. *)
Theorem row_width_is_sum_of_widths (P : Platform) (d : Draw.t) :
  wf d ->
  exists d', _computeRowList P d = Some d'
    /\ match Draw.rowList d' with
       | [] => True
       | r0 :: rest => widthOfLeading r0 /\ Forall widthOfOpened rest
       end.
Proof.
  intros Hwf.
  destruct (computeRowList_rule P d
              (fun _ st => exists r0 rest, l_rows st = r0 :: rest
                                           /\ widthOfLeading r0
                                           /\ Forall widthOfOpened rest
                           \/ l_rows st = []))
    as (st' & Hrun & HQ & _).
  - exact Hwf.
  - simpl. unfold initialRows. destruct (Draw.elementList d).
    + exists (firstRow d), []. right. reflexivity.
    + exists (firstRow d), []. left. split; [reflexivity|]. split; [reflexivity|constructor].
  - intros done1 k r st1 rs cur e (r0 & rest & HQ) Hrows _.
    destruct HQ as [(Heq & H0 & Hrest)|Heq];
      [|rewrite Hrows in Heq; destruct rs; discriminate].
    rewrite Hrows in Heq.
    assert (Hnew : forall re, widthOfOpened (newRow (Draw.options d) re))
      by (intros re; exists re, []; split; reflexivity).
    unfold stepResult.
    destruct (buildRowElement P (Draw.options d) (innerWidthOf P d) cur r e st1)
      as [[re objs'] font']. simpl.
    destruct rs as [|a rs]; simpl in Heq; inversion Heq; subst; clear Heq.
    + destruct (breaksRow P (innerWidthOf P d) k r0 re); simpl.
      * exists r0, [newRow (Draw.options d) re]. left. repeat split; auto.
      * exists (growRow (Draw.options d) r0 re), []. left.
        split; [reflexivity|]. split; [|constructor].
        unfold widthOfLeading in *. simpl. rewrite sumWidths_snoc, H0. reflexivity.
    + apply Forall_app in Hrest. destruct Hrest as [Hrs Hcur].
      inversion Hcur as [|? ? Hc _]; subst.
      destruct (breaksRow P (innerWidthOf P d) k cur re); simpl.
      * exists r0, (rs ++ [cur; newRow (Draw.options d) re]). left.
        split; [reflexivity|]. split; [exact H0|].
        apply Forall_app. split; [exact Hrs|]. repeat constructor; auto.
      * exists r0, (rs ++ [growRow (Draw.options d) cur re]). left.
        split; [reflexivity|]. split; [exact H0|].
        apply Forall_app. split; [exact Hrs|]. constructor; [|constructor].
        destruct Hc as (e0 & tl & He & Hw). exists e0, (tl ++ [re]). simpl.
        rewrite He. split; [reflexivity|]. rewrite sumWidths_snoc, Hw. reflexivity.
  - eexists. split; [exact Hrun|]. simpl.
    destruct HQ as (r0 & rest & [(Heq & H0 & Hrest)|Heq]); rewrite Heq; auto.
Qed.

Lemma row_width_is_sum_of_widths_witness :
  wf Sample.abc /\
  exists d' r0 r1,
    _computeRowList Sample.host Sample.abc = Some d'
    /\ Draw.rowList d' = [r0; r1]
    /\ widthOfLeading r0 /\ widthOfOpened r1.
Proof.
  assert (H : wf Sample.abc) by (unfold wf; simpl; repeat constructor).
  split; [exact H|].
  destruct (row_width_is_sum_of_widths Sample.host Sample.abc H) as (d' & Hrun & Hw).
  pose proof Hrun as E. vm_compute in E. inversion E; subst d'; clear E.
  simpl in Hw. destruct Hw as [H0 Hrest].
  inversion Hrest as [|? ? H1 _]; subst.
  eexists _, _, _. split; [exact Hrun|]. split; [reflexivity|]. split; assumption.
Defined.

(** The order of doubles is transitive and irreflexive. *)
Lemma SFltb_irrefl (x : spec_float) : SFltb x x = false.
Proof.
  unfold SFltb, SFcompare. destruct x as [s|s| |s m e]; try destruct s; try reflexivity;
    rewrite Z.compare_refl;
    change (Pos.compare_cont Eq m m) with (Pos.compare m m);
    rewrite Pos.compare_refl; reflexivity.
Qed.

Lemma finite_lt_trans (m1 m2 m3 : positive) (e1 e2 e3 : Z) :
  match (e1 ?= e2)%Z with Lt => Lt | Gt => Gt | Eq => Pos.compare m1 m2 end = Lt ->
  match (e2 ?= e3)%Z with Lt => Lt | Gt => Gt | Eq => Pos.compare m2 m3 end = Lt ->
  match (e1 ?= e3)%Z with Lt => Lt | Gt => Gt | Eq => Pos.compare m1 m3 end = Lt.
Proof.
  destruct (Z.compare_spec e1 e2), (Z.compare_spec e2 e3), (Z.compare_spec e1 e3);
    try discriminate; try reflexivity; try lia; subst;
    destruct (Pos.compare_spec m1 m2), (Pos.compare_spec m2 m3), (Pos.compare_spec m1 m3);
    try discriminate; try reflexivity; lia.
Qed.

Lemma finite_gt_trans (m1 m2 m3 : positive) (e1 e2 e3 : Z) :
  match (e1 ?= e2)%Z with Lt => Gt | Gt => Lt | Eq => CompOpp (Pos.compare m1 m2) end = Lt ->
  match (e2 ?= e3)%Z with Lt => Gt | Gt => Lt | Eq => CompOpp (Pos.compare m2 m3) end = Lt ->
  match (e1 ?= e3)%Z with Lt => Gt | Gt => Lt | Eq => CompOpp (Pos.compare m1 m3) end = Lt.
Proof.
  destruct (Z.compare_spec e1 e2), (Z.compare_spec e2 e3), (Z.compare_spec e1 e3);
    try discriminate; try reflexivity; try lia; subst;
    destruct (Pos.compare_spec m1 m2), (Pos.compare_spec m2 m3), (Pos.compare_spec m1 m3);
    simpl; try discriminate; try reflexivity; lia.
Qed.

Lemma SFltb_trans (x y z : spec_float) :
  SFltb x y = true -> SFltb y z = true -> SFltb x z = true.
Proof.
  unfold SFltb, SFcompare.
  destruct x as [sx|sx| |sx mx ex], y as [sy|sy| |sy my ey], z as [sz|sz| |sz mz ez];
    try destruct sx; try destruct sy; try destruct sz;
    try discriminate; try reflexivity;
    change (Pos.compare_cont Eq) with Pos.compare; intros H1 H2.
  - rewrite (finite_gt_trans mx my mz ex ey ez); [reflexivity| |].
    + destruct (_ : comparison) in H1 |- *; try discriminate; reflexivity.
    + destruct (_ : comparison) in H2 |- *; try discriminate; reflexivity.
  - rewrite (finite_lt_trans mx my mz ex ey ez); [reflexivity| |].
    + destruct (_ : comparison) in H1 |- *; try discriminate; reflexivity.
    + destruct (_ : comparison) in H2 |- *; try discriminate; reflexivity.
Qed.

Lemma growRow_covers opts cur re :
  rowCoversElements opts cur -> rowCoversElements opts (growRow opts cur re).
Proof.
  unfold rowCoversElements. intros H. simpl.
  destruct (JS.lt (IRow.height cur) (heightOf opts re)) eqn:Hlt.
  - apply Forall_app. split.
    + eapply Forall_impl; [exact H|]. intros e He. simpl in He.
      destruct (JS.lt (heightOf opts re) (heightOf opts e)) eqn:Hlt2; [|reflexivity].
      unfold JS.lt in *. rewrite (SFltb_trans _ _ _ Hlt Hlt2) in He. discriminate.
    + constructor; [apply SFltb_irrefl|constructor].
  - apply Forall_app. split; [exact H|]. constructor; [exact Hlt|constructor].
Qed.

(** X11. After a layout pass no element is higher than its row: for every
    row and every element on it, [row.height < height] is false, where
    [height] is the element's ascent plus descent, row margins included
    (this holds also when a height is NaN). *)
Theorem row_height_covers_elements (P : Platform) (d : Draw.t) :
  wf d ->
  exists d', _computeRowList P d = Some d'
             /\ Forall (rowCoversElements (Draw.options d)) (Draw.rowList d').
Proof.
  intros Hwf.
  destruct (computeRowList_rule P d
              (fun _ st => Forall (rowCoversElements (Draw.options d)) (l_rows st)))
    as (st' & Hrun & HQ & _).
  - exact Hwf.
  - simpl. unfold initialRows. destruct (Draw.elementList d); repeat constructor.
  - intros done1 k r st1 rs cur e HQ Hrows _. rewrite Hrows in HQ.
    apply Forall_app in HQ. destruct HQ as [Hrs Hcur].
    inversion Hcur as [|? ? Hc _]; subst.
    unfold stepResult.
    destruct (buildRowElement P (Draw.options d) (innerWidthOf P d) cur r e st1)
      as [[re objs'] font']. simpl.
    destruct (breaksRow P (innerWidthOf P d) k cur re); apply Forall_app; split;
      try exact Hrs.
    + constructor; [exact Hc|]. constructor; [|constructor].
      unfold rowCoversElements. simpl. constructor; [apply SFltb_irrefl|constructor].
    + constructor; [|constructor]. apply growRow_covers. exact Hc.
  - eexists. split; [exact Hrun|]. exact HQ.
Qed.

Lemma row_height_covers_elements_witness :
  wf Sample.full /\
  exists d', _computeRowList Sample.host Sample.full = Some d'
             /\ Forall (rowCoversElements (Draw.options Sample.full)) (Draw.rowList d').
Proof.
  assert (H : wf Sample.full) by (unfold wf; simpl; repeat constructor).
  split; [exact H|]. exact (row_height_covers_elements Sample.host Sample.full H).
Defined.

(** ** A sequence without images *)

Lemma textOnly_lookup (d : Draw.t) (l : loc) (x : IElement.t) :
  textOnly d -> In l (Draw.elementList d) -> Draw.objs d !! l = Some x ->
  IElement.isImage x = false.
Proof.
  unfold textOnly. rewrite Forall_forall. intros H Hin Hl.
  destruct (H l (proj2 (list_elem_of_In _ _) Hin)) as (e & He & Hi). congruence.
Qed.

(** X12. On a sequence without images the layout pass is read-only and
    idempotent: it leaves the store exactly as it was, and run again on
    the state it left it leaves that state. *)
Theorem layout_of_text_is_read_only (P : Platform) (d : Draw.t) :
  wf d ->
  textOnly d ->
  exists d', _computeRowList P d = Some d'
             /\ Draw.objs d' = Draw.objs d
             /\ _computeRowList P d' = Some d'.
Proof.
  intros Hwf Htext.
  destruct (computeRowList_frame P d Hwf) as (d' & Hrun & Hd' & Hlen & Hframe & Hother).
  assert (Hobjs : Draw.objs d' = Draw.objs d).
  { apply list_eq. intros l.
    destruct (In_dec Nat.eq_dec l (Draw.elementList d)) as [Hin|Hin];
      [|apply Hother; exact Hin].
    destruct (Draw.objs d !! l) as [x|] eqn:Hl.
    - destruct (Hframe l x Hl) as (x' & Hl' & _ & Hsame).
      rewrite Hl', (Hsame (textOnly_lookup d l x Htext Hin Hl)). reflexivity.
    - apply lookup_ge_None. rewrite Hlen. apply lookup_ge_None. exact Hl. }
  exists d'. split; [exact Hrun|]. split; [exact Hobjs|].
  rewrite Hd' at 1. rewrite Hobjs at 1.
  unfold _computeRowList in *. unfold innerWidthOf, initialRows, firstRow in *. simpl.
  destruct (layoutFrom P (Draw.options d) _ 0 (Draw.elementList d) _) as [st|];
    [|discriminate].
  simpl in *. inversion Hrun; subst d'. reflexivity.
Qed.

Lemma layout_of_text_is_read_only_witness :
  wf Sample.abc /\ textOnly Sample.abc /\
  exists d', _computeRowList Sample.host Sample.abc = Some d'
             /\ Draw.objs d' = Draw.objs Sample.abc
             /\ _computeRowList Sample.host d' = Some d'.
Proof.
  assert (H : wf Sample.abc) by (unfold wf; simpl; repeat constructor).
  assert (H' : textOnly Sample.abc).
  { unfold textOnly. simpl. repeat constructor; eexists; split; reflexivity. }
  split; [exact H|]. split; [exact H'|].
  exact (layout_of_text_is_read_only Sample.host Sample.abc H H').
Defined.

(** ** The history across renders, undo and redo *)

Lemma In_seq_lt (r start len : nat) : In r (seq start len) -> start <= r < start + len.
Proof. intros H. apply in_seq in H. exact H. Qed.

(** X13. [render] keeps the history unaliased. If no recorded step
    refers to an object of the live sequence before a render, none does
    after it, the step the render may push included; every step recorded
    before is still recorded, and its elements are what they were,
    although the layout pass of the render writes to live elements. *)
Theorem render_keeps_history (P : Platform) (payload : option IDrawOption.t) (d : Draw.t) :
  wf d ->
  historyUnaliased d ->
  exists d' calls,
    render P payload d = Some (d', calls)
    /\ wf d'
    /\ historyUnaliased d'
    /\ forall step, In step (Draw.undoStack d) ->
         In step (Draw.undoStack d')
         /\ deref (Draw.objs d') (HistoryStep.oldElementList step)
            = deref (Draw.objs d) (HistoryStep.oldElementList step).
Proof.
  intros Hwf Hhist.
  destruct (render_full P payload d Hwf)
    as (d1 & d' & calls & Hlay & Hrun & Hwf1 & _ & _ & _ & He & _ & _ & _ & _ & _ & _ & Hh).
  destruct (renderLayout_keeps P d
              (default true (payload ≫= IDrawOption.isComputeRowList)) Hwf)
    as (d1' & Hlay' & _ & _ & _ & He1 & _ & Hu1 & _ & _ & _ & Hl1 & Hother & _).
  rewrite Hlay in Hlay'. inversion Hlay'; subst d1'.
  assert (Hobjs : exists vals, Draw.objs d' = Draw.objs d1 ++ vals).
  { destruct (default true (payload ≫= IDrawOption.isSubmitHistory)).
    - destruct Hh as (vals & _ & Hobjs & _). exists vals. exact Hobjs.
    - destruct Hh as [Hobjs _]. exists []. rewrite app_nil_r. exact Hobjs. }
  destruct Hobjs as [vals Hobjs].
  assert (Hold : forall step, In step (Draw.undoStack d) ->
             stepUnaliased d' step
             /\ deref (Draw.objs d') (HistoryStep.oldElementList step)
                = deref (Draw.objs d) (HistoryStep.oldElementList step)).
  { intros step Hin. unfold historyUnaliased in Hhist. rewrite Forall_forall in Hhist.
    specialize (Hhist step (proj2 (list_elem_of_In _ _) Hin)).
    unfold stepUnaliased in *. rewrite Forall_forall in Hhist. split.
    - apply Forall_forall. intros r Hr. destruct (Hhist r Hr) as [Hlt Hnot].
      rewrite Hobjs, length_app, Hl1, He, He1. split; [lia|exact Hnot].
    - apply deref_ext. intros r Hr.
      destruct (Hhist r (proj2 (list_elem_of_In _ _) Hr)) as [Hlt Hnot].
      rewrite Hobjs, lookup_app_l by lia. apply Hother. exact Hnot. }
  exists d', calls. split; [exact Hrun|]. split; [|split].
  - unfold wf in *. rewrite He, Hobjs, length_app.
    eapply Forall_impl; [exact Hwf1|]. simpl. intros. lia.
  - unfold historyUnaliased.
    destruct (default true (payload ≫= IDrawOption.isSubmitHistory)).
    + destruct Hh as (vals' & Hvals & Hobjs' & Hundo). rewrite Hundo, Hu1.
      apply Forall_app. split.
      * apply Forall_forall. intros step Hin. apply Hold, list_elem_of_In. exact Hin.
      * constructor; [|constructor]. unfold stepUnaliased. simpl.
        apply Forall_forall. intros r Hr. apply list_elem_of_In, In_seq_lt in Hr.
        rewrite Hobjs', length_app, He. split; [lia|].
        intros Hin. unfold wf in Hwf1. rewrite Forall_forall in Hwf1.
        specialize (Hwf1 r (proj2 (list_elem_of_In _ _) Hin)). simpl in Hwf1. lia.
    + destruct Hh as [_ Hundo]. rewrite Hundo, Hu1.
      apply Forall_forall. intros step Hin. apply Hold, list_elem_of_In. exact Hin.
  - intros step Hin. split; [|apply Hold; exact Hin].
    destruct (default true (payload ≫= IDrawOption.isSubmitHistory)).
    + destruct Hh as (vals' & _ & _ & Hundo). rewrite Hundo, Hu1.
      apply in_or_app. left. exact Hin.
    + destruct Hh as [_ Hundo]. rewrite Hundo, Hu1. exact Hin.
Qed.

Lemma render_keeps_history_witness :
  wf Sample2.after /\ historyUnaliased Sample2.after
  /\ In Sample2.step (Draw.undoStack Sample2.after)
  /\ exists d' calls,
       render Sample.host None Sample2.after = Some (d', calls)
       /\ wf d'
       /\ historyUnaliased d'
       /\ length (Draw.undoStack d') = 2
       /\ In Sample2.step (Draw.undoStack d')
       /\ deref (Draw.objs d') (HistoryStep.oldElementList Sample2.step)
          = deref (Draw.objs Sample2.after) (HistoryStep.oldElementList Sample2.step).
Proof.
  assert (H : wf Sample2.after).
  { unfold wf. vm_compute. repeat constructor. }
  assert (H' : historyUnaliased Sample2.after).
  { unfold historyUnaliased, stepUnaliased. vm_compute.
    repeat constructor; try lia; intros [E|[E|[]]]; discriminate. }
  assert (Hin : In Sample2.step (Draw.undoStack Sample2.after)) by (vm_compute; auto).
  split; [exact H|]. split; [exact H'|]. split; [exact Hin|].
  destruct (render_keeps_history Sample.host None Sample2.after H H')
    as (d' & calls & Hrun & Hwf & Hh & Hsteps).
  destruct (Hsteps Sample2.step Hin) as [Hin' Hsame].
  exists d', calls.
  split; [exact Hrun|]. split; [exact Hwf|]. split; [exact Hh|].
  split; [|split; [exact Hin'|exact Hsame]].
  pose proof Hrun as E. vm_compute in E. injection E as <- _. reflexivity.
Defined.

Lemma Forall2_frame (s s' : list IElement.t) (refs : list loc) (vals : list IElement.t) :
  (forall l x, s !! l = Some x -> exists x', s' !! l = Some x' /\ restored x x') ->
  Forall2 (fun r v => s !! r = Some v) refs vals ->
  exists vals', Forall2 (fun r v => s' !! r = Some v) refs vals'
                /\ Forall2 restored vals vals'.
Proof.
  intros Hframe H. induction H as [|r v refs vals Hr _ IH].
  - exists []. split; constructor.
  - destruct IH as (vals' & H1 & H2). destruct (Hframe r v Hr) as (v' & Hv' & Hres).
    exists (v' :: vals'). split; constructor; assumption.
Qed.

(** X14. Undo and redo. Invoking a recorded step of an unaliased history
    returns and restores: the range is the one of the step; the live
    sequence is a new copy of the elements of the step, equal to them up
    to the [width] and [height] that the layout pass of the closing
    render may write to images; no step is pushed; and the history is
    unaliased as before, every recorded step keeping its elements. *)
Theorem invokeStep_restores (P : Platform) (step : HistoryStep.t) (d : Draw.t) :
  historyUnaliased d ->
  In step (Draw.undoStack d) ->
  exists d' calls vals vals',
    invokeStep P step d = Some (d', calls)
    /\ deref (Draw.objs d) (HistoryStep.oldElementList step) = Some vals
    /\ deref (Draw.objs d') (Draw.elementList d') = Some vals'
    /\ Forall2 restored vals vals'
    /\ getRange d' = IRange.mk (HistoryStep.startIndex step) (HistoryStep.endIndex step)
    /\ Draw.undoStack d' = Draw.undoStack d
    /\ wf d'
    /\ historyUnaliased d'
    /\ forall s, In s (Draw.undoStack d) ->
         deref (Draw.objs d') (HistoryStep.oldElementList s)
         = deref (Draw.objs d) (HistoryStep.oldElementList s).
Proof.
  intros Hhist Hin.
  assert (Hvalid : forall s, In s (Draw.undoStack d) ->
             forall r, In r (HistoryStep.oldElementList s) -> r < length (Draw.objs d)).
  { intros s Hs r Hr. unfold historyUnaliased in Hhist. rewrite Forall_forall in Hhist.
    specialize (Hhist s (proj2 (list_elem_of_In _ _) Hs)).
    unfold stepUnaliased in Hhist. rewrite Forall_forall in Hhist.
    apply (Hhist r (proj2 (list_elem_of_In _ _) Hr)). }
  destruct (deref_Some (Draw.objs d) (HistoryStep.oldElementList step)) as [vals Hvals].
  { apply Forall_forall. intros r Hr. apply (Hvalid step Hin), list_elem_of_In. exact Hr. }
  set (payload := Some (IDrawOption.mk (Some (HistoryStep.curIndex step)) (Some false)
                                       None None)).
  set (d2 := Draw.set_elementList (seq (length (Draw.objs d)) (length vals))
               (Draw.set_objs (Draw.objs d ++ vals)
                  (setRange (HistoryStep.startIndex step) (HistoryStep.endIndex step) d))).
  assert (Hwf2 : wf d2).
  { unfold wf, d2. simpl. apply Forall_forall. intros r Hr.
    apply list_elem_of_In, In_seq_lt in Hr. rewrite length_app. lia. }
  assert (Hinv : invokeStep P step d = render P payload d2).
  { unfold invokeStep, deepClone. simpl. rewrite Hvals. reflexivity. }
  destruct (render_full P payload d2 Hwf2)
    as (d1 & d' & calls & Hlay & Hrun & Hwf1 & _ & _ & _ & He & _ & Hr & _ & _ & _ & _ & Hh).
  simpl in Hlay, Hh. destruct Hh as [Hobjs Hundo].
  destruct (renderLayout_keeps P d2 true Hwf2)
    as (d1' & Hlay' & _ & _ & _ & He1 & Hr1 & Hu1 & _ & _ & _ & Hl1 & Hother & _).
  simpl in Hlay'. rewrite Hlay in Hlay'. inversion Hlay'; subst d1'.
  destruct (renderLayout_shape P d2 Hwf2) as (d0 & d1' & Hrun0 & Hrun1 & _ & Hd1).
  rewrite Hlay in Hrun1. inversion Hrun1; subst d1'.
  destruct (computeRowList_frame P d2 Hwf2) as (d0' & Hrun0' & _ & _ & Hframe & _).
  rewrite Hrun0 in Hrun0'. inversion Hrun0'; subst d0'.
  assert (Hobjs0 : Draw.objs d1 = Draw.objs d0)
    by (destruct Hd1 as [->|[_ ->]]; reflexivity).
  destruct (Forall2_frame (Draw.objs d2) (Draw.objs d') (Draw.elementList d2) vals)
    as (vals' & Hvals' & Hres).
  { intros l x Hl. rewrite Hobjs, Hobjs0.
    destruct (Hframe l x Hl) as (x' & Hx' & Hs & Hi). exists x'. split; [exact Hx'|].
    split; assumption. }
  { apply deref_lookups. unfold d2. simpl. apply deref_seq_app. }
  assert (Hkeep : forall s, In s (Draw.undoStack d) ->
             stepUnaliased d' s
             /\ deref (Draw.objs d') (HistoryStep.oldElementList s)
                = deref (Draw.objs d) (HistoryStep.oldElementList s)).
  { intros s Hs.
    assert (Hfresh : forall r, In r (HistoryStep.oldElementList s) ->
                               ~ In r (Draw.elementList d2)).
    { intros r Hin0 Hin1. unfold d2 in Hin1. simpl in Hin1. apply In_seq_lt in Hin1.
      specialize (Hvalid s Hs r Hin0). lia. }
    split.
    - unfold stepUnaliased. apply Forall_forall. intros r Hin0.
      apply list_elem_of_In in Hin0. rewrite Hobjs, Hl1, He, He1. split.
      + unfold d2. simpl. rewrite length_app. specialize (Hvalid s Hs r Hin0). lia.
      + apply Hfresh. exact Hin0.
    - apply deref_ext. intros r Hin0. rewrite Hobjs, (Hother r (Hfresh r Hin0)).
      unfold d2. simpl. apply lookup_app_l. apply (Hvalid s Hs r Hin0). }
  exists d', calls, vals, vals'.
  split; [rewrite Hinv; exact Hrun|]. split; [exact Hvals|].
  split; [apply deref_lookups; rewrite He, He1; exact Hvals'|].
  split; [exact Hres|].
  split; [unfold getRange; rewrite Hr, Hr1; reflexivity|].
  split; [rewrite Hundo, Hu1; reflexivity|].
  split; [unfold wf in *; rewrite He, Hobjs; exact Hwf1|].
  split.
  - unfold historyUnaliased. rewrite Hundo, Hu1. apply Forall_forall. intros s Hs.
    apply Hkeep, list_elem_of_In. exact Hs.
  - intros s Hs. apply Hkeep. exact Hs.
Qed.

Lemma invokeStep_restores_witness :
  historyUnaliased Sample2.after /\ In Sample2.step (Draw.undoStack Sample2.after) /\
  exists d' calls vals vals',
    invokeStep Sample.host Sample2.step Sample2.after = Some (d', calls)
    /\ deref (Draw.objs Sample2.after) (HistoryStep.oldElementList Sample2.step) = Some vals
    /\ deref (Draw.objs d') (Draw.elementList d') = Some vals'
    /\ Forall2 restored vals vals'
    /\ Draw.undoStack d' = Draw.undoStack Sample2.after.
Proof.
  assert (H : historyUnaliased Sample2.after).
  { unfold historyUnaliased, stepUnaliased. vm_compute.
    repeat constructor; try lia; intros [E|[E|[]]]; discriminate. }
  assert (H' : In Sample2.step (Draw.undoStack Sample2.after)) by (vm_compute; auto).
  split; [exact H|]. split; [exact H'|].
  destruct (invokeStep_restores Sample.host Sample2.step Sample2.after H H')
    as (d' & calls & vals & vals' & Hrun & Hv & Hv' & Hres & _ & Hu & _).
  exists d', calls, vals, vals'.
  split; [exact Hrun|]. split; [exact Hv|]. split; [exact Hv'|].
  split; [exact Hres|exact Hu].
Defined.

(** ** The calls of the paint loops *)

(** The calls a filter keeps are, element by element, those it keeps of
    the calls made for the element. *)
Lemma paintRows_projection canvas opts range (rows : list IRow.t) (ps0 : paint)
    (sel : DrawCall -> bool)
    (g : IRowElement.t -> IElementPosition.t -> list DrawCall) :
  (forall range i curRow j re ps,
      List.filter sel (p_calls (paintElement range i curRow j re ps))
      = List.filter sel (p_calls ps) ++ g re (entryOf i curRow j re ps)) ->
  sel TextComplete = false ->
  p_positionList ps0 = [] ->
  List.filter sel (p_calls ps0) = [] ->
  List.filter sel (p_calls (paintRows canvas opts range 0 rows ps0))
  = concat (zip_with g (rowElements rows)
              (p_positionList (paintRows canvas opts range 0 rows ps0))).
Proof.
  intros Hstep Hcomplete Hpos0 Hcalls0.
  enough (H : length (rowElements rows)
              = length (p_positionList (paintRows canvas opts range 0 rows ps0))
              /\ List.filter sel (p_calls (paintRows canvas opts range 0 rows ps0))
                 = concat (zip_with g (rowElements rows)
                             (p_positionList (paintRows canvas opts range 0 rows ps0))))
    by (exact (proj2 H)).
  apply (paintRows_rule
           (fun done ps =>
              length (rowElements done) = length (p_positionList ps)
              /\ List.filter sel (p_calls ps)
                 = concat (zip_with g (rowElements done) (p_positionList ps)))
           canvas opts range rows [] 0 ps0 eq_refl).
  - rewrite Hpos0, Hcalls0. split; reflexivity.
  - intros done1 row rest ps1 _ HQ. unfold paintRow. simpl.
    rewrite rowElements_app. unfold rowElements at 2 4. simpl. rewrite app_nil_r.
    rewrite List.filter_app. simpl. rewrite Hcomplete, app_nil_r.
    apply (paintElements_rule
             (fun doneE ps =>
                length (rowElements done1 ++ doneE) = length (p_positionList ps)
                /\ List.filter sel (p_calls ps)
                   = concat (zip_with g (rowElements done1 ++ doneE) (p_positionList ps)))
             range (length done1) row (IRow.elementList row) [] 0 _ eq_refl).
    + simpl. rewrite app_nil_r. exact HQ.
    + intros doneE e restE ps2 _ [Hlen HQ2]. rewrite Hstep, paintElement_entry, app_assoc.
      split; [rewrite (length_app (_ ++ _) [e]), (length_app (p_positionList ps2)), Hlen; reflexivity|].
      rewrite zip_with_app by exact Hlen. rewrite concat_app, HQ2. simpl.
      rewrite app_nil_r. reflexivity.
Qed.

Lemma concat_zip_with_singleton {A B C} (f : A -> B -> C) (la : list A) (lb : list B) :
  concat (zip_with (fun a b => [f a b]) la lb) = zip_with f la lb.
Proof.
  revert lb. induction la as [|a la IH]; intros [|b lb]; simpl; try reflexivity.
  rewrite IH. reflexivity.
Qed.

Lemma filter_tail_calls (sel : DrawCall -> bool) (calls : list DrawCall) (b1 b2 : bool) :
  sel SearchRender = false -> sel DrawCursor = false ->
  List.filter sel ((calls ++ when b1 [SearchRender]) ++ when b2 [DrawCursor])
  = List.filter sel calls.
Proof.
  intros H1 H2. rewrite !List.filter_app.
  destruct b1, b2; simpl; rewrite ?H1, ?H2, ?app_nil_r; reflexivity.
Qed.

(** X15. Every render draws each row element exactly once, in order, and
    where its position entry says: an image by a call to the image
    particle, any other element by a record on the text particle, at the
    left edge of the entry and [ascent] below its top. *)
Theorem render_draws_each_element_once (P : Platform)
    (payload : option IDrawOption.t) (d : Draw.t) :
  wf d ->
  exists d' calls,
    render P payload d = Some (d', calls)
    /\ List.filter isDraw calls
       = zip_with drawCallFor (rowElements (Draw.rowList d')) (Draw.positionList d').
Proof.
  intros Hwf.
  destruct (render_full P payload d Hwf)
    as (d1 & d' & calls & _ & Hrun & _ & _ & _ & _ & _ & Hrows & _ & _ & Hpos & _ & Hcalls & _).
  exists d', calls. split; [exact Hrun|].
  rewrite Hcalls, filter_tail_calls by reflexivity.
  rewrite Hrows, Hpos, <- concat_zip_with_singleton.
  unfold paintAll. apply paintRows_projection; try reflexivity.
  intros range i curRow j re ps. unfold paintElement, entryOf, drawCallFor, offsetYOf.
    simpl. rewrite !List.filter_app.
    destruct (JS.flag (IElement.underline (IRowElement.element re))),
             (JS.flag (IElement.strikeout (IRowElement.element re))),
             (strTruthy (IElement.highlight (IRowElement.element re))),
             (IElement.isImage (IRowElement.element re)),
             (inSelection range (p_index ps)); reflexivity.
Qed.

Lemma render_draws_each_element_once_witness :
  wf Sample.overflow /\
  exists d' calls,
    render Sample.host None Sample.overflow = Some (d', calls)
    /\ List.filter isDraw calls
       = zip_with drawCallFor (rowElements (Draw.rowList d')) (Draw.positionList d').
Proof.
  assert (H : wf Sample.overflow) by (unfold wf; simpl; repeat constructor).
  split; [exact H|].
  exact (render_draws_each_element_once Sample.host None Sample.overflow H).
Defined.

(** X16. Every render paints the decorations of each row element, and no
    others, in the order of the elements and, for an element, in the
    order underline, strikeout, highlight: an underline along the bottom
    of the line for an element whose [underline] holds, a strikeout half
    way down the line for one whose [strikeout] holds, a highlight over
    the box, in the colour given, for one whose [highlight] is a
    non-empty string. *)
Theorem render_paints_decorations (P : Platform)
    (payload : option IDrawOption.t) (d : Draw.t) :
  wf d ->
  exists d' calls,
    render P payload d = Some (d', calls)
    /\ List.filter isDecoration calls
       = concat (zip_with decorationsFor (rowElements (Draw.rowList d'))
                          (Draw.positionList d')).
Proof.
  intros Hwf.
  destruct (render_full P payload d Hwf)
    as (d1 & d' & calls & _ & Hrun & _ & _ & _ & _ & _ & Hrows & _ & _ & Hpos & _ & Hcalls & _).
  exists d', calls. split; [exact Hrun|].
  rewrite Hcalls, filter_tail_calls by reflexivity.
  rewrite Hrows, Hpos.
  unfold paintAll. apply paintRows_projection; try reflexivity.
  intros range i curRow j re ps. unfold paintElement, entryOf, decorationsFor.
    simpl. rewrite !List.filter_app.
    destruct (JS.flag (IElement.underline (IRowElement.element re))),
             (JS.flag (IElement.strikeout (IRowElement.element re))),
             (strTruthy (IElement.highlight (IRowElement.element re))),
             (IElement.isImage (IRowElement.element re)),
             (inSelection range (p_index ps)); reflexivity.
Qed.

Lemma render_paints_decorations_witness :
  wf Sample3.decorated /\
  exists d' calls,
    render Sample.host None Sample3.decorated = Some (d', calls)
    /\ List.filter isDecoration calls
       = concat (zip_with decorationsFor (rowElements (Draw.rowList d'))
                          (Draw.positionList d')).
Proof.
  assert (H : wf Sample3.decorated) by (unfold wf; simpl; repeat constructor).
  split; [exact H|].
  exact (render_paints_decorations Sample.host None Sample3.decorated H).
Defined.

Lemma flushedFrom_app (b : bool) (l1 l2 : list DrawCall) :
  flushedFrom b (l1 ++ l2)
  = flushedFrom b l1 && flushedFrom (fold_left pendingAfter l1 b) l2.
Proof.
  revert b. induction l1 as [|c l1 IH]; intros b; simpl; [reflexivity|].
  rewrite IH, andb_assoc. reflexivity.
Qed.

(** The calls made for one element draw no image over pending text,
    whatever was pending before them. *)
Lemma paintElement_flushed range i curRow j re (ps : paint) :
  exists new,
    p_calls (paintElement range i curRow j re ps) = p_calls ps ++ new
    /\ forall b, flushedFrom b new = true.
Proof.
  unfold paintElement. simpl. eexists. split; [reflexivity|].
  intros b.
  destruct (JS.flag (IElement.underline (IRowElement.element re))),
           (JS.flag (IElement.strikeout (IRowElement.element re))),
           (strTruthy (IElement.highlight (IRowElement.element re))),
           (IElement.isImage (IRowElement.element re)),
           (inSelection range (p_index ps)), b; reflexivity.
Qed.

Lemma paintAll_flushed (P : Platform) (d1 : Draw.t) :
  flushedFrom false (p_calls (paintAll P d1)) = true
  /\ pendingText (p_calls (paintAll P d1)) = false.
Proof.
  unfold paintAll.
  match goal with
  | |- context [paintRows ?cv ?o ?r 0 ?rows ?ps0] =>
      apply (paintRows_rule
               (fun _ st => flushedFrom false (p_calls st) = true
                            /\ pendingText (p_calls st) = false)
               cv o r rows [] 0 ps0 eq_refl)
  end.
  - split; reflexivity.
  - intros done1 row rest ps1 _ [HQ _]. unfold paintRow. simpl.
    unfold pendingText. rewrite flushedFrom_app, fold_left_app. simpl.
    split; [|reflexivity]. rewrite andb_true_r.
    match goal with
    | |- context [paintElements ?r ?i ?row 0 ?els ?st0] =>
        apply (paintElements_rule
                 (fun _ st => flushedFrom false (p_calls st) = true)
                 r i row els [] 0 st0 eq_refl)
    end.
    + exact HQ.
    + intros doneE e restE ps2 _ HQ2.
      match goal with
      | |- context [paintElement ?r ?i ?cr ?j e ps2] =>
          destruct (paintElement_flushed r i cr j e ps2) as (new & -> & Hnew)
      end.
      rewrite flushedFrom_app, HQ2, Hnew. reflexivity.
Qed.

(** X17. Text is never left pending: when a render draws an image, every
    text record made before it has been completed, so the image cannot
    be painted over by a later flush of earlier text; and when the
    render returns, no recorded text is pending. *)
Theorem render_flushes_text (P : Platform)
    (payload : option IDrawOption.t) (d : Draw.t) :
  wf d ->
  exists d' calls,
    render P payload d = Some (d', calls)
    /\ pendingText calls = false
    /\ forall before re x y after,
         calls = before ++ ImageRender re x y :: after ->
         pendingText before = false.
Proof.
  intros Hwf.
  destruct (render_full P payload d Hwf)
    as (d1 & d' & calls & _ & Hrun & _ & _ & _ & _ & _ & _ & _ & _ & _ & _ & Hcalls & _).
  exists d', calls. split; [exact Hrun|].
  destruct (paintAll_flushed P d1) as [Hf Hp].
  assert (Hall : flushedFrom false calls = true /\ pendingText calls = false).
  { rewrite Hcalls. unfold pendingText in *.
    rewrite !flushedFrom_app, !fold_left_app, Hf, Hp.
    destruct (bool_decide (is_Some (Draw.searchMatchList d1))),
             (default true (payload ≫= IDrawOption.isSetCursor)); split; reflexivity. }
  destruct Hall as [Hflush Hpend]. split; [exact Hpend|].
  intros before re x y after E. rewrite E, flushedFrom_app in Hflush.
  apply andb_true_iff in Hflush as [_ Hflush]. simpl in Hflush.
  apply andb_true_iff in Hflush as [Hflush _].
  apply negb_true_iff in Hflush. exact Hflush.
Qed.

Lemma render_flushes_text_witness :
  wf Sample.overflow /\
  exists d' calls,
    render Sample.host None Sample.overflow = Some (d', calls)
    /\ pendingText calls = false
    /\ forall before re x y after,
         calls = before ++ ImageRender re x y :: after ->
         pendingText before = false.
Proof.
  assert (H : wf Sample.overflow) by (unfold wf; simpl; repeat constructor).
  split; [exact H|].
  exact (render_flushes_text Sample.host None Sample.overflow H).
Defined.

(** ** Where the entries of the position list lie *)

Lemma rowTop_all opts (rows : list IRow.t) :
  rowTop opts rows (length rows)
  = fold_left (fun y r => JS.add y (IRow.height r)) rows (IEditorOption.margin0 opts).
Proof. unfold rowTop. rewrite firstn_all. reflexivity. Qed.

Lemma rowTop_app_lt opts (rows more : list IRow.t) (i : nat) :
  i <= length rows -> rowTop opts (rows ++ more) i = rowTop opts rows i.
Proof. intros H. unfold rowTop. rewrite take_app_le by exact H. reflexivity. Qed.

Lemma isLastLetter_eqb (j n : nat) :
  Z.eqb (Z.of_nat j) (Z.of_nat n - 1)%Z = Nat.eqb (S j) n.
Proof.
  destruct (Nat.eqb_spec (S j) n) as [E|E].
  - apply Z.eqb_eq. lia.
  - apply Z.eqb_neq. lia.
Qed.

(** The inner loop, from the left edge of the row: one entry for each
    element of the row, each where the widths before it put it. *)
Lemma paintElements_geometry canvas opts range (i : nat) (curRow : IRow.t) (ps1 : paint) :
  p_x ps1 = rowLeft canvas opts curRow ->
  let ps2 := paintElements range i curRow 0 (IRow.elementList curRow) ps1 in
  p_y ps2 = p_y ps1
  /\ exists group,
       p_positionList ps2 = p_positionList ps1 ++ group
       /\ length group = length (IRow.elementList curRow)
       /\ forall k p, group !! k = Some p -> entryAt canvas opts (p_y ps1) i curRow k p.
Proof.
  intros Hx ps2. subst ps2.
  enough (H : p_x (paintElements range i curRow 0 (IRow.elementList curRow) ps1)
              = sumWidths (rowLeft canvas opts curRow) (IRow.elementList curRow)
              /\ p_y (paintElements range i curRow 0 (IRow.elementList curRow) ps1) = p_y ps1
              /\ exists group,
                   p_positionList (paintElements range i curRow 0 (IRow.elementList curRow) ps1)
                   = p_positionList ps1 ++ group
                   /\ length group = length (IRow.elementList curRow)
                   /\ forall k p, group !! k = Some p ->
                                  entryAt canvas opts (p_y ps1) i curRow k p)
    by (exact (proj2 H)).
  apply (paintElements_rule
           (fun doneE st =>
              p_x st = sumWidths (rowLeft canvas opts curRow) doneE
              /\ p_y st = p_y ps1
              /\ exists group,
                   p_positionList st = p_positionList ps1 ++ group
                   /\ length group = length doneE
                   /\ forall k p, group !! k = Some p ->
                                  entryAt canvas opts (p_y ps1) i curRow k p)
           range i curRow (IRow.elementList curRow) [] 0 ps1 eq_refl).
  - split; [exact Hx|]. split; [reflexivity|]. exists []. rewrite app_nil_r.
    split; [reflexivity|]. split; [reflexivity|]. intros k p Hk. discriminate.
  - intros doneE e restE st Hsplit (Hsx & Hsy & group & Hpos & Hlen & Hall).
    simpl in Hsplit.
    split; [|split].
    + unfold paintElement. simpl. rewrite Hsx, sumWidths_snoc. reflexivity.
    + unfold paintElement. simpl. exact Hsy.
    + rewrite paintElement_entry.
      exists (group ++ [entryOf i curRow (length doneE) e st]).
      split; [rewrite Hpos, app_assoc; reflexivity|].
      split; [rewrite !length_app, Hlen; reflexivity|].
      intros k p Hk. apply lookup_app_Some in Hk as [Hk|[Hge Hk]].
      * exact (Hall k p Hk).
      * destruct (k - length group) as [|n] eqn:En; [|destruct n; discriminate].
        simpl in Hk. injection Hk as <-.
        assert (Ek : k = length doneE) by lia. subst k.
        exists e. unfold entryOf, positionItem. simpl.
        split; [rewrite <- Hsplit; apply list_lookup_middle; reflexivity|].
        split; [reflexivity|]. split; [reflexivity|]. split; [reflexivity|].
        split; [apply isLastLetter_eqb|].
        unfold boxAt, columnLeft. rewrite <- Hsplit, take_app_length.
        rewrite Hsx, Hsy. reflexivity.
Qed.

(** The outer loop, from the left top corner of the page. *)
Lemma paintRows_geometry canvas opts range (rows : list IRow.t) (ps0 : paint) :
  p_x ps0 = IEditorOption.margin3 opts ->
  p_y ps0 = IEditorOption.margin0 opts ->
  p_positionList ps0 = [] ->
  exists groups,
    p_positionList (paintRows canvas opts range 0 rows ps0) = concat groups
    /\ length groups = length rows
    /\ forall i curRow group,
         rows !! i = Some curRow -> groups !! i = Some group ->
         length group = length (IRow.elementList curRow)
         /\ forall k p, group !! k = Some p ->
                        entryAt canvas opts (rowTop opts rows i) i curRow k p.
Proof.
  intros Hx Hy Hpos.
  enough (H : p_x (paintRows canvas opts range 0 rows ps0) = IEditorOption.margin3 opts
              /\ p_y (paintRows canvas opts range 0 rows ps0) = rowTop opts rows (length rows)
              /\ exists groups,
                   p_positionList (paintRows canvas opts range 0 rows ps0) = concat groups
                   /\ length groups = length rows
                   /\ forall i curRow group,
                        rows !! i = Some curRow -> groups !! i = Some group ->
                        length group = length (IRow.elementList curRow)
                        /\ forall k p, group !! k = Some p ->
                                       entryAt canvas opts (rowTop opts rows i) i curRow k p)
    by (exact (proj2 (proj2 H))).
  apply (paintRows_rule
           (fun done st =>
              p_x st = IEditorOption.margin3 opts
              /\ p_y st = rowTop opts done (length done)
              /\ exists groups,
                   p_positionList st = concat groups
                   /\ length groups = length done
                   /\ forall i curRow group,
                        done !! i = Some curRow -> groups !! i = Some group ->
                        length group = length (IRow.elementList curRow)
                        /\ forall k p, group !! k = Some p ->
                                       entryAt canvas opts (rowTop opts done i) i curRow k p)
           canvas opts range rows [] 0 ps0 eq_refl).
  - split; [exact Hx|]. split; [exact Hy|]. exists []. rewrite Hpos.
    split; [reflexivity|]. split; [reflexivity|]. intros i curRow group Hi. discriminate.
  - intros done1 row rest st _ (Hsx & Hsy & groups & Hsp & Hlen & Hall).
    unfold paintRow.
    match goal with
    | |- context [paintElements range ?i0 row 0 _ ?st1] =>
        destruct (paintElements_geometry canvas opts range i0 row st1) as (Hy2 & group & Hp2 & Hl2 & Hg2);
        [simpl; rewrite Hsx; reflexivity|]
    end.
    simpl in Hy2, Hp2, Hg2. simpl.
    split; [reflexivity|]. split.
    + rewrite Hy2, Hsy, !rowTop_all, fold_left_app. reflexivity.
    + exists (groups ++ [group]). split; [|split].
      * rewrite Hp2, Hsp, concat_app. simpl. rewrite app_nil_r. reflexivity.
      * rewrite !length_app, Hlen. reflexivity.
      * intros i curRow g Hi Hg.
        apply lookup_app_Some in Hi as [Hi|[Hge Hi]].
        -- pose proof (lookup_lt_Some _ _ _ Hi) as Hlt.
           rewrite lookup_app_l in Hg by lia.
           rewrite rowTop_app_lt by lia. exact (Hall i curRow g Hi Hg).
        -- destruct (i - length done1) as [|n] eqn:En; [|destruct n; discriminate].
           simpl in Hi. injection Hi as <-.
           assert (Ei : i = length done1) by lia. subst i.
           rewrite lookup_app_r in Hg by lia.
           rewrite Hlen, Nat.sub_diag in Hg. simpl in Hg. injection Hg as <-.
           split; [exact Hl2|].
           rewrite rowTop_app_lt by lia. rewrite <- Hsy. exact Hg2.
Qed.

(** X18. Every render puts the position entries where the rows put their
    elements: the position list is the entries of row 0, then those of
    row 1, and so on, one for each element of the row. The entry of the
    element [k] of the row [i] has the row number [i], the metrics of
    the element and the height of the row as its line height; it is the
    last letter exactly when [k] is the last index of the row; and its
    box is as wide as the element and as high as the row, its top at the
    top margin plus the heights of the rows before, its left edge at the
    left margin, moved by the row's flex offset, plus the widths of the
    elements before it in the row. *)
Theorem render_position_geometry (P : Platform)
    (payload : option IDrawOption.t) (d : Draw.t) :
  wf d ->
  exists d' calls groups,
    render P payload d = Some (d', calls)
    /\ Draw.positionList d' = concat groups
    /\ length groups = length (Draw.rowList d')
    /\ forall i curRow group,
         Draw.rowList d' !! i = Some curRow -> groups !! i = Some group ->
         length group = length (IRow.elementList curRow)
         /\ forall k p, group !! k = Some p ->
              entryAt (Draw.canvas d') (Draw.options d')
                     (rowTop (Draw.options d') (Draw.rowList d') i) i curRow k p.
Proof.
  intros Hwf.
  destruct (render_full P payload d Hwf)
    as (d1 & d' & calls & _ & Hrun & _ & Hcanvas & _ & Hopts & _ & Hrows & _ & _ & Hpos & _).
  destruct (paintRows_geometry (Draw.canvas d1) (Draw.options d1) (getRange d1)
              (Draw.rowList d1)
              (mkPaint (IEditorOption.margin3 (Draw.options d1))
                       (IEditorOption.margin0 (Draw.options d1)) 0 []
                       [RecoveryCursor;
                        ClearRect (JS.of_Z 0) (JS.of_Z 0) (Canvas.width (Draw.canvas d1))
                                  (Canvas.height (Draw.canvas d1));
                        BackgroundRender (getBoundingClientRect P (Draw.canvas d1));
                        MarginRender (getBoundingClientRect P (Draw.canvas d1))])
              eq_refl eq_refl eq_refl) as (groups & Hg).
  exists d', calls, groups. split; [exact Hrun|].
  rewrite Hpos, Hrows, Hopts, Hcanvas. exact Hg.
Qed.

Lemma render_position_geometry_witness :
  wf Sample.overflow /\
  exists d' calls groups,
    render Sample.host None Sample.overflow = Some (d', calls)
    /\ Draw.positionList d' = concat groups
    /\ length groups = length (Draw.rowList d')
    /\ forall i curRow group,
         Draw.rowList d' !! i = Some curRow -> groups !! i = Some group ->
         length group = length (IRow.elementList curRow)
         /\ forall k p, group !! k = Some p ->
              entryAt (Draw.canvas d') (Draw.options d')
                      (rowTop (Draw.options d') (Draw.rowList d') i) i curRow k p.
Proof.
  assert (H : wf Sample.overflow) by (unfold wf; simpl; repeat constructor).
  split; [exact H|].
  exact (render_position_geometry Sample.host None Sample.overflow H).
Defined.

(** ** The alignment of the rows *)

(** X19. After a layout pass every row but the first was opened by its
    first element and has the [rowFlex] of that element: the [rowFlex]
    of an element that is appended to a row already open never changes
    the alignment of the row. *)
Theorem opened_rows_take_flex_of_first_element (P : Platform) (d : Draw.t) :
  wf d ->
  exists d', _computeRowList P d = Some d'
    /\ match Draw.rowList d' with
       | [] => True
       | _ :: rest => Forall flexOfOpened rest
       end.
Proof.
  intros Hwf.
  destruct (computeRowList_rule P d
              (fun _ st => exists r0 rest, l_rows st = r0 :: rest /\ Forall flexOfOpened rest
                           \/ l_rows st = []))
    as (st' & Hrun & HQ & _).
  - exact Hwf.
  - simpl. unfold initialRows. destruct (Draw.elementList d).
    + exists (firstRow d), []. right. reflexivity.
    + exists (firstRow d), []. left. split; [reflexivity|constructor].
  - intros done1 k r st1 rs cur e (r0 & rest & HQ) Hrows _.
    destruct HQ as [(Heq & Hrest)|Heq];
      [|rewrite Hrows in Heq; destruct rs; discriminate].
    rewrite Hrows in Heq.
    assert (Hnew : forall re, flexOfOpened (newRow (Draw.options d) re))
      by (intros re; exists re, []; split; reflexivity).
    unfold stepResult.
    destruct (buildRowElement P (Draw.options d) (innerWidthOf P d) cur r e st1)
      as [[re objs'] font']. simpl.
    destruct rs as [|a rs]; simpl in Heq; inversion Heq; subst; clear Heq.
    + destruct (breaksRow P (innerWidthOf P d) k r0 re); simpl.
      * exists r0, [newRow (Draw.options d) re]. left. repeat split; auto.
      * exists (growRow (Draw.options d) r0 re), []. left.
        split; [reflexivity|constructor].
    + apply Forall_app in Hrest. destruct Hrest as [Hrs Hcur].
      inversion Hcur as [|? ? Hc _]; subst.
      destruct (breaksRow P (innerWidthOf P d) k cur re); simpl.
      * exists r0, (rs ++ [cur; newRow (Draw.options d) re]). left.
        split; [reflexivity|].
        apply Forall_app. split; [exact Hrs|]. repeat constructor; auto.
      * exists r0, (rs ++ [growRow (Draw.options d) cur re]). left.
        split; [reflexivity|].
        apply Forall_app. split; [exact Hrs|]. constructor; [|constructor].
        destruct Hc as (e0 & tl & He & Hf). exists e0, (tl ++ [re]). simpl.
        rewrite He. split; [reflexivity|exact Hf].
  - eexists. split; [exact Hrun|]. simpl.
    destruct HQ as (r0 & rest & [(Heq & Hrest)|Heq]); rewrite Heq; auto.
Qed.

Lemma opened_rows_take_flex_of_first_element_witness :
  wf Sample.abc /\
  exists d', _computeRowList Sample.host Sample.abc = Some d'
    /\ match Draw.rowList d' with
       | [] => True
       | _ :: rest => Forall flexOfOpened rest
       end.
Proof.
  assert (H : wf Sample.abc) by (unfold wf; simpl; repeat constructor).
  split; [exact H|].
  exact (opened_rows_take_flex_of_first_element Sample.host Sample.abc H).
Defined.

(** ** The painter style *)

Lemma setPainterStyle_get {V} (payload : option (list (string * V))) (s : painter V) :
  getPainterStyle (setPainterStyle payload s) = (if hasKeys payload then payload else None)
  /\ styleCursor (setPainterStyle payload s)
     = (if hasKeys payload then "copy" else styleCursor s).
Proof. destruct payload as [[|kv o]|]; split; reflexivity. Qed.

(** X20. After any calls of [setPainterStyle], [getPainterStyle] returns
    the payload of the last call when that is an object with at least
    one key, and null when it is null or an object without keys. The
    cursor of the canvas is [copy] as soon as one of the payloads had a
    key and is what it was otherwise: no call of [setPainterStyle], not
    with null either, gives the canvas its former cursor back. *)
Theorem painter_style_after_calls {V} (payloads : list (option (list (string * V))))
    (payload : option (list (string * V))) (s : painter V) :
  let s' := fold_left (fun st p => setPainterStyle p st) (payloads ++ [payload]) s in
  getPainterStyle s' = (if hasKeys payload then payload else None)
  /\ styleCursor s'
     = (if existsb hasKeys (payloads ++ [payload]) then "copy" else styleCursor s).
Proof.
  simpl. rewrite fold_left_app. simpl. split; [apply setPainterStyle_get|].
  rewrite existsb_app. simpl. rewrite orb_false_r.
  rewrite (proj2 (setPainterStyle_get payload _)).
  destruct (hasKeys payload); [rewrite orb_true_r; reflexivity|].
  rewrite orb_false_r. clear payload. revert s.
  induction payloads as [|p payloads IH]; intros s; simpl; [reflexivity|].
  rewrite IH, (proj2 (setPainterStyle_get p s)).
  destruct (hasKeys p); simpl; destruct (existsb hasKeys payloads); reflexivity.
Qed.

(** ** The layout pass, iteration by iteration *)

Section LayoutPrefix.

Variable P : Platform.
Variable opts : IEditorOption.t.
Variable innerWidth : JS.number.

(** The loop over [done ++ r :: rest] reaches [r] in the state the loop
    over [done] leaves, lays it out at the index [i + length done], and
    goes on over [rest] from the next index. *)
Lemma layoutFrom_reaches (done : list loc) :
  forall (i : nat) (st : layout) (r : loc) (rest : list loc),
    Forall (fun l => l < length (l_objs st)) (done ++ r :: rest) ->
    l_rows st <> [] ->
    exists st1 rs cur e,
      layoutFrom P opts innerWidth i done st = Some st1
      /\ l_rows st1 = rs ++ [cur]
      /\ l_objs st1 !! r = Some e
      /\ length (l_objs st1) = length (l_objs st)
      /\ layoutFrom P opts innerWidth i (done ++ [r]) st
         = Some (stepResult P opts innerWidth (i + length done) r e rs cur st1)
      /\ layoutFrom P opts innerWidth i (done ++ r :: rest) st
         = layoutFrom P opts innerWidth (S (i + length done)) rest
             (stepResult P opts innerWidth (i + length done) r e rs cur st1).
Proof.
  induction done as [|a done IH]; intros i st r rest Hwf Hne.
  - destruct (nonempty_snoc _ Hne) as (rs & cur & Hrows).
    inversion Hwf as [|? ? Hr _]; subst.
    destruct (lookup_lt_is_Some_2 _ _ Hr) as [e He].
    exists st, rs, cur, e. simpl. rewrite Nat.add_0_r.
    rewrite (layoutStep_eq P opts innerWidth i r st rs cur e Hrows He). simpl.
    repeat split; auto.
  - destruct (nonempty_snoc _ Hne) as (rs0 & cur0 & Hrows0).
    inversion Hwf as [|? ? Ha Hwf']; subst.
    destruct (lookup_lt_is_Some_2 _ _ Ha) as [ea Hea].
    destruct (IH (S i) (stepResult P opts innerWidth i a ea rs0 cur0 st) r rest)
      as (st1 & rs & cur & e & Hrun & Hrows & He & Hlen & Hone & Hall).
    + rewrite stepResult_length. exact Hwf'.
    + apply stepResult_rows_nonempty.
    + exists st1, rs, cur, e. simpl.
      rewrite (layoutStep_eq P opts innerWidth i a st rs0 cur0 ea Hrows0 Hea). simpl.
      replace (i + S (length done)) with (S i + length done) by lia.
      split; [exact Hrun|]. split; [exact Hrows|]. split; [exact He|].
      split; [rewrite Hlen; apply stepResult_length|].
      split; [exact Hone|exact Hall].
Qed.

(** The loop writes to no object but those of its references. *)
Lemma layoutFrom_keeps_other (l : loc) (refs : list loc) (i : nat) (st : layout) :
  Forall (fun r => r < length (l_objs st)) refs ->
  l_rows st <> [] ->
  exists st', layoutFrom P opts innerWidth i refs st = Some st'
              /\ (~ In l refs -> l_objs st' !! l = l_objs st !! l).
Proof.
  intros Hwf Hne.
  destruct (layoutFrom_rule P opts innerWidth
              (fun done st1 => ~ In l done -> l_objs st1 !! l = l_objs st !! l)
              refs [] i st Hwf (or_introl Hne))
    as (st' & Hrun & HQ & _).
  - intros _. reflexivity.
  - intros done1 k r st1 rs cur e HQ _ _ Hnot.
    rewrite stepResult_other.
    + apply HQ. intros Hin. apply Hnot. apply in_or_app. left. exact Hin.
    + intros ->. apply Hnot. apply in_or_app. right. left. reflexivity.
  - exists st'. split; [exact Hrun|exact HQ].
Qed.

(** A loop none of whose iterations shrinks an image leaves the store as
    it is. *)
Lemma shrinksFrom_false (refs : list loc) :
  forall (i : nat) (st st' : layout),
    shrinksFrom P opts innerWidth i refs st = false ->
    layoutFrom P opts innerWidth i refs st = Some st' ->
    l_objs st' = l_objs st.
Proof.
  induction refs as [|r refs IH]; intros i st st' Hs Hrun; simpl in *.
  - inversion Hrun. reflexivity.
  - apply orb_false_iff in Hs. destruct Hs as [Hstep Hs].
    destruct (layoutStep P opts innerWidth i r st) as [st1|] eqn:E; [|discriminate].
    simpl in Hrun. rewrite (IH (S i) st1 st' Hs Hrun).
    unfold layoutStep in E. unfold stepShrinks in Hstep.
    destruct (last (l_rows st)) as [cur|]; [|discriminate].
    destruct (l_objs st !! r) as [e|]; [|discriminate].
    simpl in E. unfold buildRowElement in E.
    destruct (IElement.isImage e).
    + simpl in Hstep. rewrite Hstep in E.
      destruct (breaksRow _ _ _ _ _) in E; inversion E; reflexivity.
    + destruct (breaksRow _ _ _ _ _) in E; inversion E; reflexivity.
Qed.

End LayoutPrefix.

(** The layout pass reaches every element of the sequence: it is the
    loop over the elements before it from the starting state, the
    iteration for the element at the index that is their number, and the
    loop over the elements after it. *)
Lemma computeRowList_reaches (P : Platform) (d : Draw.t) (done : list loc) (r : loc)
    (rest : list loc) :
  wf d ->
  Draw.elementList d = done ++ r :: rest ->
  exists st rs cur e stF,
    layoutFrom P (Draw.options d) (innerWidthOf P d) 0 done (layoutStart d) = Some st
    /\ l_rows st = rs ++ [cur]
    /\ l_objs st !! r = Some e
    /\ layoutFrom P (Draw.options d) (innerWidthOf P d) 0 (done ++ [r]) (layoutStart d)
       = Some (stepResult P (Draw.options d) (innerWidthOf P d) (length done) r e rs cur st)
    /\ layoutFrom P (Draw.options d) (innerWidthOf P d) 0 (Draw.elementList d)
         (layoutStart d)
       = layoutFrom P (Draw.options d) (innerWidthOf P d) (S (length done)) rest
           (stepResult P (Draw.options d) (innerWidthOf P d) (length done) r e rs cur st)
    /\ layoutFrom P (Draw.options d) (innerWidthOf P d) (S (length done)) rest
         (stepResult P (Draw.options d) (innerWidthOf P d) (length done) r e rs cur st)
       = Some stF
    /\ (~ In r rest ->
        l_objs stF !! r
        = l_objs (stepResult P (Draw.options d) (innerWidthOf P d)
                             (length done) r e rs cur st) !! r)
    /\ _computeRowList P d
       = Some (Draw.set_rowList (l_rows stF) (Draw.set_objs (l_objs stF) d)).
Proof.
  intros Hwf Hsplit.
  assert (Hne : l_rows (layoutStart d) <> []).
  { apply wf_initial. rewrite Hsplit. destruct done; discriminate. }
  assert (Hall : Forall (fun l => l < length (l_objs (layoutStart d))) (done ++ r :: rest)).
  { rewrite <- Hsplit. exact Hwf. }
  destruct (layoutFrom_reaches P (Draw.options d) (innerWidthOf P d) done 0
              (layoutStart d) r rest Hall Hne)
    as (st & rs & cur & e & Hrun & Hrows & He & Hlen & Hone & Hwhole).
  simpl in Hone, Hwhole.
  destruct (layoutFrom_keeps_other P (Draw.options d) (innerWidthOf P d) r rest
              (S (length done))
              (stepResult P (Draw.options d) (innerWidthOf P d) (length done) r e rs cur st))
    as (stF & HrunF & Hkeep).
  - rewrite stepResult_length, Hlen.
    apply Forall_app in Hall. destruct Hall as [_ Hall].
    inversion Hall; assumption.
  - apply stepResult_rows_nonempty.
  - exists st, rs, cur, e, stF.
    split; [exact Hrun|]. split; [exact Hrows|]. split; [exact He|].
    split; [exact Hone|]. split; [rewrite Hsplit; exact Hwhole|].
    split; [exact HrunF|]. split; [exact Hkeep|].
    unfold _computeRowList. fold (layoutStart d).
    rewrite Hsplit, Hwhole, HrunF. reflexivity.
Qed.

Lemma snoc_singleton {A} (rs : list A) (cur x : A) :
  [x] = rs ++ [cur] -> rs = [] /\ cur = x.
Proof.
  destruct rs as [|a rs]; simpl; intros H.
  - inversion H. auto.
  - inversion H as [[Ha Hnil]]. destruct rs; discriminate.
Qed.

(** ** Row break policy *)



(** ** Width containment *)

(** C5, as the code has it. For every element sequence (with valid
    references) and every available width, the layout pass returns, and
    of the rows it leaves: a row without elements has width 0; a row with
    elements whose width and the available width are numbers (not NaN)
    satisfies [row.width <= availableWidth], unless it consists of a
    single element that alone exceeds the available width. Rows opened by
    a line-break marker need no exception of their own. No element is
    dropped, whatever its width: the row elements of the rows, in order,
    are the copies of the elements of the sequence, and the rows hold as
    many elements as the sequence. *)
Theorem computeRowList_width_containment (P : Platform) (d : Draw.t) :
  wf d ->
  exists d', _computeRowList P d = Some d'
    /\ Forall (fun r =>
         (IRow.elementList r = [] -> IRow.width r = JS.of_Z 0)
         /\ (IRow.elementList r <> [] ->
             JS.isNaN (IRow.width r) = false ->
             JS.isNaN (innerWidthOf P d) = false ->
             JS.le (IRow.width r) (innerWidthOf P d) = true
             \/ singleOversize (innerWidthOf P d) r = true))
       (Draw.rowList d')
    /\ Forall2 (copyOf (Draw.objs d)) (Draw.elementList d) (rowElements (Draw.rowList d'))
    /\ placed (Draw.rowList d') = length (Draw.elementList d).
Proof.
  intros Hwf. destruct (computeRowList_rowFits P d Hwf) as (d' & Hrun & Hfit).
  destruct (layout_copies P d Hwf) as (d'' & Hrun' & Hcopies).
  rewrite Hrun in Hrun'. inversion Hrun'; subst d''; clear Hrun'.
  exists d'. split; [exact Hrun|]. split; [|split].
  - eapply Forall_impl; [exact Hfit|]. clear. intros r Hr. simpl in Hr.
    destruct Hr as [[He Hw]|[(e & He & Hw)|[He Hgt]]].
    + split; [intros _; exact Hw|congruence].
    + split; [rewrite He; discriminate|]. intros _ Hn1 Hn2.
      unfold singleOversize. rewrite He, <- Hw. apply le_or_gt; assumption.
    + split; [congruence|]. intros _ Hn1 Hn2. left. apply not_gt_le; assumption.
  - exact Hcopies.
  - rewrite placed_rowElements. symmetry. eapply Forall2_length. exact Hcopies.
Qed.

Lemma computeRowList_width_containment_witness :
  wf Sample.hidden /\
  exists d' r0 r1,
    _computeRowList Sample.host Sample.hidden = Some d'
    /\ Draw.rowList d' = [r0; r1]
    /\ IRow.elementList r0 = [] /\ IRow.width r0 = JS.of_Z 0
    /\ singleOversize (innerWidthOf Sample.host Sample.hidden) r1 = true
    /\ placed (Draw.rowList d') = 1.
Proof.
  assert (H : wf Sample.hidden) by (unfold wf; simpl; repeat constructor).
  split; [exact H|].
  destruct (computeRowList_width_containment Sample.host Sample.hidden H)
    as (d' & Hrun & Hall & _ & Hplaced).
  pose proof Hrun as E. vm_compute in E. inversion E; subst d'; clear E.
  inversion Hall as [|? ? [H0 _] _]; subst.
  eexists _, _, _. split; [exact Hrun|]. split; [reflexivity|].
  split; [reflexivity|]. split; [exact (H0 eq_refl)|].
  split; [vm_compute; reflexivity|exact Hplaced].
Defined.

(** ** What the layout pass writes *)

(** C9. The layout pass writes to the element objects. For every [Draw]
    with valid references it returns, keeps the array of references and
    the number of objects, leaves every object equal to what it was in
    every field but [width] and [height], and equal in all fields when
    it is not an image, and does not touch an object the sequence does
    not refer to. It is not read-only: whenever the pass reaches an image
    whose width, added to the width of the current row, exceeds the
    available width, the iteration writes the remaining row space to the
    [width] of the object and [(height * width) / width] to its
    [height], and this is what the store holds when the pass returns,
    unless a later element of the sequence is the same object. The image
    of 150 by 30 alone on a page 100 wide is 100 wide afterwards; the
    image of 100 by 30 laid out after 60 of text on a page 100 wide is
    40 wide in the store afterwards, also after a whole [render], and a
    second pass, on a canvas now 200 wide, lays out the 40 it finds (a
    row 100 wide) where the elements as they were give a row 160 wide. *)
Theorem layout_writes_only_image_size :
  (forall P d,
     wf d ->
     exists d', _computeRowList P d = Some d'
       /\ Draw.elementList d' = Draw.elementList d
       /\ length (Draw.objs d') = length (Draw.objs d)
       /\ (forall l x, Draw.objs d !! l = Some x ->
            exists x', Draw.objs d' !! l = Some x'
                       /\ sameButSize x x'
                       /\ (IElement.isImage x = false -> x' = x))
       /\ (forall l, ~ In l (Draw.elementList d) ->
            Draw.objs d' !! l = Draw.objs d !! l))
  /\ (forall P d done r rest,
       wf d ->
       Draw.elementList d = done ++ r :: rest ->
       let opts := Draw.options d in
       let iw := innerWidthOf P d in
       exists st rs cur e d',
         layoutFrom P opts iw 0 done (layoutStart d) = Some st
         /\ l_rows st = rs ++ [cur]
         /\ l_objs st !! r = Some e
         /\ _computeRowList P d = Some d'
         /\ (IElement.isImage e = true ->
             JS.gt (JS.add (IRow.width cur) (JS.num (IElement.width e))) iw = true ->
             exists st' e',
               layoutFrom P opts iw 0 (done ++ [r]) (layoutStart d) = Some st'
               /\ l_objs st' !! r = Some e'
               /\ (let surplusWidth := JS.sub iw (IRow.width cur) in
                   IElement.width e' = Some surplusWidth
                   /\ IElement.height e'
                      = Some (JS.div (JS.mul (JS.num (IElement.height e)) surplusWidth)
                                     surplusWidth))
               /\ sameButSize e e'
               /\ (~ In r rest -> Draw.objs d' !! r = Some e')))
  /\ (IElement.width <$> Draw.objs Sample4.lone !! 0) = Some (Some (JS.of_Z 150))
  /\ (d1 ← _computeRowList Sample.host Sample4.lone;
      IElement.width <$> Draw.objs d1 !! 0) = Some (Some (JS.of_Z 100))
  /\ (IElement.width <$> Draw.objs Sample.overflow !! 1) = Some (Some (JS.of_Z 100))
  /\ (d1 ← _computeRowList Sample.host Sample.overflow;
      IElement.width <$> Draw.objs d1 !! 1) = Some (Some (JS.of_Z 40))
  /\ (d1 ← render Sample.host None Sample.overflow;
      IElement.width <$> Draw.objs (fst d1) !! 1) = Some (Some (JS.of_Z 40))
  /\ (d1 ← _computeRowList Sample.host Sample.overflow;
      d2 ← _computeRowList Sample.host (Sample.widen d1);
      Some (Sample.summary (Draw.rowList d2)))
     = Some [(JS.of_Z 100, ["012345"; ""])]
  /\ (d2 ← _computeRowList Sample.host (Sample.widen Sample.overflow);
      Some (Sample.summary (Draw.rowList d2)))
     = Some [(JS.of_Z 160, ["012345"; ""])].
Proof.
  split; [|split; [|repeat split; vm_compute; reflexivity]].
  - intros P d Hwf.
    destruct (computeRowList_frame P d Hwf) as (d' & Hrun & Hd' & Hlen & Hframe & Hother).
    exists d'. split; [exact Hrun|]. split; [rewrite Hd'; reflexivity|].
    split; [exact Hlen|]. split; [exact Hframe|exact Hother].
  - intros P d done r rest Hwf Hsplit opts iw.
    destruct (computeRowList_reaches P d done r rest Hwf Hsplit)
      as (st & rs & cur & e & stF & Hrun & Hrows & He & Hone & _ & _ & Hkeep & Hcomp).
    exists st, rs, cur, e. eexists.
    split; [exact Hrun|]. split; [exact Hrows|]. split; [exact He|].
    split; [exact Hcomp|].
    intros Himg Hover.
    assert (Hst' : l_objs (stepResult P opts iw (length done) r e rs cur st) !! r
                   = Some (shrink iw cur e)).
    { unfold stepResult. rewrite (buildRowElement_image P opts iw cur r e st Himg).
      unfold fitImage, imageOverflows. rewrite Hover. simpl.
      apply list_lookup_insert_eq. eapply lookup_lt_Some. eassumption. }
    exists (stepResult P opts iw (length done) r e rs cur st), (shrink iw cur e).
    split; [exact Hone|]. split; [exact Hst'|].
    split; [split; reflexivity|]. split; [reflexivity|].
    intros Hnot. simpl. rewrite (Hkeep Hnot). exact Hst'.
Qed.

Lemma layout_writes_only_image_size_witness :
  wf Sample4.lone
  /\ Draw.elementList Sample4.lone = [] ++ 0 :: []
  /\ exists d' e',
       _computeRowList Sample.host Sample4.lone = Some d'
       /\ Draw.objs d' !! 0 = Some e'
       /\ IElement.width e' = Some (JS.of_Z 100)
       /\ IElement.height e' = Some (JS.of_Z 30).
Proof.
  assert (H : wf Sample4.lone) by (unfold wf; simpl; repeat constructor).
  split; [exact H|]. split; [reflexivity|].
  destruct (proj1 (proj2 layout_writes_only_image_size) Sample.host Sample4.lone
              [] 0 [] H eq_refl)
    as (st & rs & cur & e & d' & Hst & Hrows & He & Hrun & Hshrink).
  simpl in Hst. injection Hst as <-.
  apply snoc_singleton in Hrows. destruct Hrows as [-> ->].
  simpl in He. injection He as <-.
  destruct (Hshrink eq_refl eq_refl) as (st' & e' & _ & _ & [Hw Hh] & _ & Hfinal).
  exists d', e'. split; [exact Hrun|].
  split; [apply Hfinal; intros []|].
  split; [rewrite Hw|rewrite Hh]; vm_compute; reflexivity.
Defined.

(** ** History capture *)

(** C2, as the code has it. A render that submits history (over valid
    references) returns and pushes one step. The step holds the range,
    which the render did not change, and references to newly allocated
    copies of the elements as the render leaves them, that is after its
    layout pass: none of them is an object that existed before the
    render, none is in the live sequence, and a write to any element of
    the live sequence leaves the elements of the step as they are. When
    the layout pass is skipped, or takes the branch that shrinks an image
    in none of its iterations, the copies are of the elements as they
    were when the render began. *)
Theorem history_step_is_fresh_copy (P : Platform)
    (payload : option IDrawOption.t) (d : Draw.t) :
  wf d ->
  default true (payload ≫= IDrawOption.isSubmitHistory) = true ->
  exists d' calls step vals,
    render P payload d = Some (d', calls)
    /\ Draw.undoStack d' = Draw.undoStack d ++ [step]
    /\ HistoryStep.startIndex step = IRange.startIndex (Draw.range d)
    /\ HistoryStep.endIndex step = IRange.endIndex (Draw.range d)
    /\ Draw.range d' = Draw.range d
    /\ Draw.elementList d' = Draw.elementList d
    /\ deref (Draw.objs d') (Draw.elementList d') = Some vals
    /\ deref (Draw.objs d') (HistoryStep.oldElementList step) = Some vals
    /\ (forall r, In r (HistoryStep.oldElementList step) -> length (Draw.objs d) <= r)
    /\ (forall r, In r (HistoryStep.oldElementList step) -> ~ In r (Draw.elementList d'))
    /\ (forall r x, In r (Draw.elementList d') ->
          deref (<[r := x]> (Draw.objs d')) (HistoryStep.oldElementList step) = Some vals)
    /\ (default true (payload ≫= IDrawOption.isComputeRowList) = false
        \/ layoutShrinks P d = false ->
          deref (Draw.objs d) (Draw.elementList d) = Some vals).
Proof.
  intros Hwf Hsub.
  destruct (render_eq P payload d Hwf)
    as (d1 & d' & calls & Hlay & Hrun & _ & Hlen & Hother & _ & He & Hr & _ & _ & _ & Hhist).
  rewrite Hsub in Hhist.
  destruct Hhist as (vals & step & Hvals & Hobjs & Hundo & Hs & Hend & Hold).
  assert (Hlive : forall r, In r (Draw.elementList d') -> r < length (Draw.objs d1)).
  { intros r Hin. rewrite He in Hin. rewrite Hlen.
    unfold wf in Hwf. rewrite Forall_forall in Hwf. apply Hwf.
    apply list_elem_of_In. exact Hin. }
  assert (Hnew : forall r, In r (HistoryStep.oldElementList step) ->
                           length (Draw.objs d1) <= r).
  { intros r Hin. rewrite Hold in Hin. apply in_seq in Hin. lia. }
  exists d', calls, step, vals.
  split; [exact Hrun|]. split; [exact Hundo|]. split; [exact Hs|]. split; [exact Hend|].
  split; [exact Hr|]. split; [exact He|].
  split; [rewrite Hobjs, He; apply deref_app_l; exact Hvals|].
  split; [rewrite Hobjs, Hold; apply deref_seq_app|].
  split; [intros r Hin; rewrite <- Hlen; apply Hnew; exact Hin|].
  split; [intros r Hin Hin'; specialize (Hnew r Hin); specialize (Hlive r Hin'); lia|].
  split.
  - intros r x Hin. specialize (Hlive r Hin).
    rewrite Hobjs, Hold, insert_app_l by exact Hlive.
    rewrite <- (length_insert (Draw.objs d1) r x). apply deref_seq_app.
  - intros [Hno|Hno].
    + rewrite Hno in Hlay. inversion Hlay; subst d1. exact Hvals.
    + destruct (default true (payload ≫= IDrawOption.isComputeRowList));
        [|inversion Hlay; subst d1; exact Hvals].
      destruct (renderLayout_shape P d Hwf) as (d0 & d1' & Hrun0 & Hrun1 & _ & Hshape).
      rewrite Hlay in Hrun1. inversion Hrun1; subst d1'; clear Hrun1.
      assert (Hobjs0 : Draw.objs d0 = Draw.objs d).
      { unfold _computeRowList in Hrun0.
        destruct (layoutFrom P (Draw.options d) (innerWidthOf P d) 0 (Draw.elementList d)
                    (mkLayout (Draw.objs d) (Draw.ctxFont d) (initialRows d)))
          as [st'|] eqn:E; [|discriminate].
        simpl in Hrun0. inversion Hrun0; subst d0. simpl.
        exact (shrinksFrom_false P _ _ _ 0 _ st' Hno E). }
      assert (Hobjs1 : Draw.objs d1 = Draw.objs d).
      { destruct Hshape as [->|[_ ->]]; simpl; exact Hobjs0. }
      rewrite <- Hobjs1. exact Hvals.
Qed.

Lemma history_step_is_fresh_copy_witness :
  wf Sample.abc
  /\ default true (None ≫= IDrawOption.isSubmitHistory) = true
  /\ layoutShrinks Sample.host Sample.abc = false
  /\ exists d' calls step vals,
       render Sample.host None Sample.abc = Some (d', calls)
       /\ Draw.undoStack d' = Draw.undoStack Sample.abc ++ [step]
       /\ deref (Draw.objs d') (Draw.elementList d') = Some vals
       /\ deref (Draw.objs d') (HistoryStep.oldElementList step) = Some vals
       /\ (forall r, In r (HistoryStep.oldElementList step) ->
                     ~ In r (Draw.elementList d'))
       /\ deref (Draw.objs Sample.abc) (Draw.elementList Sample.abc) = Some vals
       /\ length vals = 3.
Proof.
  assert (H : wf Sample.abc) by (unfold wf; simpl; repeat constructor).
  assert (Hs : layoutShrinks Sample.host Sample.abc = false) by (vm_compute; reflexivity).
  split; [exact H|]. split; [reflexivity|]. split; [exact Hs|].
  destruct (history_step_is_fresh_copy Sample.host None Sample.abc H eq_refl)
    as (d' & calls & step & vals & Hrun & Hundo & _ & _ & _ & _ & Hlive & Hold & _ & Hno
        & _ & Hpre).
  exists d', calls, step, vals.
  split; [exact Hrun|]. split; [exact Hundo|]. split; [exact Hlive|].
  split; [exact Hold|]. split; [exact Hno|].
  pose proof (Hpre (or_intror Hs)) as Hv.
  split; [exact Hv|].
  vm_compute in Hv. injection Hv as <-. reflexivity.
Defined.

